(** * ecmarkdown tokenizer: a shallow embedding of [src/tokenizer.ts]

    The tokenizer is embedded function by function.  A JavaScript string
    is a sequence of UTF-16 code units, modelled as a list of [N]; the
    mutable [Tokenizer] object is a record passed explicitly through
    every method; a method that can throw returns a [result]. *)

From Stdlib Require Import String Ascii List Arith Lia Bool NArith.
Import ListNotations.

Set Implicit Arguments.

(** ** Strings *)

Definition char := N.
Definition ustring := list char.

(** A string literal as code units (characters below 256 only). *)
Definition lit (s : string) : ustring :=
  map N_of_ascii (list_ascii_of_string s).

Definition c_tab : char := 9%N.        (* \t *)
Definition c_nl : char := 10%N.        (* \n *)
Definition c_space : char := 32%N.
Definition c_bang : char := 33%N.      (* ! *)
Definition c_dquote : char := 34%N.    (* the double quote *)
Definition c_squote : char := 39%N.    (* ' *)
Definition c_star : char := 42%N.      (* * *)
Definition c_minus : char := 45%N.     (* - *)
Definition c_dot : char := 46%N.       (* . *)
Definition c_slash : char := 47%N.     (* / *)
Definition c_lt : char := 60%N.        (* < *)
Definition c_eq : char := 61%N.        (* = *)
Definition c_gt : char := 62%N.        (* > *)
Definition c_lbracket : char := 91%N.  (* [ *)
Definition c_bslash : char := 92%N.    (* \ *)
Definition c_rbracket : char := 93%N.  (* ] *)
Definition c_underscore : char := 95%N.
Definition c_tick : char := 96%N.      (* ` *)
Definition c_pipe : char := 124%N.     (* | *)
Definition c_tilde : char := 126%N.    (* ~ *)

Definition ustring_eqb (a b : ustring) : bool :=
  if list_eq_dec N.eq_dec a b then true else false.

(** [s.slice(a, b)] for [0 <= a], [0 <= b]: empty when [b <= a] or
    [a >= s.length], clamped at the end of [s]. *)
Definition slice (s : ustring) (a b : nat) : ustring :=
  firstn (b - a) (skipn a s).

(** [s.slice(a)] *)
Definition slice_from (s : ustring) (a : nat) : ustring := skipn a s.

(** [o === c] for [o = s[i]], which is [undefined] out of range. *)
Definition is_chr (c : char) (o : option char) : bool :=
  match o with Some x => N.eqb x c | None => false end.

(** Length of the longest prefix of [s] whose characters satisfy [p]. *)
Fixpoint run_length (p : char -> bool) (s : ustring) : nat :=
  match s with
  | x :: s' => if p x then S (run_length p s') else 0
  | [] => 0
  end.

(** ** Character classes *)

(** function isWhitespace (tokenizer.ts 451-453) *)
Definition isWhitespace (chr : char) : bool :=
  N.eqb chr c_space || N.eqb chr c_tab.

(** function isFormat (tokenizer.ts 459-461) *)
Definition isFormat (chr : char) : bool :=
  N.eqb chr c_star || N.eqb chr c_underscore || N.eqb chr c_tick
  || N.eqb chr c_lt || N.eqb chr c_pipe || N.eqb chr c_tilde.

(** function isChars (tokenizer.ts 455-457) *)
Definition isChars (chr : char) : bool :=
  negb (isFormat chr) && negb (N.eqb chr c_nl)
  && negb (N.eqb chr c_space) && negb (N.eqb chr c_tab).

(** The regular-expression classes [\d], [\w] and [\s] of ECMAScript
    (no unicode flag). *)
Definition is_d (c : char) : bool := (48 <=? c)%N && (c <=? 57)%N.

Definition is_w (c : char) : bool :=
  ((65 <=? c)%N && (c <=? 90)%N) || ((97 <=? c)%N && (c <=? 122)%N)
  || is_d c || N.eqb c 95%N.

Definition is_s (c : char) : bool :=
  ((9 <=? c)%N && (c <=? 13)%N) || N.eqb c 32%N || N.eqb c 160%N
  || N.eqb c 5760%N || ((8192 <=? c)%N && (c <=? 8202)%N)
  || N.eqb c 8232%N || N.eqb c 8233%N || N.eqb c 8239%N
  || N.eqb c 8287%N || N.eqb c 12288%N || N.eqb c 65279%N.

(** ** Regular expressions

    A backtracking matcher in continuation-passing style, with the
    priorities of ECMAScript: a greedy quantifier tries one more
    iteration before it tries the rest, a lazy one the other way
    round, an alternative tries its left branch first, and an
    iteration of a star that consumes nothing is refused. *)

Inductive regex : Type :=
| Eps
| Chr (c : char)
| Cls (p : char -> bool)
| Seq (r1 r2 : regex)
| Alt (r1 r2 : regex)
| Opt (r : regex)
| Star (r : regex)
| LazyStar (r : regex)
| Group (i : nat) (r : regex).

Definition Plus (r : regex) : regex := Seq r (Star r).

Fixpoint Lit (s : ustring) : regex :=
  match s with
  | [] => Eps
  | c :: s' => Seq (Chr c) (Lit s')
  end.

Definition caps := nat -> option ustring.

Definition no_caps : caps := fun _ => None.

Definition set_cap (i : nat) (v : ustring) (c : caps) : caps :=
  fun j => if Nat.eqb j i then Some v else c j.

(** The iterations of a greedy star whose body is matched by [step]: at
    most [n] of them, each consuming at least one character. *)
Fixpoint greedy_loop (A : Type)
    (step : ustring -> caps -> (ustring -> caps -> option A) -> option A)
    (k : ustring -> caps -> option A) (n : nat) (s : ustring) (c : caps)
    {struct n} : option A :=
  match n with
  | 0 => k s c
  | S n' =>
      match step s c
              (fun s1 c1 =>
                 if length s1 <? length s then greedy_loop step k n' s1 c1
                 else None) with
      | Some x => Some x
      | None => k s c
      end
  end.

(** The same for a lazy star, which tries the rest first. *)
Fixpoint lazy_loop (A : Type)
    (step : ustring -> caps -> (ustring -> caps -> option A) -> option A)
    (k : ustring -> caps -> option A) (n : nat) (s : ustring) (c : caps)
    {struct n} : option A :=
  match n with
  | 0 => k s c
  | S n' =>
      match k s c with
      | Some x => Some x
      | None =>
          step s c
            (fun s1 c1 =>
               if length s1 <? length s then lazy_loop step k n' s1 c1
               else None)
      end
  end.

Fixpoint rmatch (A : Type) (r : regex) (s : ustring) (c : caps)
    (k : ustring -> caps -> option A) {struct r} : option A :=
  match r with
  | Eps => k s c
  | Chr a =>
      match s with
      | x :: s' => if N.eqb x a then k s' c else None
      | [] => None
      end
  | Cls p =>
      match s with
      | x :: s' => if p x then k s' c else None
      | [] => None
      end
  | Seq r1 r2 => rmatch r1 s c (fun s1 c1 => rmatch r2 s1 c1 k)
  | Alt r1 r2 =>
      match rmatch r1 s c k with
      | Some x => Some x
      | None => rmatch r2 s c k
      end
  | Opt r1 =>
      match rmatch r1 s c k with
      | Some x => Some x
      | None => k s c
      end
  | Star r1 => greedy_loop (rmatch r1) k (length s) s c
  | LazyStar r1 => lazy_loop (rmatch r1) k (length s) s c
  | Group i r1 =>
      rmatch r1 s c
        (fun s1 c1 => k s1 (set_cap i (firstn (length s - length s1) s) c1))
  end.

(** The result of [s.match(r)] for a regex anchored by [^]: the matched
    text [m[0]] and the capture groups. *)
Record Match := mkMatch { m0 : ustring; group : caps }.

Definition exec (r : regex) (s : ustring) : option Match :=
  rmatch r s no_caps
    (fun s' c => Some (mkMatch (firstn (length s - length s') s) c)).

(** const tagRegexp (tokenizer.ts 3): anchored at the start; [<], an
    optional [/] or [!], group 1 = a word character followed by word
    characters or hyphens, then any number of attributes (group 2 =
    white space, a word, and optionally an equals sign between optional
    white space and a double-quoted, single-quoted or unquoted value),
    optional white space and [>].  Groups 3 and 4 are never read by the
    tokenizer and are not recorded. *)
Definition tagRegexp : regex :=
  Seq (Chr c_lt)
  (Seq (Opt (Cls (fun c => N.eqb c c_slash || N.eqb c c_bang)))
  (Seq (Group 1 (Seq (Cls is_w)
                     (Star (Cls (fun c => is_w c || N.eqb c c_minus)))))
  (Seq (Star (Group 2
          (Seq (Plus (Cls is_s))
          (Seq (Plus (Cls is_w))
               (Opt (Seq (Star (Cls is_s))
                    (Seq (Chr c_eq)
                    (Seq (Star (Cls is_s))
                         (Alt (Seq (Chr c_dquote)
                              (Seq (Star (Cls (fun c => negb (N.eqb c c_dquote))))
                                   (Chr c_dquote)))
                         (Alt (Seq (Chr c_squote)
                              (Seq (Star (Cls (fun c => negb (N.eqb c c_squote))))
                                   (Chr c_squote)))
                              (Plus (Cls (fun c =>
                                 negb (N.eqb c c_gt || N.eqb c c_lt
                                       || N.eqb c c_dquote || N.eqb c c_squote
                                       || N.eqb c c_eq || N.eqb c c_tick))))))))))))))
  (Seq (Star (Cls is_s)) (Chr c_gt))))).

(** const commentRegexp (tokenizer.ts 4): anchored; [<!--], the shortest
    run of arbitrary characters, [-->]. *)
Definition commentRegexp : regex :=
  Seq (Lit (lit "<!--"))
    (Seq (LazyStar (Cls (fun c => is_w c || negb (is_w c))))
         (Lit (lit "-->"))).

(** A character of an identifier: a word character or a hyphen. *)
Definition id_char (c : char) : bool := is_w c || N.eqb c c_minus.

(** const idRegexp (tokenizer.ts 5): anchored; [[id=], a double quote,
    group 1 = one or more word characters or hyphens, a double quote,
    []] and a space. *)
Definition idRegexp : regex :=
  Seq (Lit (lit "[id=" ++ [c_dquote]))
    (Seq (Group 1 (Plus (Cls id_char)))
         (Seq (Chr c_dquote) (Seq (Chr c_rbracket) (Chr c_space)))).

(** [const opaqueTags = new Set([...])] *)
Definition opaqueTags : list ustring :=
  [lit "emu-grammar"; lit "emu-production"; lit "pre"; lit "code";
   lit "script"; lit "style"].

Definition opaqueTags_has (o : option ustring) : bool :=
  match o with
  | Some n => existsb (ustring_eqb n) opaqueTags
  | None => false
  end.


(** ** Tokens (node-types: Position, Location, Token, IdToken) *)

Inductive TokenName : Type :=
| EOF | whitespace | ol | ul | tag | opaqueTag | comment
| star | underscore | tick | pipe | tilde
| linebreak | parabreak | text | id.

Definition TokenName_eqb (a b : TokenName) : bool :=
  match a, b with
  | EOF, EOF | whitespace, whitespace | ol, ol | ul, ul | tag, tag
  | opaqueTag, opaqueTag | comment, comment | star, star
  | underscore, underscore | tick, tick | pipe, pipe | tilde, tilde
  | linebreak, linebreak | parabreak, parabreak | text, text
  | id, id => true
  | _, _ => false
  end.

(** The [name] field as a string. *)
Definition TokenName_str (n : TokenName) : ustring :=
  match n with
  | EOF => lit "EOF" | whitespace => lit "whitespace" | ol => lit "ol"
  | ul => lit "ul" | tag => lit "tag" | opaqueTag => lit "opaqueTag"
  | comment => lit "comment" | star => lit "star"
  | underscore => lit "underscore" | tick => lit "tick" | pipe => lit "pipe"
  | tilde => lit "tilde" | linebreak => lit "linebreak"
  | parabreak => lit "parabreak" | text => lit "text" | id => lit "id"
  end.

Record Position : Type :=
  mkPosition { offset : nat; p_line : nat; p_column : nat }.

Record Location : Type := mkLocation { start : Position; end_ : Position }.

(** A token before [locate] has given it a location.  The object has a
    [contents] field, except the EOF token (which has [done]) and the id
    token (which has [value]). *)
Record Unlocated : Type :=
  mkUnlocated { name : TokenName;
                contents : option ustring;
                value : option ustring;
                done : bool }.

Record Token : Type := mkToken { tok : Unlocated; location : Location }.

Definition tok_name (t : Token) : TokenName := name (tok t).
Definition tok_contents (t : Token) : option ustring := contents (tok t).

(** [{ name: n, contents: s }] *)
Definition Tk (n : TokenName) (s : ustring) : Unlocated :=
  mkUnlocated n (Some s) None false.

(** [{ name: 'EOF', done: true }] *)
Definition TkEOF : Unlocated := mkUnlocated EOF None None true.

(** ** Exceptions *)

Inductive Exception : Type :=
| SyntaxError (message : ustring) (e_offset e_line e_column : nat)
| TypeError.

Inductive result (A : Type) : Type :=
| Ok (a : A)
| Throw (e : Exception).
Arguments Ok {A} a.
Arguments Throw {A} e.

Definition bind (A B : Type) (m : result A) (f : A -> result B) : result B :=
  match m with
  | Ok a => f a
  | Throw e => Throw e
  end.

Notation "'let*' x ':=' m 'in' f" := (bind m (fun x => f))
  (at level 10, x name, m at level 200, f at level 200).

(** ** The tokenizer object *)

Record Tokenizer : Type :=
  mkTokenizer { str : ustring;
                _eof : bool;
                pos : nat;
                queue : list Token;
                _newline : bool;
                _lookahead : list Token;
                previous : option Token;
                line : nat;
                column : nat }.

(** constructor (tokenizer.ts 21-32) *)
Definition new_Tokenizer (s : ustring) : Tokenizer :=
  {| str := s; _eof := false; pos := 0; line := 1; column := 1;
     queue := []; _newline := true; _lookahead := []; previous := None |}.

Definition set_pos (t : Tokenizer) (p : nat) : Tokenizer :=
  {| str := str t; _eof := _eof t; pos := p; queue := queue t;
     _newline := _newline t; _lookahead := _lookahead t;
     previous := previous t; line := line t; column := column t |}.

Definition set_eof (t : Tokenizer) (b : bool) : Tokenizer :=
  {| str := str t; _eof := b; pos := pos t; queue := queue t;
     _newline := _newline t; _lookahead := _lookahead t;
     previous := previous t; line := line t; column := column t |}.

Definition set_queue (t : Tokenizer) (q : list Token) : Tokenizer :=
  {| str := str t; _eof := _eof t; pos := pos t; queue := q;
     _newline := _newline t; _lookahead := _lookahead t;
     previous := previous t; line := line t; column := column t |}.

Definition set_newline (t : Tokenizer) (b : bool) : Tokenizer :=
  {| str := str t; _eof := _eof t; pos := pos t; queue := queue t;
     _newline := b; _lookahead := _lookahead t;
     previous := previous t; line := line t; column := column t |}.

Definition set_lookahead (t : Tokenizer) (l : list Token) : Tokenizer :=
  {| str := str t; _eof := _eof t; pos := pos t; queue := queue t;
     _newline := _newline t; _lookahead := l;
     previous := previous t; line := line t; column := column t |}.

Definition set_previous (t : Tokenizer) (p : option Token) : Tokenizer :=
  {| str := str t; _eof := _eof t; pos := pos t; queue := queue t;
     _newline := _newline t; _lookahead := _lookahead t;
     previous := p; line := line t; column := column t |}.

Definition set_line_column (t : Tokenizer) (l c : nat) : Tokenizer :=
  {| str := str t; _eof := _eof t; pos := pos t; queue := queue t;
     _newline := _newline t; _lookahead := _lookahead t;
     previous := previous t; line := l; column := c |}.

(** [this.str[this.pos + k]] *)
Definition chr_at (t : Tokenizer) (k : nat) : option char :=
  nth_error (str t) (pos t + k).

(** [this.str.slice(this.pos)] *)
Definition rest (t : Tokenizer) : ustring := slice_from (str t) (pos t).

(** getLocation (tokenizer.ts 354-360) *)
Definition getLocation (t : Tokenizer) : Position :=
  {| offset := pos t; p_line := line t; p_column := column t |}.

(** locate (tokenizer.ts 412-429) *)
Definition locate (t : Tokenizer) (u : Unlocated) (startPos : Position)
  : Token * Tokenizer :=
  let t1 :=
    match name u with
    | linebreak => set_line_column t (S (line t)) 1
    | parabreak =>
        let size := match contents u with
                    | Some c => length c
                    | None => 0
                    end in
        set_line_column t (line t + size) 1
    | _ =>
        let width := pos t - offset startPos in
        set_line_column t (line t) (column t + width)
    end in
  (mkToken u {| start := startPos; end_ := getLocation t1 |}, t1).

(** enqueueLookahead (tokenizer.ts 362-365) *)
Definition enqueueLookahead (t : Tokenizer) (u : Unlocated) (p : Position)
  : Tokenizer :=
  let (tk, t1) := locate t u p in
  set_lookahead t1 (_lookahead t1 ++ [tk]).

(** enqueue (tokenizer.ts 367-380) *)
Definition enqueue (t : Tokenizer) (u : Unlocated) (p : Position)
  : Tokenizer :=
  let (tk, t1) := locate t u p in
  let t2 := set_queue t1 (queue t1 ++ [tk]) in
  match _lookahead t2 with
  | [] => t2
  | _ => set_lookahead (set_queue t2 (queue t2 ++ _lookahead t2)) []
  end.

(** dequeue (tokenizer.ts 382-384) *)
Definition dequeue (t : Tokenizer) : option Token * Tokenizer :=
  (hd_error (queue t), set_queue t (tl (queue t))).

(** raise (tokenizer.ts 439-448) *)
Definition raise (A : Type) (message : ustring) (p : Position) : result A :=
  Throw (SyntaxError message (offset p) (p_line p) (p_column p)).

(** ** Scanning *)

(** scanDigits (tokenizer.ts 34-42): the loop advances [pos] over the
    longest run of digits. *)
Definition scanDigits (t : Tokenizer) : ustring * Tokenizer :=
  let startPos := pos t in
  let t1 := set_pos t (pos t + run_length is_d (rest t)) in
  (slice (str t1) startPos (pos t1), t1).

(** scanWhitespace (tokenizer.ts 44-52) *)
Definition scanWhitespace (t : Tokenizer) : ustring * Tokenizer :=
  let startPos := pos t in
  let t1 := set_pos t (pos t + run_length isWhitespace (rest t)) in
  (slice (str t1) startPos (pos t1), t1).

(** scanEscape (tokenizer.ts 54-69) *)
Definition scanEscape (t : Tokenizer) : ustring * Tokenizer :=
  let t1 := set_pos t (S (pos t)) in
  if pos t1 =? length (str t1) then ([c_bslash], t1)
  else
    match chr_at t1 0 with
    | Some chr =>
        let t2 := set_pos t1 (S (pos t1)) in
        if isFormat chr || N.eqb chr c_bslash then ([chr], t2)
        else ([c_bslash; chr], t2)
    | None =>
        (* [chr] is undefined: not a format character *)
        (c_bslash :: lit "undefined", set_pos t1 (S (pos t1)))
    end.

(** tryScanTag (tokenizer.ts 147-170) *)
Definition tryScanTag (t : Tokenizer) : option Match * Tokenizer :=
  if negb (is_chr c_lt (chr_at t 0)) then (None, t)
  else if (pos t + 1 <? length (str t))
          && negb (is_chr c_slash (chr_at t 1))
          && negb (is_chr c_bang (chr_at t 1))
          && negb (match chr_at t 1 with Some c => is_w c | None => false end)
  then (None, t)
  else
    match exec tagRegexp (rest t) with
    | None => (None, t)
    | Some m => (Some m, set_pos t (pos t + length (m0 m)))
    end.

(** tryScanComment (tokenizer.ts 172-181) *)
Definition tryScanComment (t : Tokenizer) : option ustring * Tokenizer :=
  match exec commentRegexp (rest t) with
  | None => (None, t)
  | Some m => (Some (m0 m), set_pos t (pos t + length (m0 m)))
  end.

(** [tag[2] !== '/'] *)
Definition group2_not_slash (m : Match) : bool :=
  match group m 2 with
  | Some g => negb (ustring_eqb g [c_slash])
  | None => true
  end.

(** [tag[1] === endTag && tag[0][1] === '/'] *)
Definition is_end_tag (endTag : option ustring) (m : Match) : bool :=
  match group m 1, endTag with
  | Some n, Some e => ustring_eqb n e
  | None, None => true
  | _, _ => false
  end && is_chr c_slash (nth_error (m0 m) 1).

(** scanToEndTag (tokenizer.ts 129-145); every iteration advances [pos],
    so [length str - pos] iterations are enough. *)
Fixpoint scanToEndTag_loop (fuel : nat) (endTag : option ustring)
    (t : Tokenizer) : Tokenizer :=
  match fuel with
  | 0 => t
  | S fuel' =>
      if pos t <? length (str t) then
        match tryScanTag t with
        | (Some m, t1) =>
            if is_end_tag endTag m then t1
            else scanToEndTag_loop fuel' endTag t1
        | (None, t1) => scanToEndTag_loop fuel' endTag (set_pos t1 (S (pos t1)))
        end
      else t
  end.

Definition scanToEndTag (endTag : option ustring) (t : Tokenizer)
  : ustring * Tokenizer :=
  let start := pos t in
  let t1 := scanToEndTag_loop (length (str t) - pos t) endTag t in
  (slice (str t1) start (pos t1), t1).

(** scanChars (tokenizer.ts 71-113); every iteration that continues
    advances [pos], so [length str - pos] iterations are enough. *)
Fixpoint scanChars_loop (fuel : nat) (t : Tokenizer) (out : ustring)
  : ustring * Tokenizer :=
  match fuel with
  | 0 => (out, t)
  | S fuel' =>
      match chr_at t 0 with
      | None => (out, t)
      | Some chr =>
          let start := getLocation t in
          if N.eqb chr c_bslash then
            let (e, t1) := scanEscape t in
            scanChars_loop fuel' t1 (out ++ e)
          else if isChars chr then
            scanChars_loop fuel' (set_pos t (S (pos t))) (out ++ [chr])
          else if N.eqb chr c_lt then
            match tryScanTag t with
            | (Some tg, t1) =>
                if opaqueTags_has (group tg 1) && group2_not_slash tg then
                  let (rst, t2) := scanToEndTag (group tg 1) t1 in
                  (out, enqueueLookahead t2 (Tk opaqueTag (m0 tg ++ rst)) start)
                else
                  (out, enqueueLookahead t1 (Tk tag (m0 tg)) start)
            | (None, t1) =>
                match tryScanComment t1 with
                | (Some cm, t2) =>
                    (out, enqueueLookahead t2 (Tk comment cm) start)
                | (None, t2) =>
                    scanChars_loop fuel' (set_pos t2 (S (pos t2))) (out ++ [chr])
                end
            end
          else (out, t)
      end
  end.

Definition scanChars (t : Tokenizer) : ustring * Tokenizer :=
  scanChars_loop (length (str t) - pos t) t [].

(** scanToEOL (tokenizer.ts 115-127) *)
Definition scanToEOL (t : Tokenizer) : ustring * Tokenizer :=
  let start := pos t in
  let t1 := set_pos t (pos t + run_length (fun c => negb (N.eqb c c_nl)) (rest t)) in
  let t2 := if is_chr c_nl (chr_at t1 0) then set_pos t1 (S (pos t1)) else t1 in
  (slice (str t2) start (pos t2), t2).

(** tryScanId (tokenizer.ts 184-198) *)
Definition tryScanId (t : Tokenizer) : option Token * Tokenizer :=
  match exec idRegexp (rest t) with
  | None => (None, t)
  | Some m =>
      let start := getLocation t in
      let t1 := set_pos t (pos t + length (m0 m)) in
      let (tk, t2) :=
        locate t1 (mkUnlocated id None (group m 1) false) start in
      (Some tk, t2)
  end.

(** The tag branch shared by the three places that recognise a tag:
    [opaqueTags.has(tag[1]) && tag[2] !== '/']. *)
Definition opaque_start (tg : Match) : bool :=
  opaqueTags_has (group tg 1) && group2_not_slash tg.

(** The generic dispatch of matchToken (tokenizer.ts 269-350). *)
Definition dispatch (t : Tokenizer) : result Tokenizer :=
  let start := getLocation t in
  match chr_at t 0 with
  | Some chr =>
      if N.eqb chr c_star then
        Ok (enqueue (set_pos t (S (pos t))) (Tk star [chr]) start)
      else if N.eqb chr c_underscore then
        Ok (enqueue (set_pos t (S (pos t))) (Tk underscore [chr]) start)
      else if N.eqb chr c_tick then
        Ok (enqueue (set_pos t (S (pos t))) (Tk tick [chr]) start)
      else if N.eqb chr c_pipe then
        Ok (enqueue (set_pos t (S (pos t))) (Tk pipe [chr]) start)
      else if N.eqb chr c_tilde then
        Ok (enqueue (set_pos t (S (pos t))) (Tk tilde [chr]) start)
      else if N.eqb chr c_nl then
        let t1 := set_newline t true in
        let p := pos t1 in
        let nextPos :=
          S p + run_length (fun c => N.eqb c c_nl) (slice_from (str t1) (S p)) in
        let t2 := set_pos t1 nextPos in
        if nextPos =? S p then Ok (enqueue t2 (Tk linebreak [c_nl]) start)
        else Ok (enqueue t2 (Tk parabreak (slice (str t2) p nextPos)) start)
      else if isWhitespace chr then
        let (ws, t1) := scanWhitespace t in
        Ok (enqueue t1 (Tk whitespace ws) start)
      else if isChars chr then
        let (cs, t1) := scanChars t in
        Ok (enqueue t1 (Tk text cs) start)
      else if N.eqb chr c_lt then
        let fallback (t0 : Tokenizer) :=
          let (cs, t1) := scanChars t0 in
          Ok (enqueue t1 (Tk text cs) start) in
        if is_chr c_bang (chr_at t 1) && is_chr c_minus (chr_at t 2)
           && is_chr c_minus (chr_at t 3)
        then
          match tryScanComment t with
          | (Some cm, t1) => Ok (enqueue t1 (Tk comment cm) start)
          | (None, t1) => fallback t1
          end
        else
          match tryScanTag t with
          | (Some tg, t1) =>
              if opaque_start tg then
                let (rst, t2) := scanToEndTag (group tg 1) t1 in
                Ok (enqueue t2 (Tk opaqueTag (m0 tg ++ rst)) start)
              else Ok (enqueue t1 (Tk tag (m0 tg)) start)
          | (None, t1) => fallback t1
          end
      else
        raise _ (lit "Unexpected token " ++ [chr]) start
  | None =>
      (* [chr] is undefined: no case of the switch, not white space, and
         [isChars(undefined)] holds *)
      let (cs, t1) := scanChars t in
      Ok (enqueue t1 (Tk text cs) start)
  end.

(** The line-start branch of matchToken (tokenizer.ts 211-267): [inl]
    when the branch returned, [inr] when control falls through to the
    generic dispatch. *)
Definition line_start (t : Tokenizer) : Tokenizer + Tokenizer :=
  let t0 := set_newline t false in
  let start := getLocation t0 in
  let (ws, t1) := scanWhitespace t0 in
  if length (str t1) <=? pos t1 then
    if 0 <? length ws then inl (enqueue t1 (Tk whitespace ws) start)
    else inr t1
  else if match chr_at t1 0 with Some c => is_d c | None => false end then
    let (digits, t2) := scanDigits t1 in
    if is_chr c_dot (chr_at t2 0) && is_chr c_space (chr_at t2 1) then
      inl (enqueue (set_pos t2 (pos t2 + 2))
             (Tk ol (ws ++ digits ++ [c_dot; c_space])) start)
    else
      let t3 := if 0 <? length ws
                then enqueue t2 (Tk whitespace ws) start else t2 in
      let (cs, t4) := scanChars t3 in
      inl (enqueue t4 (Tk text (digits ++ cs)) start)
  else if is_chr c_star (chr_at t1 0) && is_chr c_space (chr_at t1 1) then
    inl (enqueue (set_pos t1 (pos t1 + 2))
           (Tk ul (ws ++ [c_star; c_space])) start)
  else if is_chr c_lt (chr_at t1 0) then
    match tryScanTag t1 with
    | (Some tg, t2) =>
        if opaque_start tg then
          let (rst, t3) := scanToEndTag (group tg 1) t2 in
          inl (enqueue t3 (Tk opaqueTag (ws ++ m0 tg ++ rst)) start)
        else
          let t3 := if 0 <? length ws
                    then enqueue t2 (Tk whitespace ws) start else t2 in
          inl (enqueue t3 (Tk tag (m0 tg)) start)
    | (None, t2) =>
        match tryScanComment t2 with
        | (Some cm, t3) => inl (enqueue t3 (Tk comment (ws ++ cm)) start)
        | (None, t3) => inr t3
        end
    end
  else if 0 <? length ws then inl (enqueue t1 (Tk whitespace ws) start)
  else inr t1.

(** matchToken (tokenizer.ts 201-352).  Every path through the body of
    [while (true)] returns or throws, so the body runs once. *)
Definition matchToken (t : Tokenizer) : result Tokenizer :=
  if pos t =? length (str t) then
    let t1 := set_eof t true in
    Ok (enqueue t1 TkEOF (getLocation t1))
  else if _newline t then
    match line_start t with
    | inl t1 => Ok t1
    | inr t1 => dispatch t1
    end
  else dispatch t.

(** peek (tokenizer.ts 386-397).  An iteration of the loop sets [_eof]
    or advances [pos], so [length str - pos + 1] iterations are
    enough. *)
Fixpoint peek_loop (fuel : nat) (dist : nat) (t : Tokenizer)
  : result Tokenizer :=
  match fuel with
  | 0 => Ok t
  | S fuel' =>
      if negb (_eof t) && (length (queue t) <? dist) then
        let* t1 := matchToken t in peek_loop fuel' dist t1
      else Ok t
  end.

Definition peek (dist : nat) (t : Tokenizer)
  : result (option Token * Tokenizer) :=
  let* t1 := peek_loop (S (length (str t) - pos t)) dist t in
  if length (queue t1) <? dist then
    Ok (nth_error (queue t1) (length (queue t1) - 1), t1)
  else
    Ok (match dist with
        | 0 => None
        | S d => nth_error (queue t1) d
        end, t1).

(** next (tokenizer.ts 399-406); reading [name] of [undefined] throws a
    TypeError. *)
Definition next (t : Tokenizer) : result (Token * Tokenizer) :=
  let* r := peek 1 t in
  let (p, t1) := r in
  let t2 := set_previous t1 p in
  match p with
  | None => Throw TypeError
  | Some tk =>
      if negb (TokenName_eqb (tok_name tk) EOF)
      then Ok (tk, snd (dequeue t2))
      else Ok (tk, t2)
  end.

(** expect (tokenizer.ts 431-437) *)
Definition expect (nm : TokenName) (t : Tokenizer) : result Tokenizer :=
  let* r := peek 1 t in
  let (p, t1) := r in
  match p with
  | None => Throw TypeError
  | Some lookahead =>
      if TokenName_eqb (tok_name lookahead) nm then Ok t1
      else raise _ (lit "Unexpected token " ++ TokenName_str (tok_name lookahead)
                    ++ lit "; expected " ++ TokenName_str nm)
                 (start (location lookahead))
  end.

(** The first [n] results of [next()]. *)
Fixpoint nexts (n : nat) (t : Tokenizer) : result (list Token) :=
  match n with
  | 0 => Ok []
  | S n' =>
      let* r := next t in
      let* l := nexts n' (snd r) in
      Ok (fst r :: l)
  end.


(** The token sequence of an input: the first [n] results of [next()]
    on a fresh tokenizer, as (name, contents) pairs. *)
Definition token_view (tk : Token) : TokenName * option ustring :=
  (tok_name tk, tok_contents tk).

Definition tokens (n : nat) (s : ustring) : option (list (TokenName * option ustring)) :=
  match nexts n (new_Tokenizer s) with
  | Ok l => Some (map token_view l)
  | Throw _ => None
  end.

(** Offsets of the locations of the first [n] tokens. *)
Definition spans (n : nat) (s : ustring) : option (list (nat * nat)) :=
  match nexts n (new_Tokenizer s) with
  | Ok l => Some (map (fun tk => (offset (start (location tk)),
                                  offset (end_ (location tk)))) l)
  | Throw _ => None
  end.

(** * Vocabulary of the properties *)

(** [Matches r s c s' c']: [r] matches a prefix of [s], leaving [s'],
    and turns the captures [c] into [c']. *)
Inductive Matches : regex -> ustring -> caps -> ustring -> caps -> Prop :=
| M_Eps s c : Matches Eps s c s c
| M_Chr a s c : Matches (Chr a) (a :: s) c s c
| M_Cls (p : char -> bool) x s c :
    p x = true -> Matches (Cls p) (x :: s) c s c
| M_Seq r1 r2 s c s1 c1 s2 c2 :
    Matches r1 s c s1 c1 -> Matches r2 s1 c1 s2 c2 ->
    Matches (Seq r1 r2) s c s2 c2
| M_AltL r1 r2 s c s1 c1 :
    Matches r1 s c s1 c1 -> Matches (Alt r1 r2) s c s1 c1
| M_AltR r1 r2 s c s1 c1 :
    Matches r2 s c s1 c1 -> Matches (Alt r1 r2) s c s1 c1
| M_OptS r s c s1 c1 :
    Matches r s c s1 c1 -> Matches (Opt r) s c s1 c1
| M_OptN r s c : Matches (Opt r) s c s c
| M_Star0 r s c : Matches (Star r) s c s c
| M_StarS r s c s1 c1 s2 c2 :
    Matches r s c s1 c1 -> length s1 < length s ->
    Matches (Star r) s1 c1 s2 c2 -> Matches (Star r) s c s2 c2
| M_Lazy0 r s c : Matches (LazyStar r) s c s c
| M_LazyS r s c s1 c1 s2 c2 :
    Matches r s c s1 c1 -> length s1 < length s ->
    Matches (LazyStar r) s1 c1 s2 c2 -> Matches (LazyStar r) s c s2 c2
| M_Group i r s c s1 c1 :
    Matches r s c s1 c1 ->
    Matches (Group i r) s c s1
      (set_cap i (firstn (length s - length s1) s) c1).

(** The first character a regex requires, when its shape fixes one. *)
Fixpoint first_chr (r : regex) : option char :=
  match r with
  | Chr a => Some a
  | Seq r1 _ => first_chr r1
  | Group _ r1 => first_chr r1
  | _ => None
  end.

(** A regex without capture groups leaves the captures alone. *)
Fixpoint no_group (r : regex) : bool :=
  match r with
  | Eps | Chr _ | Cls _ => true
  | Seq r1 r2 | Alt r1 r2 => no_group r1 && no_group r2
  | Opt r1 | Star r1 | LazyStar r1 => no_group r1
  | Group _ _ => false
  end.

(** What the scanners leave alone. *)
Definition keeps (t t1 : Tokenizer) : Prop :=
  str t1 = str t /\ _eof t1 = _eof t /\ previous t1 = previous t
  /\ _newline t1 = _newline t /\ queue t1 = queue t.

(** A token queued by [scanChars] as lookahead: a tag, an opaque block or
    a comment that starts at or after [a] and ends at [b]. *)
Definition la_ok (a b : nat) (x : Token) : Prop :=
  (tok_name x = tag \/ tok_name x = opaqueTag \/ tok_name x = comment)
  /\ a <= offset (start (location x))
  /\ offset (start (location x)) < offset (end_ (location x))
  /\ offset (end_ (location x)) = b.

(** The first iteration of [scanChars] consumes a character. *)
Definition consumes_first (t : Tokenizer) : Prop :=
  match chr_at t 0 with
  | Some c =>
      isChars c = true
      \/ (c = c_lt /\ fst (tryScanTag t) = None
          /\ fst (tryScanComment t) = None)
  | None => False
  end.

Definition scanChars_post (fuel : nat) (t t1 : Tokenizer) : Prop :=
  exists la,
    keeps t t1 /\ pos t <= pos t1 <= length (str t)
    /\ _lookahead t1 = _lookahead t ++ la
    /\ length la <= pos t1 - pos t
    /\ Forall (la_ok (pos t) (pos t1)) la
    /\ (0 < fuel -> consumes_first t -> S (length la) <= pos t1 - pos t).

(** The names of the tokens [matchToken] queues before the end of the
    input, and of those its generic dispatch queues. *)
Definition proper_name (n : TokenName) : Prop := n <> EOF.

Definition dispatch_name (n : TokenName) : Prop :=
  n <> EOF /\ n <> ol /\ n <> ul.

(** The names of the tokens [scanChars] queues as lookahead. *)
Definition allows_lookahead (N : TokenName -> Prop) : Prop :=
  N tag /\ N opaqueTag /\ N comment.

(** A token, with a name in [N], produced between offsets [a] and [b]. *)
Definition tok_ok (N : TokenName -> Prop) (a b : nat) (x : Token) : Prop :=
  N (tok_name x)
  /\ a <= offset (start (location x))
  /\ offset (start (location x)) <= offset (end_ (location x))
  /\ offset (end_ (location x)) <= b.

(** The state [t1] reached inside a call that started in [t0], after
    the tokens [toks] were queued. *)
Definition mid (N : TokenName -> Prop) (t0 t1 : Tokenizer)
    (toks : list Token) : Prop :=
  str t1 = str t0 /\ _eof t1 = _eof t0 /\ previous t1 = previous t0
  /\ queue t1 = queue t0 ++ toks
  /\ pos t0 <= pos t1 <= length (str t0)
  /\ Forall (tok_ok N (pos t0) (pos t1)) toks.

(** The effect of a call of [matchToken] that does not reach the end of
    the input. *)
Definition step_post (N : TokenName -> Prop) (t t1 : Tokenizer) : Prop :=
  str t1 = str t /\ _eof t1 = _eof t /\ previous t1 = previous t
  /\ _lookahead t1 = []
  /\ pos t < pos t1 <= length (str t)
  /\ exists toks,
      queue t1 = queue t ++ toks
      /\ 1 <= length toks <= pos t1 - pos t
      /\ Forall (tok_ok N (pos t) (pos t1)) toks.

(** The names of the tokens of the generic dispatch, line breaks apart. *)
Definition dispatch_emits : list TokenName :=
  [star; underscore; tick; pipe; tilde; whitespace; text; comment; tag;
   opaqueTag].

(** The names of the tokens of the line-start branch. *)
Definition line_start_emits : list TokenName :=
  [whitespace; ol; ul; text; tag; opaqueTag; comment].

(** The same tokenizer with [q] in front of its queue and another
    [previous]. *)
Definition reframe (q : list Token) (p : option Token) (t : Tokenizer)
  : Tokenizer :=
  {| str := str t; _eof := _eof t; pos := pos t; queue := q ++ queue t;
     _newline := _newline t; _lookahead := _lookahead t; previous := p;
     line := line t; column := column t |}.

Definition result_map (A B : Type) (f : A -> B) (r : result A) : result B :=
  match r with
  | Ok a => Ok (f a)
  | Throw e => Throw e
  end.

Definition sum_map (A B : Type) (f : A -> B) (r : A + A) : B + B :=
  match r with
  | inl a => inl (f a)
  | inr a => inr (f a)
  end.

(** Invariant of the tokenizer between calls of its methods. *)
Definition wf (t : Tokenizer) : Prop :=
  pos t <= length (str t) /\ _lookahead t = []
  /\ (_eof t = false -> Forall (fun x => tok_name x <> EOF) (queue t))
  /\ (_eof t = true ->
      exists q e, queue t = q ++ [e] /\ tok_name e = EOF
                  /\ Forall (fun x => tok_name x <> EOF) q).

(** The effect of the call of [matchToken] at the end of the input. *)
Definition eof_post (t t1 : Tokenizer) : Prop :=
  str t1 = str t /\ _eof t1 = true /\ previous t1 = previous t
  /\ pos t1 = pos t /\ _lookahead t1 = []
  /\ exists e, queue t1 = queue t ++ [e] /\ tok e = TkEOF
               /\ offset (start (location e)) = pos t
               /\ offset (end_ (location e)) = pos t.

(** Run [matchToken] until the end of the input has been queued. *)
Fixpoint drain (fuel : nat) (t : Tokenizer) : Tokenizer :=
  match fuel with
  | 0 => t
  | S fuel' =>
      if _eof t then t
      else match matchToken t with
           | Ok t1 => drain fuel' t1
           | Throw _ => t
           end
  end.

(** The number of calls of [matchToken] that are enough. *)
Definition calls_bound (t : Tokenizer) : nat :=
  if _eof t then 0 else S (length (str t) - pos t).

(** Everything the tokenizer will deliver: the queue once the whole
    input has been scanned. *)
Definition stream (t : Tokenizer) : list Token :=
  queue (drain (calls_bound t) t).

(** The first [n] deliveries from a stream: its tokens in order, the
    last one (the EOF token) again and again once it is reached. *)
Fixpoint deliver (n : nat) (l : list Token) : list Token :=
  match n with
  | 0 => []
  | S n' =>
      match l with
      | [] => []
      | [x] => x :: deliver n' [x]
      | x :: l' => x :: deliver n' l'
      end
  end.

(** The stream is no longer than what remains of the input. *)
Definition potential (t : Tokenizer) : nat :=
  length (queue t) + (length (str t) - pos t) + (if _eof t then 0 else 1).

(** A sequence of calls of [peek] and [next]. *)
Inductive call : Type :=
| Peek (dist : nat)
| Next.

(** Run the calls; the result is what the calls of [next] returned, in
    order, and the tokenizer afterwards. *)
Fixpoint run (cs : list call) (t : Tokenizer)
  : result (list Token * Tokenizer) :=
  match cs with
  | [] => Ok ([], t)
  | Peek dist :: cs' =>
      let* r := peek dist t in
      run cs' (snd r)
  | Next :: cs' =>
      let* r := next t in
      let* r' := run cs' (snd r) in
      Ok (fst r :: fst r', snd r')
  end.

Fixpoint count_next (cs : list call) : nat :=
  match cs with
  | [] => 0
  | Peek _ :: cs' => count_next cs'
  | Next :: cs' => S (count_next cs')
  end.

Definition positive_dist (c : call) : bool :=
  match c with
  | Peek dist => 1 <=? dist
  | Next => true
  end.

(** The characters after which [scanEscape] drops the backslash. *)
Definition escapable : list char :=
  [c_star; c_underscore; c_tick; c_lt; c_pipe; c_tilde; c_bslash].

(** The five delimiter characters and the backslash. *)
Definition delimiters_and_backslash : list char :=
  [c_star; c_underscore; c_tick; c_pipe; c_tilde; c_bslash].

(** The contents of the first [n] tokens of an input, concatenated (the
    EOF token has none). *)
Definition contents_concat (n : nat) (s : ustring) : option ustring :=
  match nexts n (new_Tokenizer s) with
  | Ok l => Some (concat (map (fun tk => match tok_contents tk with
                                         | Some c => c
                                         | None => []
                                         end) l))
  | Throw _ => None
  end.

(** A character [scanChars] copies as it is. *)
Definition plain (c : char) : bool := isChars c && negb (N.eqb c c_bslash).

Definition not_marker (x : Token) : Prop :=
  tok_name x <> ol /\ tok_name x <> ul.

Definition is_break (x : Token) : Prop :=
  tok_name x = linebreak \/ tok_name x = parabreak.

Definition no_break (nm : TokenName) : Prop :=
  nm <> EOF /\ nm <> linebreak /\ nm <> parabreak.

(** The text after the digits is a dot and a space. *)
Definition marker_tail (rst : ustring) : bool :=
  is_chr c_dot (nth_error rst 0) && is_chr c_space (nth_error rst 1).

(** The first character, if any, fails [p]. *)
Definition stops (p : char -> bool) (s : ustring) : Prop :=
  match s with
  | x :: _ => p x = false
  | [] => True
  end.

Definition lookahead_name (x : Token) : Prop :=
  tok_name x = tag \/ tok_name x = opaqueTag \/ tok_name x = comment.

(** The text of an id attribute with identifier [w], up to and with
    the space that closes it. *)
Definition id_text (w : ustring) : ustring :=
  lit "[id=" ++ [c_dquote] ++ w ++ [c_dquote; c_rbracket; c_space].

Definition no_lt (s : ustring) : bool :=
  forallb (fun c => negb (N.eqb c c_lt)) s.

(** A tag name: a word character followed by word characters and
    hyphens. *)
Definition tag_name (w : ustring) : bool :=
  match w with
  | w0 :: w' => is_w w0 && forallb id_char w'
  | [] => false
  end.

(** The text of the plain end tag of element [w]. *)
Definition end_tag_text (w : ustring) : ustring :=
  [c_lt; c_slash] ++ w ++ [c_gt].

(** The tag that [tryScanTag] finds at the position of [t], if any. *)
Definition the_tag (t : Tokenizer) : Match :=
  match fst (tryScanTag t) with
  | Some m => m
  | None => mkMatch [] no_caps
  end.

Definition start_offset (tk : Token) : nat := offset (start (location tk)).

Definition end_offset (tk : Token) : nat := offset (end_ (location tk)).

(** The length of the contents of a token; the EOF token has none. *)
Definition contents_length (tk : Token) : nat :=
  match tok_contents tk with
  | Some c => length c
  | None => 0
  end.

(** The tokens of [l] tile the offsets from [a] to [b]: the first
    starts at [a], each one starts where the one before it ends, and the
    last ends at [b]. *)
Fixpoint chain (a : nat) (l : list Token) (b : nat) : Prop :=
  match l with
  | [] => a = b
  | x :: l' => start_offset x = a /\ chain (end_offset x) l' b
  end.

(** A character at which [scanChars] stops: a delimiter, white space
    or a line feed. *)
Definition separator (c : char) : bool :=
  negb (isChars c) && negb (N.eqb c c_lt).

(** Text without backslash in which [<] stands only at the front or
    directly behind a [separator]. *)
Fixpoint tame (l : ustring) : bool :=
  match l with
  | [] => true
  | c :: l' =>
      negb (N.eqb c c_bslash)
      && match l' with
         | d :: _ => negb (N.eqb d c_lt) || separator c
         | [] => true
         end
      && tame l'
  end.

(** Offset [i] of [s] starts a line. *)
Definition line_start_at (s : ustring) (i : nat) : bool :=
  (i =? 0) || is_chr c_nl (nth_error s (i - 1)).

(** A line [l] whose leading white space, if there is any, is followed
    neither by [<] nor by digits other than those of a list marker. *)
Definition start_ok (l : ustring) : bool :=
  let n := run_length isWhitespace l in
  let l' := skipn n l in
  (n =? 0)
  || match l' with
     | c :: _ =>
         if is_d c then marker_tail (skipn (run_length is_d l') l')
         else negb (N.eqb c c_lt)
     | [] => true
     end.

(** [tame] inputs every line of which is [start_ok]. *)
Definition clean (s : ustring) : bool :=
  tame s
  && forallb (fun i => negb (line_start_at s i) || start_ok (skipn i s))
       (seq 0 (length s)).

(** One call of [matchToken] queued the one token [tk], located from
    the position before the call to the position after it, with the
    source text between the two as contents. *)
Definition exact_token (t t1 : Tokenizer) (tk : Token) : Prop :=
  queue t1 = queue t ++ [tk]
  /\ start_offset tk = pos t
  /\ end_offset tk = pos t1
  /\ tok_contents tk = Some (slice (str t) (pos t) (pos t1)).

Definition ordered (tk : Token) : Prop := start_offset tk <= end_offset tk.

Definition exact_span (tk : Token) : Prop :=
  end_offset tk - start_offset tk = contents_length tk.

(** The contents of the tokens of [l], concatenated (the EOF token has
    none). *)
Definition contents_of (l : list Token) : ustring :=
  concat (map (fun tk => match tok_contents tk with
                         | Some c => c
                         | None => []
                         end) l).

(** The state while a [clean] input is scanned. *)
Definition tiled (t : Tokenizer) : Prop :=
  clean (str t) = true
  /\ (_newline t = true -> line_start_at (str t) (pos t) = true)
  /\ (_eof t = true -> pos t = length (str t))
  /\ chain 0 (queue t) (pos t)
  /\ Forall exact_span (queue t)
  /\ contents_of (queue t) = firstn (pos t) (str t).

(** The positions the raw scan of [scanToEndTag] for the end tag [e]
    goes through from the position of [t]: it moves on by one character
    where [tryScanTag] finds no tag, and over the tag where it finds one
    that is not an end tag of [e]. *)
Inductive scans (e : option ustring) (t : Tokenizer) : nat -> Prop :=
| scans_start : scans e t (pos t)
| scans_char q :
    scans e t q -> q < length (str t) ->
    fst (tryScanTag (set_pos t q)) = None ->
    scans e t (S q)
| scans_tag q m' :
    scans e t q -> q < length (str t) ->
    fst (tryScanTag (set_pos t q)) = Some m' ->
    is_end_tag e m' = false ->
    scans e t (q + length (m0 m')).

(** [s.startsWith(p)] *)
Fixpoint starts_with (p s : ustring) : bool :=
  match p, s with
  | [], _ => true
  | a :: p', x :: s' => N.eqb x a && starts_with p' s'
  | _ :: _, [] => false
  end.

(** The offset in [s] of the first occurrence of the comment closer,
    two hyphens and [>]. *)
Fixpoint find_close (s : ustring) : option nat :=
  match s with
  | [] => None
  | _ :: s' =>
      if starts_with (lit "-->") s then Some 0
      else option_map S (find_close s')
  end.

(** The token name of a delimiter character. *)
Definition delimiter_name (c : char) : option TokenName :=
  if N.eqb c c_star then Some star
  else if N.eqb c c_underscore then Some underscore
  else if N.eqb c c_tick then Some tick
  else if N.eqb c c_pipe then Some pipe
  else if N.eqb c c_tilde then Some tilde
  else None.

(** The one-character token of a delimiter. *)
Definition delimiter_token (c : char) : Unlocated :=
  Tk (match delimiter_name c with Some n => n | None => text end) [c].

(** [n] calls of [matchToken] in a row. *)
Fixpoint matchTokens (n : nat) (t : Tokenizer) : result Tokenizer :=
  match n with
  | 0 => Ok t
  | S n' => let* t1 := matchToken t in matchTokens n' t1
  end.




(** The number of lines by which [locate] moves on for a token: one
    for a [linebreak], the length of the contents for a [parabreak],
    none for any other token. *)
Definition feeds (x : Token) : nat :=
  match tok_name x with
  | linebreak => 1
  | parabreak => contents_length x
  | _ => 0
  end.

Definition line_feeds (l : list Token) : nat := list_sum (map feeds l).

(** A token other than a line break that starts and ends on line
    [L]. *)
Definition on_line (L : nat) (x : Token) : Prop :=
  p_line (start (location x)) = L /\ p_line (end_ (location x)) = L
  /\ feeds x = 0.

(** The line numbers of the tokens of [l], counted from [a]: a token
    starts on the line on which the one before it ends, and ends
    [feeds] lines further down. *)
Fixpoint lines (a : nat) (l : list Token) : Prop :=
  match l with
  | [] => True
  | x :: l' =>
      p_line (start (location x)) = a
      /\ p_line (end_ (location x)) = a + feeds x
      /\ lines (a + feeds x) l'
  end.

(** What the contents of a token are, by its name. *)
Definition shaped_u (u : Unlocated) : Prop :=
  match name u with
  | EOF => contents u = None
  | star => contents u = Some [c_star]
  | underscore => contents u = Some [c_underscore]
  | tick => contents u = Some [c_tick]
  | pipe => contents u = Some [c_pipe]
  | tilde => contents u = Some [c_tilde]
  | linebreak => contents u = Some [c_nl]
  | parabreak => exists k, contents u = Some (repeat c_nl (S (S k)))
  | whitespace =>
      exists ws, contents u = Some ws /\ ws <> []
                 /\ forallb isWhitespace ws = true
  | ol =>
      exists ws ds,
        contents u = Some (ws ++ ds ++ [c_dot; c_space])
        /\ forallb isWhitespace ws = true
        /\ ds <> [] /\ forallb is_d ds = true
  | ul =>
      exists ws,
        contents u = Some (ws ++ [c_star; c_space])
        /\ forallb isWhitespace ws = true
  | tag => exists tl, contents u = Some (c_lt :: tl)
  | opaqueTag | comment =>
      exists ws tl,
        contents u = Some (ws ++ c_lt :: tl)
        /\ forallb isWhitespace ws = true
  | text => exists c, contents u = Some c /\ c <> []
  | id => False
  end.

Definition shaped (x : Token) : Prop := shaped_u (tok x).

(** What [scanChars] has held back between [t] and [t1]: tokens that
    are no line breaks, on the line of [t]. *)
Definition held (t t1 : Tokenizer) : Prop :=
  line t1 = line t
  /\ exists la,
      _lookahead t1 = _lookahead t ++ la
      /\ Forall (on_line (line t)) la
      /\ Forall shaped la
      /\ (la = [] -> column t1 = column t).

(** The state [t2] reached inside a call that started in [t], after
    the tokens [pre] were queued: neither a line break nor a list
    marker was located. *)
Definition quiet (t t2 : Tokenizer) (pre : list Token) : Prop :=
  str t2 = str t /\ queue t2 = queue t ++ pre /\ line t2 = line t
  /\ Forall (on_line (line t)) (pre ++ _lookahead t2)
  /\ Forall not_marker (pre ++ _lookahead t2)
  /\ Forall shaped (pre ++ _lookahead t2)
  /\ (pre = [] -> _lookahead t2 = [] -> column t2 = column t).

(** Each token of [l] starts at the position, offset, line and column,
    at which the one before it ends; the first one starts at [p]. *)
Fixpoint joined (p : Position) (l : list Token) : Prop :=
  match l with
  | [] => True
  | x :: l' => start (location x) = p /\ joined (end_ (location x)) l'
  end.

(** The end of the last token of [l], or [p] when there is none. *)
Fixpoint last_end (p : Position) (l : list Token) : Position :=
  match l with
  | [] => p
  | x :: l' => last_end (end_ (location x)) l'
  end.

(** The column at the end of a token: 1 after a line break, else the
    column of its start moved on by its span. *)
Definition column_rule (x : Token) : Prop :=
  p_column (end_ (location x))
  = match tok_name x with
    | linebreak | parabreak => 1
    | _ => p_column (start (location x)) + (end_offset x - start_offset x)
    end.

Definition is_marker (x : Token) : bool :=
  match tok_name x with
  | ol | ul => true
  | _ => false
  end.

Definition breaks_line (x : Token) : bool :=
  match tok_name x with
  | linebreak | parabreak => true
  | _ => false
  end.

(** A list marker stands in [l] only directly behind a line break, or
    at the front when [b] holds. *)
Fixpoint markers_lead (b : bool) (l : list Token) : Prop :=
  match l with
  | [] => True
  | x :: l' =>
      (is_marker x = true -> b = true) /\ markers_lead (breaks_line x) l'
  end.

(** Whether the last token of [l] is a line break; [b] when there is
    none. *)
Fixpoint ends_line (b : bool) (l : list Token) : bool :=
  match l with
  | [] => b
  | x :: l' => ends_line (breaks_line x) l'
  end.

(** * Properties *)

(** ** Character classification *)

Lemma isChars_false_cases (chr : char) :
  isChars chr = false ->
  isFormat chr = true \/ chr = c_nl \/ chr = c_space \/ chr = c_tab.
Proof.
  unfold isChars. intros H.
  destruct (isFormat chr); [now left|right].
  simpl in H.
  destruct (N.eqb_spec chr c_nl); [now left|].
  destruct (N.eqb_spec chr c_space); [now right; left|].
  destruct (N.eqb_spec chr c_tab); [now right; right|].
  discriminate.
Qed.

Lemma isFormat_cases (chr : char) :
  isFormat chr = true ->
  chr = c_star \/ chr = c_underscore \/ chr = c_tick \/ chr = c_lt
  \/ chr = c_pipe \/ chr = c_tilde.
Proof.
  unfold isFormat. intros H.
  repeat (apply orb_true_iff in H; destruct H as [H|H]);
    apply N.eqb_eq in H; tauto.
Qed.

(** Every character falls under one rule of the generic dispatch. *)
Lemma dispatch_exhaustive (chr : char) :
  chr = c_star \/ chr = c_underscore \/ chr = c_tick \/ chr = c_pipe
  \/ chr = c_tilde \/ chr = c_nl \/ isWhitespace chr = true
  \/ isChars chr = true \/ chr = c_lt.
Proof.
  destruct (isChars chr) eqn:E; [tauto|].
  apply isChars_false_cases in E.
  destruct E as [E|[E|[E|E]]].
  - apply isFormat_cases in E. tauto.
  - tauto.
  - subst. do 6 right. left. reflexivity.
  - subst. do 6 right. left. reflexivity.
Qed.

Lemma dispatch_ok (t : Tokenizer) : exists t', dispatch t = Ok t'.
Proof.
  unfold dispatch.
  destruct (chr_at t 0) as [chr|].
  2:{ destruct (scanChars t). eauto. }
  destruct (N.eqb_spec chr c_star); [eauto|].
  destruct (N.eqb_spec chr c_underscore); [eauto|].
  destruct (N.eqb_spec chr c_tick); [eauto|].
  destruct (N.eqb_spec chr c_pipe); [eauto|].
  destruct (N.eqb_spec chr c_tilde); [eauto|].
  destruct (N.eqb_spec chr c_nl).
  { match goal with |- context [if ?b then _ else _] => destruct b end; eauto. }
  destruct (isWhitespace chr) eqn:Ew.
  { destruct (scanWhitespace t). eauto. }
  destruct (isChars chr) eqn:Ec.
  { destruct (scanChars t). eauto. }
  destruct (N.eqb_spec chr c_lt).
  { destruct (_ && _).
    - destruct (tryScanComment t) as [[cm|] t1]; [eauto|].
      destruct (scanChars t1). eauto.
    - destruct (tryScanTag t) as [[tg|] t1].
      + destruct (opaque_start tg); [|eauto].
        destruct (scanToEndTag (group tg 1) t1). eauto.
      + destruct (scanChars t1). eauto. }
  exfalso.
  destruct (dispatch_exhaustive chr) as [H|[H|[H|[H|[H|[H|[H|[H|H]]]]]]]];
    congruence.
Qed.

(** C8: [matchToken] returns normally from every tokenizer state, so the
    [raise] in the last branch of the generic dispatch is never
    reached; the reason is that every character is a delimiter, a
    newline, white space, a plain character or [<]. *)
Theorem matchToken_never_raises :
  (forall t : Tokenizer, exists t', matchToken t = Ok t')
  /\ (forall chr : char,
        chr = c_star \/ chr = c_underscore \/ chr = c_tick \/ chr = c_pipe
        \/ chr = c_tilde \/ chr = c_nl \/ isWhitespace chr = true
        \/ isChars chr = true \/ chr = c_lt).
Proof.
  split; [|exact dispatch_exhaustive].
  intros t. unfold matchToken.
  destruct (pos t =? length (str t)); [eauto|].
  destruct (_newline t); [|apply dispatch_ok].
  destruct (line_start t); [eauto|apply dispatch_ok].
Qed.

(** ** The matcher and the declarative reading of a regex *)

#[local] Hint Constructors Matches : core.

(** Whatever the matcher hands to its continuation is a match. *)
Lemma rmatch_sound (A : Type) (r : regex) :
  forall (s : ustring) (c : caps) (k : ustring -> caps -> option A) (x : A),
    rmatch r s c k = Some x ->
    exists s' c', Matches r s c s' c' /\ k s' c' = Some x.
Proof.
  induction r as [|a|p|r1 IH1 r2 IH2|r1 IH1 r2 IH2|r1 IH1|r1 IH1|r1 IH1|i r1 IH1];
    intros s c k x H; simpl in H.
  - eauto.
  - destruct s as [|y s']; [discriminate|].
    destruct (N.eqb_spec y a); [subst; eauto|discriminate].
  - destruct s as [|y s']; [discriminate|].
    destruct (p y) eqn:E; [eauto|discriminate].
  - apply IH1 in H. destruct H as (s1 & c1 & M1 & H).
    apply IH2 in H. destruct H as (s2 & c2 & M2 & H). eauto.
  - destruct (rmatch r1 s c k) eqn:E.
    + inversion H; subst. apply IH1 in E.
      destruct E as (s1 & c1 & M1 & E). eauto.
    + apply IH2 in H. destruct H as (s1 & c1 & M1 & E'). eauto.
  - destruct (rmatch r1 s c k) eqn:E.
    + inversion H; subst. apply IH1 in E.
      destruct E as (s1 & c1 & M1 & E). eauto.
    + eauto.
  - revert H. generalize (length s). intros n. revert s c.
    induction n as [|n IHn]; intros s c H; cbn [greedy_loop] in H.
    + eauto.
    + match type of H with
      | match ?m with _ => _ end = _ => destruct m eqn:E
      end.
      * inversion H; subst. apply IH1 in E.
        destruct E as (s1 & c1 & M1 & E).
        destruct (Nat.ltb_spec (length s1) (length s)); [|discriminate].
        apply IHn in E. destruct E as (s2 & c2 & M2 & E). eauto.
      * eauto.
  - revert H. generalize (length s). intros n. revert s c.
    induction n as [|n IHn]; intros s c H; cbn [lazy_loop] in H.
    + eauto.
    + destruct (k s c) eqn:Ek.
      * inversion H; subst. eauto.
      * apply IH1 in H. destruct H as (s1 & c1 & M1 & E).
        destruct (Nat.ltb_spec (length s1) (length s)); [|discriminate].
        apply IHn in E. destruct E as (s2 & c2 & M2 & E). eauto.
  - apply IH1 in H. destruct H as (s1 & c1 & M1 & H). eauto.
Qed.

(** A match consumes a prefix. *)
Lemma Matches_prefix r s c s' c' :
  Matches r s c s' c' -> exists m, s = m ++ s'.
Proof.
  induction 1;
    repeat match goal with
           | H : exists _, _ |- _ => destruct H
           end; subst.
  all: try (exists []; reflexivity).
  all: try (eexists [_]; reflexivity).
  all: try (eexists; reflexivity).
  all: try (rewrite app_assoc; eexists; reflexivity).
Qed.

Lemma prefix_firstn (m s' : ustring) :
  firstn (length (m ++ s') - length s') (m ++ s') = m.
Proof.
  rewrite length_app, Nat.add_sub.
  rewrite firstn_app, Nat.sub_diag, firstn_all. simpl. apply app_nil_r.
Qed.

(** What [exec] returns: the matched text is a prefix of the subject and
    the regex matches exactly it. *)
Lemma exec_sound (r : regex) (s : ustring) (m : Match) :
  exec r s = Some m ->
  exists s', s = m0 m ++ s' /\ Matches r s no_caps s' (group m).
Proof.
  unfold exec. intros H. apply rmatch_sound in H.
  destruct H as (s' & c' & M & H). inversion H; subst; clear H. simpl.
  destruct (Matches_prefix M) as [pre ->].
  exists s'. rewrite prefix_firstn. auto.
Qed.

Lemma Matches_length r s c s' c' :
  Matches r s c s' c' -> length s' <= length s.
Proof.
  intros M. destruct (Matches_prefix M) as [m ->].
  rewrite length_app. lia.
Qed.

Lemma Matches_first r s c s' c' a :
  Matches r s c s' c' -> first_chr r = Some a ->
  exists tl, s = a :: tl /\ length s' <= length tl.
Proof.
  induction 1; simpl; intros F; try discriminate.
  - inversion F; subst. eauto.
  - destruct (IHMatches1 F) as (tl & -> & L).
    exists tl. split; [reflexivity|].
    apply Matches_length in H0. lia.
  - auto.
Qed.

Lemma exec_first (r : regex) (s : ustring) (m : Match) (a : char) :
  exec r s = Some m -> first_chr r = Some a ->
  exists tl s', m0 m = a :: tl /\ s = m0 m ++ s'.
Proof.
  intros E F. destruct (exec_sound _ _ E) as (s' & Hs & M).
  destruct (Matches_first M F) as (tl & Hs2 & L).
  destruct (m0 m) as [|x tl'] eqn:Em.
  - simpl in Hs. subst s'. rewrite Hs2 in L. simpl in L. lia.
  - exists tl', s'. rewrite Hs in Hs2. inversion Hs2; subst. auto.
Qed.

Lemma Matches_no_group r s c s' c' :
  Matches r s c s' c' -> no_group r = true -> c' = c.
Proof.
  induction 1; simpl; intros G; try reflexivity;
    try (apply andb_true_iff in G; destruct G as [G1 G2]);
    try discriminate.
  - rewrite IHMatches2, IHMatches1; auto.
  - auto.
  - auto.
  - auto.
  - rewrite IHMatches2, IHMatches1; auto.
  - rewrite IHMatches2, IHMatches1; auto.
Qed.

(** Group 2 of a star of [Group 2 body] whose body starts with a
    character of class [p]: unset as before, or a text starting in [p]. *)
Lemma Matches_star_group2 (p : char -> bool) (b1 b2 : regex) s c s' c' :
  Matches (Star (Group 2 (Seq (Seq (Cls p) b1) b2))) s c s' c' ->
  no_group b1 = true -> no_group b2 = true ->
  c' 1 = c 1
  /\ (c' 2 = c 2 \/ exists x v, c' 2 = Some (x :: v) /\ p x = true).
Proof.
  intros M G1 G2.
  remember (Star (Group 2 (Seq (Seq (Cls p) b1) b2))) as r eqn:Er.
  induction M; try discriminate.
  - auto.
  - inversion Er; subst r. clear Er IHM1.
    destruct (IHM2 eq_refl) as [K1 K2]. clear IHM2.
    inversion M1; subst.
    match goal with
    | M : Matches (Seq (Seq (Cls p) b1) b2) _ _ _ _ |- _ =>
        inversion M; subst; clear M
    end.
    match goal with
    | M : Matches (Seq (Cls p) b1) _ _ _ _ |- _ =>
        inversion M; subst; clear M
    end.
    match goal with
    | M : Matches (Cls p) _ _ _ _ |- _ => inversion M; subst; clear M
    end.
    repeat match goal with
    | M : Matches ?b _ _ _ _, G : no_group ?b = true |- _ =>
        apply Matches_no_group in M; [subst|exact G]
    end.
    split.
    + rewrite K1. reflexivity.
    + right. destruct K2 as [K2|K2]; [|exact K2].
      rewrite K2. unfold set_cap.
      change (2 =? 2) with true. cbv iota.
      match goal with
      | |- context [firstn ?n _] => destruct n as [|k] eqn:En
      end.
      * change (length (x :: ?l)) with (S (length l)) in En.
        simpl in H. lia.
      * simpl. eauto.
Qed.

Lemma tag_match_facts (s : ustring) (m : Match) :
  exec tagRegexp s = Some m ->
  (exists tl s', m0 m = c_lt :: tl /\ s = m0 m ++ s')
  /\ group2_not_slash m = true
  /\ exists n, group m 1 = Some n.
Proof.
  intros E. split; [apply (exec_first _ _ E); reflexivity|].
  destruct (exec_sound _ _ E) as (s' & Hs & M). clear E Hs.
  unfold tagRegexp in M.
  inversion M as [| | |? ? ? ? ? ? ? ? Mlt M1| | | | | | | | |]; subst; clear M.
  apply Matches_no_group in Mlt; [subst|reflexivity].
  inversion M1 as [| | |? ? ? ? ? ? ? ? Mo M2| | | | | | | | |]; subst; clear M1.
  apply Matches_no_group in Mo; [subst|reflexivity].
  inversion M2 as [| | |? ? ? ? ? ? ? ? Mg M3| | | | | | | | |]; subst; clear M2.
  inversion M3 as [| | |? ? ? ? ? ? ? ? Ms M4| | | | | | | | |]; subst; clear M3.
  apply Matches_no_group in M4; [|reflexivity].
  inversion Mg; subst; clear Mg.
  match goal with
  | M : Matches (Seq (Cls is_w) _) _ _ _ _ |- _ =>
      apply Matches_no_group in M; [subst|reflexivity]
  end.
  unfold Plus in Ms.
  apply Matches_star_group2 in Ms; [|reflexivity|reflexivity].
  destruct Ms as [K1 K2].
  split.
  - unfold group2_not_slash.
    destruct K2 as [K2|(x & v & K2 & Hx)].
    + rewrite K2. reflexivity.
    + rewrite K2. unfold ustring_eqb.
      destruct (list_eq_dec N.eq_dec (x :: v) [c_slash]) as [e|]; [|reflexivity].
      inversion e; subst. discriminate.
  - rewrite K1. unfold set_cap. simpl. eauto.
Qed.

(** ** Positions and the unread rest of the input *)

Lemma set_pos_same (t : Tokenizer) : set_pos t (pos t) = t.
Proof. destruct t; reflexivity. Qed.

Lemma rest_length (t : Tokenizer) :
  length (rest t) = length (str t) - pos t.
Proof. unfold rest, slice_from. apply length_skipn. Qed.

Lemma chr_at_rest (t : Tokenizer) (k : nat) :
  chr_at t k = nth_error (rest t) k.
Proof. unfold chr_at, rest, slice_from. now rewrite nth_error_skipn. Qed.

Lemma rest_set_pos (t : Tokenizer) (n : nat) :
  rest (set_pos t (pos t + n)) = skipn n (rest t).
Proof.
  unfold rest, slice_from. simpl. rewrite skipn_skipn. f_equal. lia.
Qed.

Lemma rest_S_pos (t : Tokenizer) :
  rest (set_pos t (S (pos t))) = skipn 1 (rest t).
Proof. rewrite <- rest_set_pos. f_equal. f_equal. lia. Qed.

Lemma slice_rest (s : ustring) (a n : nat) :
  slice s a (a + n) = firstn n (skipn a s).
Proof. unfold slice. f_equal. lia. Qed.

Lemma rest_split (t : Tokenizer) (n : nat) :
  rest t = firstn n (rest t) ++ rest (set_pos t (pos t + n)).
Proof. rewrite rest_set_pos. symmetry. apply firstn_skipn. Qed.

Lemma rest_cons (t : Tokenizer) (c : char) (s : ustring) :
  rest t = c :: s ->
  chr_at t 0 = Some c /\ rest (set_pos t (S (pos t))) = s
  /\ pos t < length (str t).
Proof.
  intros H. rewrite chr_at_rest, rest_S_pos, H. repeat split.
  pose proof (rest_length t) as L. rewrite H in L. simpl in L. lia.
Qed.

Lemma chr_at_0_rest (t : Tokenizer) (c : char) :
  chr_at t 0 = Some c -> exists s, rest t = c :: s.
Proof.
  rewrite chr_at_rest. destruct (rest t) as [|x s]; simpl; [discriminate|].
  intros H. inversion H. eauto.
Qed.

Lemma chr_at_0_lt (t : Tokenizer) (c : char) :
  chr_at t 0 = Some c -> pos t < length (str t).
Proof.
  unfold chr_at. rewrite Nat.add_0_r. intros H.
  apply nth_error_Some. congruence.
Qed.

Lemma chr_at_0_None (t : Tokenizer) :
  chr_at t 0 = None -> length (str t) <= pos t.
Proof.
  unfold chr_at. rewrite Nat.add_0_r. apply nth_error_None.
Qed.

(** ** Runs *)

Lemma run_length_le (p : char -> bool) (s : ustring) :
  run_length p s <= length s.
Proof. induction s as [|x s IH]; simpl; [lia|]. destruct (p x); simpl; lia. Qed.

Lemma run_length_firstn (p : char -> bool) (s : ustring) :
  forallb p (firstn (run_length p s) s) = true.
Proof.
  induction s as [|x s IH]; simpl; [reflexivity|].
  destruct (p x) eqn:E; simpl; [|reflexivity]. now rewrite E.
Qed.

Lemma run_length_stop (p : char -> bool) (s : ustring) (c : char) :
  nth_error s (run_length p s) = Some c -> p c = false.
Proof.
  induction s as [|x s IH]; simpl; [discriminate|].
  destruct (p x) eqn:E; simpl; [exact IH|].
  intros H. inversion H; subst. exact E.
Qed.

Lemma run_length_app (p : char -> bool) (w s : ustring) :
  forallb p w = true ->
  match s with x :: _ => p x = false | [] => True end ->
  run_length p (w ++ s) = length w.
Proof.
  intros Hw Hs. induction w as [|x w IH]; simpl in *.
  - destruct s as [|y s]; simpl; [reflexivity|]. now rewrite Hs.
  - apply andb_true_iff in Hw. destruct Hw as [Hx Hw].
    rewrite Hx. f_equal. auto.
Qed.

Lemma run_length_pos (p : char -> bool) (s : ustring) (c : char) :
  nth_error s 0 = Some c -> p c = true -> 0 < run_length p s.
Proof.
  destruct s as [|x s]; simpl; [discriminate|].
  intros H E. inversion H; subst. rewrite E. lia.
Qed.

(** ** The simple scanners *)

Lemma scanWhitespace_eq (t : Tokenizer) :
  scanWhitespace t =
  (firstn (run_length isWhitespace (rest t)) (rest t),
   set_pos t (pos t + run_length isWhitespace (rest t))).
Proof. unfold scanWhitespace. simpl. now rewrite slice_rest. Qed.

Lemma scanDigits_eq (t : Tokenizer) :
  scanDigits t =
  (firstn (run_length is_d (rest t)) (rest t),
   set_pos t (pos t + run_length is_d (rest t))).
Proof. unfold scanDigits. simpl. now rewrite slice_rest. Qed.

Lemma firstn_run_length_length (p : char -> bool) (s : ustring) :
  length (firstn (run_length p s) s) = run_length p s.
Proof. rewrite length_firstn. pose proof (run_length_le p s). lia. Qed.

Lemma run_pos_le (p : char -> bool) (t : Tokenizer) :
  pos t <= length (str t) ->
  pos t + run_length p (rest t) <= length (str t).
Proof.
  intros H. pose proof (run_length_le p (rest t)) as L.
  rewrite rest_length in L. lia.
Qed.

(** [tryScanTag] either fails and leaves the tokenizer as it is, or
    matches [tagRegexp] on the rest of the input and advances [pos] by
    the length of the match, which starts with [<]. *)
Lemma tryScanTag_spec (t : Tokenizer) :
  tryScanTag t = (None, t)
  \/ exists m tl,
      tryScanTag t = (Some m, set_pos t (pos t + length (m0 m)))
      /\ exec tagRegexp (rest t) = Some m
      /\ m0 m = c_lt :: tl
      /\ rest t = m0 m ++ rest (set_pos t (pos t + length (m0 m)))
      /\ group2_not_slash m = true
      /\ (exists n, group m 1 = Some n).
Proof.
  unfold tryScanTag.
  destruct (negb (is_chr c_lt (chr_at t 0))); [now left|].
  match goal with |- context [if ?b then _ else _] => destruct b end;
    [now left|].
  destruct (exec tagRegexp (rest t)) as [m|] eqn:E; [|now left].
  right. destruct (tag_match_facts _ E) as ((tl & s' & Hm & Hs) & G2 & G1).
  exists m, tl. repeat split; auto.
  rewrite rest_set_pos, Hs.
  now rewrite skipn_app, Nat.sub_diag, skipn_all.
Qed.

Lemma tryScanComment_spec (t : Tokenizer) :
  tryScanComment t = (None, t)
  \/ exists cm tl,
      tryScanComment t = (Some cm, set_pos t (pos t + length cm))
      /\ cm = c_lt :: tl
      /\ rest t = cm ++ rest (set_pos t (pos t + length cm)).
Proof.
  unfold tryScanComment.
  destruct (exec commentRegexp (rest t)) as [m|] eqn:E; [|now left].
  right. destruct (exec_first _ _ E (a:=c_lt) eq_refl) as (tl & s' & Hm & Hs).
  exists (m0 m), tl. repeat split; auto.
  rewrite rest_set_pos, Hs.
  now rewrite skipn_app, Nat.sub_diag, skipn_all.
Qed.

Lemma rest_app_pos (t : Tokenizer) (m s' : ustring) :
  pos t <= length (str t) -> rest t = m ++ s' ->
  pos t + length m <= length (str t).
Proof.
  intros H E. pose proof (rest_length t) as L.
  rewrite E, length_app in L. lia.
Qed.

Lemma scanToEndTag_loop_spec (e : option ustring) (fuel : nat) :
  forall t, pos t <= length (str t) ->
    exists p, scanToEndTag_loop fuel e t = set_pos t p
              /\ pos t <= p <= length (str t).
Proof.
  induction fuel as [|fuel IH]; intros t H; simpl.
  - exists (pos t). rewrite set_pos_same. split; [reflexivity|lia].
  - destruct (Nat.ltb_spec (pos t) (length (str t))).
    2:{ exists (pos t). rewrite set_pos_same. split; [reflexivity|lia]. }
    destruct (tryScanTag_spec t) as [E|(m & tl & E & _ & Hm & Hr & _)];
      rewrite E.
    + destruct (IH (set_pos t (S (pos t)))) as (p & Hp & Hle);
        [simpl; lia|].
      exists p. simpl in *. split; [exact Hp|lia].
    + pose proof (rest_app_pos _ _ _ H Hr) as Hle.
      rewrite Hm in Hle. simpl in Hle.
      destruct (is_end_tag e m).
      * exists (pos t + length (m0 m)). rewrite Hm. simpl. split; [reflexivity|lia].
      * destruct (IH (set_pos t (pos t + length (m0 m)))) as (p & Hp & Hle').
        { simpl. rewrite Hm. simpl. lia. }
        exists p. simpl in *. split; [exact Hp|]. rewrite Hm in Hle'. simpl in Hle'. lia.
Qed.

Lemma scanToEndTag_spec (e : option ustring) (t : Tokenizer) :
  pos t <= length (str t) ->
  exists p, scanToEndTag e t = (slice (str t) (pos t) p, set_pos t p)
            /\ pos t <= p <= length (str t).
Proof.
  intros H. unfold scanToEndTag.
  destruct (scanToEndTag_loop_spec e (length (str t) - pos t) t H)
    as (p & Hp & Hle).
  exists p. rewrite Hp. simpl. auto.
Qed.

(** ** Locating and queueing *)

Lemma keeps_refl t : keeps t t.
Proof. unfold keeps. tauto. Qed.

Lemma keeps_set_pos t p : keeps t (set_pos t p).
Proof. unfold keeps. simpl. tauto. Qed.

Lemma keeps_trans t t1 t2 : keeps t t1 -> keeps t1 t2 -> keeps t t2.
Proof. unfold keeps. intuition congruence. Qed.

Lemma locate_fields (t : Tokenizer) (u : Unlocated) (p : Position) :
  let tk := fst (locate t u p) in
  let t1 := snd (locate t u p) in
  keeps t t1 /\ pos t1 = pos t /\ _lookahead t1 = _lookahead t
  /\ tok tk = u /\ start (location tk) = p
  /\ offset (end_ (location tk)) = pos t.
Proof. unfold locate, keeps. destruct (name u); simpl; tauto. Qed.

Lemma enqueueLookahead_fields (t : Tokenizer) (u : Unlocated) (p : Position) :
  let t1 := enqueueLookahead t u p in
  keeps t t1 /\ pos t1 = pos t
  /\ exists tk, _lookahead t1 = _lookahead t ++ [tk]
                /\ tok tk = u /\ start (location tk) = p
                /\ offset (end_ (location tk)) = pos t.
Proof.
  unfold enqueueLookahead.
  pose proof (locate_fields t u p) as L.
  destruct (locate t u p) as [tk t1]. simpl in L.
  destruct L as (K & P & L & U & S & E).
  unfold keeps in *. simpl. rewrite L.
  repeat split; try tauto. eauto.
Qed.

Lemma enqueue_fields (t : Tokenizer) (u : Unlocated) (p : Position) :
  let t1 := enqueue t u p in
  str t1 = str t /\ _eof t1 = _eof t /\ previous t1 = previous t
  /\ _newline t1 = _newline t /\ pos t1 = pos t /\ _lookahead t1 = []
  /\ exists tk, queue t1 = queue t ++ tk :: _lookahead t
                /\ tok tk = u /\ start (location tk) = p
                /\ offset (end_ (location tk)) = pos t.
Proof.
  unfold enqueue.
  pose proof (locate_fields t u p) as L.
  destruct (locate t u p) as [tk t1]. simpl in L.
  destruct L as (K & P & L & U & S & E).
  unfold keeps in K. simpl. rewrite L.
  destruct (_lookahead t) as [|x l] eqn:El; simpl.
  - repeat split; try tauto. exists tk.
    destruct K as (_ & _ & _ & _ & ->). auto.
  - repeat split; try tauto. exists tk.
    destruct K as (_ & _ & _ & _ & ->).
    rewrite <- app_assoc. auto.
Qed.

#[local] Arguments scanToEndTag : simpl never.
#[local] Arguments tryScanTag : simpl never.
#[local] Arguments tryScanComment : simpl never.
#[local] Arguments scanEscape : simpl never.
#[local] Arguments scanWhitespace : simpl never.
#[local] Arguments scanDigits : simpl never.
#[local] Arguments enqueue : simpl never.
#[local] Arguments enqueueLookahead : simpl never.
#[local] Arguments locate : simpl never.

(** ** Plain-text scanning *)

Lemma scanEscape_spec (t : Tokenizer) :
  pos t < length (str t) ->
  exists e p, scanEscape t = (e, set_pos t p)
              /\ pos t < p <= length (str t) /\ p <= pos t + 2.
Proof.
  intros H. unfold scanEscape. cbn [set_pos pos str].
  destruct (Nat.eqb_spec (S (pos t)) (length (str t))).
  - eexists _, _. split; [reflexivity|lia].
  - destruct (chr_at (set_pos t (S (pos t))) 0) as [chr|] eqn:E.
    + destruct (isFormat chr || N.eqb chr c_bslash);
        eexists _, _; (split; [reflexivity|lia]).
    + apply chr_at_0_None in E. simpl in E. lia.
Qed.

Lemma scanChars_post_nil (fuel : nat) (t : Tokenizer) :
  pos t <= length (str t) -> (0 < fuel -> ~ consumes_first t) ->
  scanChars_post fuel t t.
Proof.
  intros H N. exists []. rewrite app_nil_r.
  split; [apply keeps_refl|].
  split; [lia|]. split; [reflexivity|]. split; [simpl; lia|].
  split; [constructor|].
  intros F C. destruct (N F C).
Qed.

Lemma scanChars_post_la (fuel : nat) (t : Tokenizer) (p : nat)
    (nm : TokenName) (cs : ustring) :
  pos t < p <= length (str t) ->
  nm = tag \/ nm = opaqueTag \/ nm = comment ->
  ~ consumes_first t ->
  scanChars_post fuel t
    (enqueueLookahead (set_pos t p) (Tk nm cs) (getLocation t)).
Proof.
  intros H N C.
  destruct (enqueueLookahead_fields (set_pos t p) (Tk nm cs) (getLocation t))
    as (K & P & tk & L & U & S & E).
  cbn [pos set_pos] in P, E.
  exists [tk]. rewrite P.
  split; [exact K|]. split; [lia|]. split; [exact L|].
  split; [simpl; lia|]. split.
  - constructor; [|constructor]. unfold la_ok, tok_name.
    rewrite U, S, E. simpl. repeat split; auto; lia.
  - intros _ C'. destruct (C C').
Qed.

Lemma scanChars_loop_spec (fuel : nat) :
  forall (t : Tokenizer) (out : ustring),
    pos t <= length (str t) ->
    scanChars_post fuel t (snd (scanChars_loop fuel t out)).
Proof.
  induction fuel as [|fuel IH]; intros t out H.
  { apply scanChars_post_nil; [exact H|lia]. }
  cbn [scanChars_loop].
  destruct (chr_at t 0) as [chr|] eqn:Ec.
  2:{ cbn [snd]. apply scanChars_post_nil; [exact H|].
      unfold consumes_first. rewrite Ec. tauto. }
  pose proof (chr_at_0_lt _ Ec) as Hlt.
  assert (step : forall p out',
             pos t < p <= length (str t) ->
             scanChars_post (S fuel) t
               (snd (scanChars_loop fuel (set_pos t p) out'))).
  { intros p out' P.
    destruct (IH (set_pos t p) out') as (la & K1 & P1 & L1 & N1 & F1 & _).
    { simpl. lia. }
    exists la. simpl in *.
    repeat split; try apply K1; try lia; auto.
    eapply Forall_impl; [|exact F1].
    intros x (A & B & C & D). unfold la_ok. repeat split; auto. lia. }
  destruct (N.eqb_spec chr c_bslash) as [->|Hb].
  { destruct (scanEscape_spec t Hlt) as (e & p & E & P & _). rewrite E.
    apply step. lia. }
  destruct (isChars chr) eqn:Ei.
  { apply step. lia. }
  destruct (N.eqb_spec chr c_lt) as [->|Hl].
  2:{ cbn [snd]. apply scanChars_post_nil; [exact H|].
      unfold consumes_first. rewrite Ec, Ei.
      intros _ [?|[? ?]]; [discriminate|contradiction]. }
  destruct (tryScanTag_spec t) as [E|(m & tl & E & _ & Hm & Hr & _)];
    rewrite E.
  - destruct (tryScanComment_spec t) as [E2|(cm & tl & E2 & Hm & Hr)];
      rewrite E2.
    + apply step. lia.
    + pose proof (rest_app_pos _ _ _ H Hr) as Hle.
      rewrite Hm in Hle. simpl in Hle. cbn [snd].
      apply scanChars_post_la; [rewrite Hm; simpl; lia|tauto|].
      unfold consumes_first. rewrite Ec, Ei, E2. simpl.
      intros [?|(_ & _ & ?)]; discriminate.
  - assert (NC : ~ consumes_first t).
    { unfold consumes_first. rewrite Ec, Ei, E. simpl.
      intros [?|(_ & ? & _)]; discriminate. }
    pose proof (rest_app_pos _ _ _ H Hr) as Hle.
    rewrite Hm in Hle. simpl in Hle.
    destruct (opaqueTags_has (group m 1) && group2_not_slash m).
    + destruct (scanToEndTag_spec (group m 1)
                  (set_pos t (pos t + length (m0 m)))) as (p & Es & Hp).
      { simpl. rewrite Hm. simpl. lia. }
      rewrite Es. simpl in Hp. rewrite Hm in Hp. simpl in Hp. cbn [snd].
      apply (@scanChars_post_la (S fuel) t p); [lia|tauto|exact NC].
    + cbn [snd].
      apply scanChars_post_la; [rewrite Hm; simpl; lia|tauto|exact NC].
Qed.

Lemma scanChars_spec (t : Tokenizer) :
  pos t <= length (str t) ->
  scanChars_post (length (str t) - pos t) t (snd (scanChars t)).
Proof. intros H. unfold scanChars. now apply scanChars_loop_spec. Qed.

(** ** One call of [matchToken] *)

Lemma tok_ok_weaken N (a a' b b' : nat) (x : Token) :
  a' <= a -> b <= b' -> tok_ok N a b x -> tok_ok N a' b' x.
Proof. unfold tok_ok. intuition lia. Qed.

Lemma tok_ok_names (N N' : TokenName -> Prop) (a b : nat) (x : Token) :
  (forall n, N n -> N' n) -> tok_ok N a b x -> tok_ok N' a b x.
Proof. unfold tok_ok. intros H (A & B). split; auto. Qed.

Lemma la_ok_tok_ok N (a b : nat) (x : Token) :
  allows_lookahead N -> la_ok a b x -> tok_ok N a b x.
Proof.
  unfold la_ok, tok_ok. intros (N1 & N2 & N3) ([E|[E|E]] & A & B & C);
    rewrite E; repeat split; auto; lia.
Qed.

Lemma proper_lookahead : allows_lookahead proper_name.
Proof. repeat split; discriminate. Qed.

Lemma dispatch_lookahead : allows_lookahead dispatch_name.
Proof. repeat split; discriminate. Qed.

Lemma mid_start N (t : Tokenizer) (b : bool) :
  pos t <= length (str t) -> mid N t (set_newline t b) [].
Proof.
  intros H. unfold mid. simpl. rewrite app_nil_r.
  repeat split; auto.
Qed.

Lemma mid_refl N (t : Tokenizer) :
  pos t <= length (str t) -> mid N t t [].
Proof.
  intros H. unfold mid. rewrite app_nil_r. repeat split; auto.
Qed.

Lemma mid_keeps N (t0 t1 t2 : Tokenizer) (toks : list Token) :
  mid N t0 t1 toks -> keeps t1 t2 -> pos t1 <= pos t2 <= length (str t0) ->
  mid N t0 t2 toks.
Proof.
  unfold mid, keeps.
  intros (A & B & C & D & E & F) (A' & B' & C' & _ & D') P.
  repeat split; try congruence; try lia.
  eapply Forall_impl; [|exact F].
  intros x. apply tok_ok_weaken; lia.
Qed.

Lemma mid_set_pos N (t0 t1 : Tokenizer) (toks : list Token) (p : nat) :
  mid N t0 t1 toks -> pos t1 <= p <= length (str t0) ->
  mid N t0 (set_pos t1 p) toks.
Proof.
  intros M P. eapply mid_keeps; [exact M|apply keeps_set_pos|exact P].
Qed.

Lemma mid_enqueue N (t0 t1 : Tokenizer) (toks : list Token)
    (u : Unlocated) (p : Position) :
  allows_lookahead N ->
  mid N t0 t1 toks -> N (name u) -> offset p = pos t0 ->
  Forall (la_ok (pos t0) (pos t1)) (_lookahead t1) ->
  let t2 := enqueue t1 u p in
  _lookahead t2 = [] /\ pos t2 = pos t1 /\ _newline t2 = _newline t1
  /\ exists tk, tok tk = u
                /\ mid N t0 t2 (toks ++ tk :: _lookahead t1).
Proof.
  intros NL (A & B & C & D & E & F) Nu O L.
  destruct (enqueue_fields t1 u p)
    as (A' & B' & C' & D' & E' & F' & tk & Q & U & S & En).
  cbv zeta. repeat split; auto.
  exists tk. split; [exact U|].
  unfold mid. rewrite E'.
  repeat split; try congruence; try lia.
  - rewrite Q, D. now rewrite <- app_assoc.
  - apply Forall_app. split; [exact F|].
    constructor.
    + unfold tok_ok, tok_name. rewrite U, S, En, O. repeat split; auto; lia.
    + eapply Forall_impl; [|exact L]. intros x. now apply la_ok_tok_ok.
Qed.

Lemma mid_finish N (t0 t1 : Tokenizer) (toks : list Token) :
  mid N t0 t1 toks -> _lookahead t1 = [] ->
  1 <= length toks <= pos t1 - pos t0 ->
  step_post N t0 t1.
Proof.
  intros (A & B & C & D & E & F) L Hn. unfold step_post.
  repeat split; auto; try lia. exists toks. auto.
Qed.

(** ** Tags and comments at [<] *)

Lemma Matches_Lit (l : ustring) :
  forall s c s' c', Matches (Lit l) s c s' c' -> s = l ++ s' /\ c' = c.
Proof.
  induction l as [|a l IH]; simpl; intros s c s' c' M.
  - inversion M; subst. auto.
  - inversion M as [| | |? ? ? ? ? ? ? ? M1 M2| | | | | | | | |]; subst.
    inversion M1; subst. apply IH in M2. destruct M2 as [-> ->]. auto.
Qed.

Lemma comment_match_prefix (s : ustring) (m : Match) :
  exec commentRegexp s = Some m -> exists s', s = lit "<!--" ++ s'.
Proof.
  intros E. destruct (exec_sound _ _ E) as (s' & _ & M).
  unfold commentRegexp in M.
  inversion M as [| | |? ? ? ? ? ? ? ? M1 M2| | | | | | | | |]; subst.
  apply (Matches_Lit (lit "<!--")) in M1. destruct M1 as [-> _]. eauto.
Qed.

Lemma tag_not_comment_start (s : ustring) :
  exec tagRegexp (c_lt :: c_bang :: c_minus :: s) = None.
Proof. reflexivity. Qed.

Lemma is_chr_true (c : char) (o : option char) :
  is_chr c o = true -> o = Some c.
Proof.
  destruct o as [x|]; simpl; [|discriminate].
  intros H. apply N.eqb_eq in H. now subst.
Qed.

Lemma rest_chars3 (t : Tokenizer) (a b c d : char) :
  chr_at t 0 = Some a -> chr_at t 1 = Some b -> chr_at t 2 = Some c ->
  chr_at t 3 = Some d ->
  exists s, rest t = a :: b :: c :: d :: s.
Proof.
  rewrite !chr_at_rest.
  destruct (rest t) as [|x0 [|x1 [|x2 [|x3 s]]]]; simpl; try discriminate.
  intros. exists s. congruence.
Qed.

Lemma comment_start_tryScanTag (t : Tokenizer) :
  chr_at t 0 = Some c_lt ->
  is_chr c_bang (chr_at t 1) && is_chr c_minus (chr_at t 2)
  && is_chr c_minus (chr_at t 3) = true ->
  tryScanTag t = (None, t).
Proof.
  intros H0 H. apply andb_true_iff in H. destruct H as [H H3].
  apply andb_true_iff in H. destruct H as [H1 H2].
  apply is_chr_true in H1, H2, H3.
  destruct (rest_chars3 t H0 H1 H2 H3) as (s & Hs).
  unfold tryScanTag. rewrite Hs, tag_not_comment_start.
  destruct (negb (is_chr c_lt (chr_at t 0))); [reflexivity|].
  match goal with |- context [if ?b then _ else _] => destruct b end;
    reflexivity.
Qed.

Lemma no_comment_start_tryScanComment (t : Tokenizer) :
  is_chr c_bang (chr_at t 1) && is_chr c_minus (chr_at t 2)
  && is_chr c_minus (chr_at t 3) = false ->
  tryScanComment t = (None, t).
Proof.
  intros H. unfold tryScanComment.
  destruct (exec commentRegexp (rest t)) as [m|] eqn:E; [|reflexivity].
  apply comment_match_prefix in E. destruct E as (s' & Hs).
  rewrite !chr_at_rest, Hs in H. discriminate.
Qed.

Lemma la_ok_weaken (a a' b : nat) (x : Token) :
  a' <= a -> la_ok a b x -> la_ok a' b x.
Proof. unfold la_ok. intuition lia. Qed.

(** Queueing one token after a scanner that queued no lookahead. *)
Lemma single_step N (t0 t t1 : Tokenizer) (toks : list Token) (u : Unlocated)
    (p : Position) :
  allows_lookahead N ->
  mid N t0 t toks -> keeps t t1 -> _lookahead t1 = [] ->
  pos t <= pos t1 <= length (str t0) ->
  N (name u) -> offset p = pos t0 ->
  S (length toks) <= pos t1 - pos t0 ->
  step_post N t0 (enqueue t1 u p).
Proof.
  intros NL M K L P Nu O C.
  pose proof (mid_keeps M K P) as M1.
  destruct (@mid_enqueue N t0 t1 toks u p NL M1 Nu O)
    as (L2 & P2 & _ & tk & _ & M2).
  { rewrite L. constructor. }
  eapply mid_finish; [exact M2|exact L2|].
  rewrite L, length_app, P2. simpl. lia.
Qed.

(** [scanChars] followed by queueing a token for what it scanned. *)
Lemma scan_text_step N (t0 t : Tokenizer) (toks : list Token)
    (f : ustring -> ustring) (p : Position) :
  allows_lookahead N -> N text ->
  mid N t0 t toks -> _lookahead t = [] -> offset p = pos t0 ->
  exists n toks',
    let t2 := enqueue (snd (scanChars t)) (Tk text (f (fst (scanChars t)))) p in
    mid N t0 t2 toks' /\ length toks' = length toks + 1 + n
    /\ _lookahead t2 = [] /\ _newline t2 = _newline t
    /\ pos t <= pos t2
    /\ n <= pos t2 - pos t
    /\ (consumes_first t -> pos t < length (str t) -> S n <= pos t2 - pos t).
Proof.
  intros NL Nt M L O.
  assert (Hs : str t = str t0) by apply M.
  assert (Hp : pos t0 <= pos t <= length (str t)).
  { rewrite Hs. apply M. }
  destruct (scanChars_spec t (proj2 Hp)) as (la & K & P & La & Hn & F & Pr).
  rewrite L in La. simpl in La.
  pose proof (@mid_keeps N t0 t _ toks M K) as M1.
  rewrite Hs in P. specialize (M1 P).
  destruct (@mid_enqueue N t0 _ toks (Tk text (f (fst (scanChars t)))) p NL M1)
    as (L2 & P2 & N2 & tk & _ & M2); [exact Nt|exact O| |].
  { rewrite La. eapply Forall_impl; [|exact F].
    intros x. apply la_ok_weaken. lia. }
  exists (length la), (toks ++ tk :: _lookahead (snd (scanChars t))).
  cbv zeta. rewrite P2.
  split; [exact M2|]. split.
  { rewrite length_app, La. simpl. lia. }
  split; [exact L2|]. split.
  { rewrite N2. apply K. }
  split; [lia|]. split; [exact Hn|].
  intros C Hlt. apply Pr; [lia|exact C].
Qed.

Ltac fields :=
  cbn [pos str _eof queue _newline _lookahead previous line column
       set_pos set_newline set_queue set_eof set_lookahead set_previous
       set_line_column length getLocation offset slice_from].

Ltac dname :=
  unfold dispatch_name, proper_name; cbn [name Tk];
  repeat split; discriminate.

Ltac nameN HN :=
  cbn [name Tk]; first [assumption | apply HN; simpl; tauto].

(** The generic dispatch, away from the end of the input, queues at
    least one token and advances; the names of the tokens are in
    [dispatch_emits], or those of line breaks when it is at a newline. *)
Lemma dispatch_step_gen (Nm : TokenName -> Prop) (t : Tokenizer) :
  (forall nm, In nm dispatch_emits -> Nm nm) ->
  (chr_at t 0 = Some c_nl -> Nm linebreak /\ Nm parabreak) ->
  pos t < length (str t) -> _lookahead t = [] ->
  exists t1, dispatch t = Ok t1 /\ step_post Nm t t1.
Proof.
  intros HN HB H L. unfold dispatch.
  destruct (chr_at t 0) as [chr|] eqn:Ec.
  2:{ apply chr_at_0_None in Ec. lia. }
  assert (M0 : mid Nm t t []) by (apply mid_refl; lia).
  assert (NL : allows_lookahead Nm) by (repeat split; apply HN; simpl; tauto).
  assert (delim : forall nm,
             Nm nm ->
             exists t1,
               Ok (enqueue (set_pos t (S (pos t))) (Tk nm [chr]) (getLocation t))
               = Ok t1 /\ step_post Nm t t1).
  { intros nm Hn. eexists. split; [reflexivity|].
    eapply single_step;
      [exact NL|exact M0|apply keeps_set_pos|exact L|fields; lia|exact Hn|reflexivity
      |fields; lia]. }
  assert (textcase : forall (t' : Tokenizer),
             t' = t -> consumes_first t ->
             exists t1,
               (let (cs, t1) := scanChars t' in
                Ok (enqueue t1 (Tk text cs) (getLocation t))) = Ok t1
               /\ step_post Nm t t1).
  { intros t' -> C.
    destruct (@scan_text_step Nm t t [] (fun x => x)
                (getLocation t) NL ltac:(nameN HN) M0 L eq_refl)
      as (n & toks' & M & Len & L2 & _ & _ & _ & Pr).
    destruct (scanChars t) as [cs t1]. simpl in *.
    eexists. split; [reflexivity|].
    eapply mid_finish; [exact M|exact L2|].
    specialize (Pr C H). lia. }
  destruct (N.eqb_spec chr c_star); [apply delim; nameN HN|].
  destruct (N.eqb_spec chr c_underscore); [apply delim; nameN HN|].
  destruct (N.eqb_spec chr c_tick); [apply delim; nameN HN|].
  destruct (N.eqb_spec chr c_pipe); [apply delim; nameN HN|].
  destruct (N.eqb_spec chr c_tilde); [apply delim; nameN HN|].
  destruct (N.eqb_spec chr c_nl).
  { cbn [pos str set_newline].
    pose proof (run_length_le (fun c => N.eqb c c_nl)
                  (slice_from (str t) (S (pos t)))) as R.
    unfold slice_from in R. rewrite length_skipn in R.
    assert (M1 : mid Nm t (set_newline t true) [])
      by (apply mid_start; lia).
    subst chr. destruct (HB eq_refl) as [Nlb Npb].
    match goal with |- context [if ?b then _ else _] => destruct b end;
      (eexists; split; [reflexivity|]);
      (eapply single_step;
       [exact NL|exact M1|apply keeps_set_pos|exact L
       |unfold slice_from; fields; lia|nameN HN|reflexivity
       |unfold slice_from; fields; lia]). }
  destruct (isWhitespace chr) eqn:Ew.
  { rewrite scanWhitespace_eq.
    pose proof (run_pos_le isWhitespace t (Nat.lt_le_incl _ _ H)) as R.
    assert (0 < run_length isWhitespace (rest t)) as R0.
    { eapply run_length_pos; [rewrite <- chr_at_rest; exact Ec|exact Ew]. }
    eexists. split; [reflexivity|].
    eapply single_step;
      [exact NL|exact M0|apply keeps_set_pos|exact L|fields; lia|nameN HN
      |reflexivity|fields; lia]. }
  destruct (isChars chr) eqn:Ei.
  { apply (textcase t eq_refl). unfold consumes_first. rewrite Ec. auto. }
  destruct (N.eqb_spec chr c_lt) as [->|Hl].
  2:{ exfalso.
      destruct (dispatch_exhaustive chr) as [E|[E|[E|[E|[E|[E|[E|[E|E]]]]]]]];
        congruence. }
  destruct (is_chr c_bang (chr_at t 1) && is_chr c_minus (chr_at t 2)
            && is_chr c_minus (chr_at t 3)) eqn:Eb.
  - pose proof (comment_start_tryScanTag t Ec Eb) as Et.
    destruct (tryScanComment_spec t) as [E2|(cm & tl & E2 & Hm & Hr)];
      rewrite E2.
    + apply (textcase t eq_refl). unfold consumes_first.
      rewrite Ec, Et, E2. simpl. auto.
    + pose proof (rest_app_pos _ _ _ (Nat.lt_le_incl _ _ H) Hr) as Hle.
      rewrite Hm in Hle. simpl in Hle.
      eexists. split; [reflexivity|].
      eapply single_step;
        [exact NL|exact M0|apply keeps_set_pos|exact L|rewrite Hm; fields; lia
        |nameN HN|reflexivity|rewrite Hm; fields; lia].
  - pose proof (no_comment_start_tryScanComment t Eb) as E2.
    destruct (tryScanTag_spec t) as [E|(m & tl & E & _ & Hm & Hr & _)];
      rewrite E.
    + apply (textcase t eq_refl). unfold consumes_first.
      rewrite Ec, E, E2. simpl. auto.
    + pose proof (rest_app_pos _ _ _ (Nat.lt_le_incl _ _ H) Hr) as Hle.
      rewrite Hm in Hle. simpl in Hle.
      destruct (opaque_start m).
      * destruct (scanToEndTag_spec (group m 1)
                    (set_pos t (pos t + length (m0 m)))) as (p & Es & Hp).
        { simpl. rewrite Hm. simpl. lia. }
        rewrite Es. simpl in Hp. rewrite Hm in Hp. simpl in Hp.
        eexists. split; [reflexivity|].
        eapply single_step;
          [exact NL|exact M0|apply (keeps_set_pos t p)|exact L|fields; lia
          |nameN HN|reflexivity|fields; lia].
      * eexists. split; [reflexivity|].
        eapply single_step;
          [exact NL|exact M0|apply keeps_set_pos|exact L|rewrite Hm; fields; lia
          |nameN HN|reflexivity|rewrite Hm; fields; lia].
Qed.

Lemma dispatch_step (t : Tokenizer) :
  pos t < length (str t) -> _lookahead t = [] ->
  exists t1, dispatch t = Ok t1 /\ step_post dispatch_name t t1.
Proof.
  apply dispatch_step_gen.
  - intros nm H. simpl in H.
    repeat destruct H as [H|H]; try contradiction; subst nm;
      unfold dispatch_name; repeat split; discriminate.
  - intros _. unfold dispatch_name. repeat split; discriminate.
Qed.

Lemma chr_at_lt (t : Tokenizer) (k : nat) (c : char) :
  chr_at t k = Some c -> pos t + k < length (str t).
Proof. unfold chr_at. intros H. apply nth_error_Some. congruence. Qed.

(** The held white space is flushed as a token of its own when it is
    not empty. *)
Lemma ws_flush Nm (t0 t2 : Tokenizer) (ws : ustring) (p : Position) :
  allows_lookahead Nm -> Nm whitespace ->
  mid Nm t0 t2 [] -> _lookahead t2 = [] -> offset p = pos t0 ->
  exists toks,
    let t3 := if 0 <? length ws
              then enqueue t2 (Tk whitespace ws) p else t2 in
    mid Nm t0 t3 toks /\ _lookahead t3 = [] /\ pos t3 = pos t2
    /\ _newline t3 = _newline t2
    /\ length toks = (if 0 <? length ws then 1 else 0).
Proof.
  intros NL Nw M L O. destruct (0 <? length ws).
  - destruct (@mid_enqueue Nm t0 t2 [] (Tk whitespace ws) p NL M)
      as (L2 & P2 & N2 & tk & _ & M2); [exact Nw|exact O| |].
    { rewrite L. constructor. }
    rewrite L in M2. exists [tk]. cbv zeta. auto.
  - exists []. cbv zeta. auto.
Qed.

(** The line-start branch either returns after a step, or falls
    through to the generic dispatch, strictly before the end of the
    input and with nothing queued. *)
Lemma line_start_step_gen (Nm : TokenName -> Prop) (t : Tokenizer) :
  (forall nm, In nm line_start_emits -> Nm nm) ->
  pos t < length (str t) -> _lookahead t = [] ->
  match line_start t with
  | inl t1 => step_post Nm t t1
  | inr t1 =>
      str t1 = str t /\ _eof t1 = _eof t /\ previous t1 = previous t
      /\ queue t1 = queue t /\ _lookahead t1 = []
      /\ pos t <= pos t1 < length (str t) /\ _newline t1 = false
  end.
Proof.
  intros HN H L. unfold line_start. rewrite scanWhitespace_eq.
  change (rest (set_newline t false)) with (rest t).
  change (getLocation (set_newline t false)) with (getLocation t).
  set (n := run_length isWhitespace (rest t)).
  set (ws := firstn n (rest t)).
  assert (Hws : length ws = n) by apply firstn_run_length_length.
  pose proof (run_pos_le isWhitespace t (Nat.lt_le_incl _ _ H)) as Hn.
  fold n in Hn.
  set (t1 := set_pos (set_newline t false) (pos (set_newline t false) + n)).
  assert (NL : allows_lookahead Nm) by (repeat split; apply HN; simpl; tauto).
  assert (M1 : mid Nm t t1 []).
  { apply mid_set_pos; [apply mid_start; lia|fields; lia]. }
  assert (L1 : _lookahead t1 = []) by exact L.
  assert (P1 : pos t1 = pos t + n) by reflexivity.
  assert (S1 : str t1 = str t) by reflexivity.
  assert (fall : str t1 = str t /\ _eof t1 = _eof t
                 /\ previous t1 = previous t
                 /\ queue t1 = queue t /\ _lookahead t1 = []
                 /\ _newline t1 = false) by (repeat split; auto).
  assert (wsonly : (0 <? length ws) = true ->
                   step_post Nm t (enqueue t1 (Tk whitespace ws) (getLocation t))).
  { intros W. apply Nat.ltb_lt in W.
    eapply single_step;
      [exact NL|exact M1|apply keeps_refl|exact L1|rewrite P1; lia|nameN HN
      |reflexivity|rewrite P1; simpl; lia]. }
  destruct (Nat.leb_spec (length (str t1)) (pos t1)) as [Hge|Hlt].
  { destruct (0 <? length ws) eqn:W; [auto|].
    apply Nat.ltb_ge in W. rewrite S1, P1 in Hge. lia. }
  rewrite S1, P1 in Hlt.
  destruct (match chr_at t1 0 with Some c => is_d c | None => false end) eqn:Ed.
  { (* digits *)
    rewrite scanDigits_eq.
    set (d := run_length is_d (rest t1)).
    set (digits := firstn d (rest t1)).
    assert (Hd : 0 < d).
    { destruct (chr_at t1 0) as [c|] eqn:Ec; [|discriminate].
      eapply run_length_pos; [rewrite <- chr_at_rest; exact Ec|exact Ed]. }
    pose proof (run_pos_le is_d t1) as Hd2. fold d in Hd2.
    rewrite S1, P1 in Hd2. specialize (Hd2 ltac:(lia)).
    set (t2 := set_pos t1 (pos t1 + d)).
    assert (M2 : mid Nm t t2 []).
    { apply mid_set_pos; [exact M1|rewrite P1; lia]. }
    assert (P2 : pos t2 = pos t + n + d) by reflexivity.
    destruct (is_chr c_dot (chr_at t2 0) && is_chr c_space (chr_at t2 1)) eqn:Eo.
    - apply andb_true_iff in Eo. destruct Eo as [_ Eo].
      apply is_chr_true, chr_at_lt in Eo. rewrite P2 in Eo.
      change (str t2) with (str t) in Eo.
      eapply single_step;
        [exact NL|exact M2|apply keeps_set_pos|exact L|rewrite P2; fields; lia
        |nameN HN|reflexivity|rewrite P2; fields; lia].
    - destruct (@ws_flush Nm t t2 ws (getLocation t) NL ltac:(nameN HN)
                  M2 L eq_refl)
        as (toks & M3 & L3 & P3 & _ & C3).
      cbv zeta in M3, L3, P3.
      set (t3 := if 0 <? length ws
                 then enqueue t2 (Tk whitespace ws) (getLocation t) else t2)
        in *.
      destruct (@scan_text_step Nm t t3 toks (app digits)
                  (getLocation t) NL ltac:(nameN HN) M3 L3 eq_refl)
        as (k & toks' & M4 & Len & L4 & _ & Q4 & K4 & _).
      destruct (scanChars t3) as [cs t4]. cbn [fst snd] in *.
      eapply mid_finish; [exact M4|exact L4|].
      rewrite Len, C3, P3, P2 in *.
      destruct (Nat.ltb_spec 0 (length ws)); lia. }
  destruct (is_chr c_star (chr_at t1 0) && is_chr c_space (chr_at t1 1)) eqn:Eu.
  { apply andb_true_iff in Eu. destruct Eu as [_ Eu].
    apply is_chr_true, chr_at_lt in Eu. rewrite P1, S1 in Eu.
    eapply single_step;
      [exact NL|exact M1|apply keeps_set_pos|exact L|rewrite P1; fields; lia
      |nameN HN|reflexivity|rewrite P1; fields; lia]. }
  destruct (is_chr c_lt (chr_at t1 0)) eqn:El.
  { destruct (tryScanTag_spec t1) as [E|(m & tl & E & _ & Hm & Hr & _)];
      rewrite E.
    - destruct (tryScanComment_spec t1) as [E2|(cm & tl & E2 & Hm & Hr)];
        rewrite E2.
      + repeat split; try apply fall; rewrite ?P1; lia.
      + assert (Hle : pos t1 + length cm <= length (str t1)).
        { apply (rest_app_pos _ _ _ ltac:(rewrite P1, S1; lia) Hr). }
        rewrite P1, S1, Hm in Hle. simpl in Hle.
        eapply single_step;
          [exact NL|exact M1|apply keeps_set_pos|exact L
          |rewrite P1, Hm; fields; lia
          |nameN HN|reflexivity|rewrite P1, Hm; fields; lia].
    - assert (Hle : pos t1 + length (m0 m) <= length (str t1)).
      { apply (rest_app_pos _ _ _ ltac:(rewrite P1, S1; lia) Hr). }
      rewrite P1, S1, Hm in Hle. simpl in Hle.
      set (t2 := set_pos t1 (pos t1 + length (m0 m))).
      assert (P2 : pos t2 = pos t + n + S (length tl)).
      { unfold t2. rewrite Hm. reflexivity. }
      assert (M2 : mid Nm t t2 []).
      { apply mid_set_pos; [exact M1|rewrite P1, Hm; simpl; lia]. }
      destruct (opaque_start m).
      + destruct (scanToEndTag_spec (group m 1) t2) as (p & Es & Hp).
        { rewrite P2. change (str t2) with (str t). lia. }
        rewrite Es. rewrite P2 in Hp. change (str t2) with (str t) in Hp.
        eapply single_step;
          [exact NL|exact M2|apply keeps_set_pos|exact L|rewrite P2; fields; lia
          |nameN HN|reflexivity|fields; lia].
      + destruct (@ws_flush Nm t t2 ws (getLocation t) NL ltac:(nameN HN)
                  M2 L eq_refl)
          as (toks & M3 & L3 & P3 & _ & C3).
        cbv zeta in M3, L3, P3.
        set (t3 := if 0 <? length ws
                   then enqueue t2 (Tk whitespace ws) (getLocation t) else t2)
          in *.
        eapply single_step;
          [exact NL|exact M3|apply keeps_refl|exact L3|rewrite P3, P2; lia
          |nameN HN|reflexivity|].
        rewrite C3, P3, P2.
        destruct (Nat.ltb_spec 0 (length ws)); lia. }
  destruct (0 <? length ws) eqn:W; [auto|].
  repeat split; try apply fall; rewrite ?P1; lia.
Qed.

Lemma line_start_step (t : Tokenizer) :
  pos t < length (str t) -> _lookahead t = [] ->
  match line_start t with
  | inl t1 => step_post proper_name t t1
  | inr t1 =>
      str t1 = str t /\ _eof t1 = _eof t /\ previous t1 = previous t
      /\ queue t1 = queue t /\ _lookahead t1 = []
      /\ pos t <= pos t1 < length (str t) /\ _newline t1 = false
  end.
Proof.
  apply line_start_step_gen.
  intros nm H. simpl in H.
  repeat destruct H as [H|H]; try contradiction; subst nm; discriminate.
Qed.

(** [matchToken] away from the end of the input. *)
Lemma matchToken_step (t : Tokenizer) :
  pos t < length (str t) -> _lookahead t = [] ->
  exists t1, matchToken t = Ok t1 /\ step_post proper_name t t1
             /\ (_newline t = false -> step_post dispatch_name t t1).
Proof.
  intros H L. unfold matchToken.
  assert (D : forall t0 t1, step_post dispatch_name t0 t1 ->
                            step_post proper_name t0 t1).
  { intros t0 t1 (A & B & C & D & E & toks & F & G & I).
    repeat split; auto; try lia. exists toks. repeat split; auto; try lia.
    eapply Forall_impl; [|exact I].
    intros x. apply tok_ok_names. intros n Hn. apply Hn. }
  destruct (Nat.eqb_spec (pos t) (length (str t))); [lia|].
  destruct (_newline t).
  2:{ destruct (dispatch_step t H L) as (t1 & E1 & S1). eauto. }
  pose proof (line_start_step t H L) as S.
  destruct (line_start t) as [t1|t1].
  { exists t1. repeat split; try apply S. discriminate. }
  destruct S as (A & B & C & D' & E & F & _).
  destruct (dispatch_step t1) as (t2 & E2 & S2).
  { rewrite A. lia. }
  { exact E. }
  apply D in S2.
  destruct S2 as (A2 & B2 & C2 & D2 & F2 & toks & Q & Hn & T).
  exists t2. split; [exact E2|]. split; [|discriminate].
  unfold step_post. rewrite A in *.
  repeat split; try congruence; try lia.
  exists toks. repeat split; try congruence; try lia.
  eapply Forall_impl; [|exact T].
  intros x. apply tok_ok_weaken; lia.
Qed.

(** [matchToken] at the end of the input. *)
Lemma matchToken_eof (t : Tokenizer) :
  pos t = length (str t) ->
  exists t1 e,
    matchToken t = Ok t1
    /\ str t1 = str t /\ _eof t1 = true /\ previous t1 = previous t
    /\ _newline t1 = _newline t /\ pos t1 = pos t /\ _lookahead t1 = []
    /\ queue t1 = queue t ++ e :: _lookahead t
    /\ tok e = TkEOF
    /\ offset (start (location e)) = pos t
    /\ offset (end_ (location e)) = pos t.
Proof.
  intros H. unfold matchToken.
  destruct (Nat.eqb_spec (pos t) (length (str t))); [|contradiction].
  destruct (enqueue_fields (set_eof t true) TkEOF
              (getLocation (set_eof t true)))
    as (A & B & C & D & E & F & tk & Q & U & S & En).
  eexists _, tk. split; [reflexivity|].
  rewrite S.
  split; [exact A|]. split; [exact B|]. split; [exact C|].
  split; [exact D|]. split; [exact E|]. split; [exact F|].
  split; [exact Q|]. split; [exact U|]. split; [reflexivity|exact En].
Qed.

(** ** Scanning does not read the queue *)

Lemma locate_reframe q p t u s :
  locate (reframe q p t) u s
  = (fst (locate t u s), reframe q p (snd (locate t u s))).
Proof. unfold locate. destruct (name u); reflexivity. Qed.

Lemma enqueueLookahead_reframe q p t u s :
  enqueueLookahead (reframe q p t) u s
  = reframe q p (enqueueLookahead t u s).
Proof.
  unfold enqueueLookahead. rewrite locate_reframe.
  destruct (locate t u s) as [tk t1]. reflexivity.
Qed.

Lemma enqueue_reframe q p t u s :
  enqueue (reframe q p t) u s = reframe q p (enqueue t u s).
Proof.
  unfold enqueue. rewrite locate_reframe.
  destruct (locate t u s) as [tk t1]. cbn [fst snd].
  cbn [_lookahead set_queue reframe queue].
  destruct (_lookahead t1); unfold reframe, set_queue, set_lookahead; simpl;
    now rewrite <- ?app_assoc.
Qed.

Lemma set_pos_reframe q p t n :
  set_pos (reframe q p t) n = reframe q p (set_pos t n).
Proof. reflexivity. Qed.

Lemma set_newline_reframe q p t b :
  set_newline (reframe q p t) b = reframe q p (set_newline t b).
Proof. reflexivity. Qed.

Lemma scanWhitespace_reframe q p t :
  scanWhitespace (reframe q p t)
  = (fst (scanWhitespace t), reframe q p (snd (scanWhitespace t))).
Proof. reflexivity. Qed.

Lemma scanDigits_reframe q p t :
  scanDigits (reframe q p t)
  = (fst (scanDigits t), reframe q p (snd (scanDigits t))).
Proof. reflexivity. Qed.

Lemma scanEscape_reframe q p t :
  scanEscape (reframe q p t)
  = (fst (scanEscape t), reframe q p (snd (scanEscape t))).
Proof.
  unfold scanEscape. cbn [pos str set_pos reframe].
  destruct (S (pos t) =? length (str t)); [reflexivity|].
  change (chr_at (set_pos (reframe q p t) (S (pos t))) 0)
    with (chr_at (set_pos t (S (pos t))) 0).
  destruct (chr_at (set_pos t (S (pos t))) 0) as [c|]; [|reflexivity].
  destruct (isFormat c || N.eqb c c_bslash); reflexivity.
Qed.

Lemma tryScanTag_reframe q p t :
  tryScanTag (reframe q p t)
  = (fst (tryScanTag t), reframe q p (snd (tryScanTag t))).
Proof.
  unfold tryScanTag.
  change (chr_at (reframe q p t)) with (chr_at t).
  change (rest (reframe q p t)) with (rest t).
  cbn [pos str reframe].
  destruct (negb (is_chr c_lt (chr_at t 0))); [reflexivity|].
  match goal with |- context [if ?b then _ else _] => destruct b end;
    [reflexivity|].
  destruct (exec tagRegexp (rest t)); reflexivity.
Qed.

Lemma tryScanComment_reframe q p t :
  tryScanComment (reframe q p t)
  = (fst (tryScanComment t), reframe q p (snd (tryScanComment t))).
Proof.
  unfold tryScanComment.
  change (rest (reframe q p t)) with (rest t).
  destruct (exec commentRegexp (rest t)); reflexivity.
Qed.

Lemma scanToEndTag_loop_reframe q p e fuel :
  forall t,
    scanToEndTag_loop fuel e (reframe q p t)
    = reframe q p (scanToEndTag_loop fuel e t).
Proof.
  induction fuel as [|fuel IH]; intros t; [reflexivity|].
  cbn [scanToEndTag_loop]. cbn [pos str reframe].
  destruct (pos t <? length (str t)); [|reflexivity].
  rewrite tryScanTag_reframe.
  destruct (tryScanTag t) as [[m|] t1]; cbn [fst snd].
  - destruct (is_end_tag e m); [reflexivity|apply IH].
  - rewrite set_pos_reframe. apply IH.
Qed.

Lemma scanToEndTag_reframe q p e t :
  scanToEndTag e (reframe q p t)
  = (fst (scanToEndTag e t), reframe q p (snd (scanToEndTag e t))).
Proof.
  unfold scanToEndTag. cbn [pos str reframe fst snd].
  rewrite scanToEndTag_loop_reframe. reflexivity.
Qed.

Lemma scanChars_loop_reframe q p fuel :
  forall t out,
    scanChars_loop fuel (reframe q p t) out
    = (fst (scanChars_loop fuel t out),
       reframe q p (snd (scanChars_loop fuel t out))).
Proof.
  induction fuel as [|fuel IH]; intros t out; [reflexivity|].
  cbn [scanChars_loop].
  change (chr_at (reframe q p t) 0) with (chr_at t 0).
  change (getLocation (reframe q p t)) with (getLocation t).
  destruct (chr_at t 0) as [chr|]; [|reflexivity].
  destruct (N.eqb chr c_bslash).
  { rewrite scanEscape_reframe. destruct (scanEscape t) as [e t1].
    cbn [fst snd]. apply IH. }
  destruct (isChars chr).
  { rewrite set_pos_reframe. apply IH. }
  destruct (N.eqb chr c_lt); [|reflexivity].
  rewrite tryScanTag_reframe.
  destruct (tryScanTag t) as [[m|] t1]; cbn [fst snd].
  - destruct (opaqueTags_has (group m 1) && group2_not_slash m).
    + rewrite scanToEndTag_reframe.
      destruct (scanToEndTag (group m 1) t1) as [rst t2]. cbn [fst snd].
      now rewrite enqueueLookahead_reframe.
    + now rewrite enqueueLookahead_reframe.
  - rewrite tryScanComment_reframe.
    destruct (tryScanComment t1) as [[cm|] t2]; cbn [fst snd].
    + now rewrite enqueueLookahead_reframe.
    + rewrite set_pos_reframe. apply IH.
Qed.

Lemma scanChars_reframe q p t :
  scanChars (reframe q p t)
  = (fst (scanChars t), reframe q p (snd (scanChars t))).
Proof. unfold scanChars. apply scanChars_loop_reframe. Qed.

Lemma dispatch_reframe q p t :
  dispatch (reframe q p t) = result_map (reframe q p) (dispatch t).
Proof.
  unfold dispatch.
  change (chr_at (reframe q p t)) with (chr_at t).
  change (getLocation (reframe q p t)) with (getLocation t).
  destruct (chr_at t 0) as [chr|].
  2:{ rewrite scanChars_reframe. destruct (scanChars t). cbn [fst snd].
      now rewrite enqueue_reframe. }
  destruct (N.eqb chr c_star);
    [rewrite set_pos_reframe, enqueue_reframe; reflexivity|].
  destruct (N.eqb chr c_underscore);
    [rewrite set_pos_reframe, enqueue_reframe; reflexivity|].
  destruct (N.eqb chr c_tick);
    [rewrite set_pos_reframe, enqueue_reframe; reflexivity|].
  destruct (N.eqb chr c_pipe);
    [rewrite set_pos_reframe, enqueue_reframe; reflexivity|].
  destruct (N.eqb chr c_tilde);
    [rewrite set_pos_reframe, enqueue_reframe; reflexivity|].
  destruct (N.eqb chr c_nl).
  - rewrite set_newline_reframe. cbn [pos str set_newline reframe].
    match goal with |- context [if ?b then _ else _] => destruct b end;
      rewrite set_pos_reframe, enqueue_reframe; reflexivity.
  - destruct (isWhitespace chr).
    { rewrite scanWhitespace_reframe. destruct (scanWhitespace t).
      cbn [fst snd]. now rewrite enqueue_reframe. }
    destruct (isChars chr).
    { rewrite scanChars_reframe. destruct (scanChars t).
      cbn [fst snd]. now rewrite enqueue_reframe. }
    destruct (N.eqb chr c_lt); [|reflexivity].
    destruct (is_chr c_bang (chr_at t 1) && is_chr c_minus (chr_at t 2)
              && is_chr c_minus (chr_at t 3)).
    + rewrite tryScanComment_reframe.
      destruct (tryScanComment t) as [[cm|] t1]; cbn [fst snd].
      * now rewrite enqueue_reframe.
      * rewrite scanChars_reframe. destruct (scanChars t1).
        cbn [fst snd]. now rewrite enqueue_reframe.
    + rewrite tryScanTag_reframe.
      destruct (tryScanTag t) as [[m|] t1]; cbn [fst snd].
      * destruct (opaque_start m).
        -- rewrite scanToEndTag_reframe.
           destruct (scanToEndTag (group m 1) t1). cbn [fst snd].
           now rewrite enqueue_reframe.
        -- now rewrite enqueue_reframe.
      * rewrite scanChars_reframe. destruct (scanChars t1).
        cbn [fst snd]. now rewrite enqueue_reframe.
Qed.

Lemma ws_flush_reframe q p t ws s :
  (if 0 <? length ws then enqueue (reframe q p t) (Tk whitespace ws) s
   else reframe q p t)
  = reframe q p (if 0 <? length ws then enqueue t (Tk whitespace ws) s else t).
Proof. destruct (0 <? length ws); [apply enqueue_reframe|reflexivity]. Qed.

Lemma line_start_reframe q p t :
  line_start (reframe q p t) = sum_map (reframe q p) (line_start t).
Proof.
  unfold line_start.
  rewrite set_newline_reframe, scanWhitespace_reframe.
  change (getLocation (reframe q p (set_newline t false)))
    with (getLocation (set_newline t false)).
  destruct (scanWhitespace (set_newline t false)) as [ws t1]. cbn [fst snd].
  change (chr_at (reframe q p t1)) with (chr_at t1).
  cbn [pos str reframe].
  destruct (length (str t1) <=? pos t1).
  { destruct (0 <? length ws); [|reflexivity].
    now rewrite enqueue_reframe. }
  destruct (match chr_at t1 0 with Some c => is_d c | None => false end).
  { rewrite scanDigits_reframe. destruct (scanDigits t1) as [digits t2].
    cbn [fst snd]. change (chr_at (reframe q p t2)) with (chr_at t2).
    destruct (is_chr c_dot (chr_at t2 0) && is_chr c_space (chr_at t2 1)).
    - rewrite set_pos_reframe, enqueue_reframe. reflexivity.
    - rewrite ws_flush_reframe, scanChars_reframe.
      destruct (scanChars _) as [cs t4]. cbn [fst snd].
      now rewrite enqueue_reframe. }
  destruct (is_chr c_star (chr_at t1 0) && is_chr c_space (chr_at t1 1)).
  { rewrite set_pos_reframe, enqueue_reframe. reflexivity. }
  destruct (is_chr c_lt (chr_at t1 0)).
  { rewrite tryScanTag_reframe.
    destruct (tryScanTag t1) as [[m|] t2]; cbn [fst snd].
    - destruct (opaque_start m).
      + rewrite scanToEndTag_reframe.
        destruct (scanToEndTag (group m 1) t2). cbn [fst snd].
        now rewrite enqueue_reframe.
      + rewrite ws_flush_reframe. now rewrite enqueue_reframe.
    - rewrite tryScanComment_reframe.
      destruct (tryScanComment t2) as [[cm|] t3]; cbn [fst snd].
      + now rewrite enqueue_reframe.
      + reflexivity. }
  destruct (0 <? length ws); [|reflexivity].
  now rewrite enqueue_reframe.
Qed.

(** The tokens [matchToken] queues do not depend on what is already in
    the queue, nor on [previous]. *)
Lemma matchToken_reframe q p t :
  matchToken (reframe q p t) = result_map (reframe q p) (matchToken t).
Proof.
  unfold matchToken. cbn [pos str _newline reframe].
  destruct (pos t =? length (str t)).
  { change (set_eof (reframe q p t) true) with (reframe q p (set_eof t true)).
    rewrite enqueue_reframe. reflexivity. }
  destruct (_newline t); [|apply dispatch_reframe].
  rewrite line_start_reframe.
  destruct (line_start t) as [t1|t1]; [reflexivity|].
  apply dispatch_reframe.
Qed.

(** ** The token stream *)

Lemma wf_new (s : ustring) : wf (new_Tokenizer s).
Proof.
  unfold wf. simpl. repeat split; auto; try lia; discriminate.
Qed.

Lemma matchToken_wf (t : Tokenizer) :
  wf t -> _eof t = false ->
  exists t1, matchToken t = Ok t1 /\ wf t1
             /\ ((pos t = length (str t) /\ eof_post t t1)
                 \/ (pos t < length (str t) /\ step_post proper_name t t1)).
Proof.
  intros (P & L & Q & _) E. specialize (Q E).
  destruct (Nat.eq_dec (pos t) (length (str t))) as [He|Hne].
  - destruct (matchToken_eof t He)
      as (t1 & e & M & A & B & C & D & F & G & H & I & J & K).
    exists t1. split; [exact M|]. rewrite L in H.
    split.
    + unfold wf. rewrite A, F, B, H.
      repeat split; auto; try discriminate.
      intros _. exists (queue t), e. unfold tok_name. rewrite I. auto.
    + left. split; [exact He|]. unfold eof_post.
      repeat split; auto. exists e. auto.
  - destruct (matchToken_step t) as (t1 & M & S & _); [lia|exact L|].
    exists t1. split; [exact M|].
    pose proof S as (A & B & C & D & F & toks & G & H & I).
    split.
    + unfold wf. rewrite A, B, D, G, E.
      repeat split; auto; try lia; try discriminate.
      intros _. apply Forall_app. split; [exact Q|].
      eapply Forall_impl; [|exact I]. intros x X. apply X.
    + right. split; [lia|exact S].
Qed.

Lemma calls_bound_step (t t1 : Tokenizer) :
  _eof t = false ->
  (pos t = length (str t) /\ eof_post t t1)
  \/ (pos t < length (str t) /\ step_post proper_name t t1) ->
  S (calls_bound t1) <= calls_bound t.
Proof.
  unfold calls_bound. intros E [[P (A & B & _)]|[P (A & B & C & D & F & _)]].
  - rewrite B, E. lia.
  - rewrite B, E, A. lia.
Qed.

Lemma drain_done (fuel : nat) :
  forall t, wf t -> calls_bound t <= fuel ->
            _eof (drain fuel t) = true /\ wf (drain fuel t).
Proof.
  induction fuel as [|fuel IH]; intros t W B; simpl.
  - unfold calls_bound in B. destruct (_eof t); [auto|lia].
  - destruct (_eof t) eqn:E; [auto|].
    destruct (matchToken_wf W E) as (t1 & M & W1 & C). rewrite M.
    apply IH; [exact W1|].
    pose proof (calls_bound_step E C). lia.
Qed.

Lemma drain_fuel (f1 : nat) :
  forall f2 t, wf t -> calls_bound t <= f1 -> calls_bound t <= f2 ->
               drain f1 t = drain f2 t.
Proof.
  induction f1 as [|f1 IH]; intros f2 t W B1 B2.
  - unfold calls_bound in B1. destruct (_eof t) eqn:E; [|lia].
    destruct f2; simpl; [reflexivity|]. now rewrite E.
  - destruct f2 as [|f2].
    + unfold calls_bound in B2. destruct (_eof t) eqn:E; [|lia].
      simpl. now rewrite E.
    + simpl. destruct (_eof t) eqn:E; [reflexivity|].
      destruct (matchToken_wf W E) as (t1 & M & W1 & C). rewrite M.
      pose proof (calls_bound_step E C).
      apply IH; [exact W1|lia|lia].
Qed.

Lemma stream_eof (t : Tokenizer) : _eof t = true -> stream t = queue t.
Proof.
  intros E. unfold stream, calls_bound. rewrite E. reflexivity.
Qed.

Lemma stream_matchToken (t t1 : Tokenizer) :
  wf t -> _eof t = false -> matchToken t = Ok t1 -> stream t1 = stream t.
Proof.
  intros W E M. unfold stream at 2.
  destruct (matchToken_wf W E) as (t1' & M' & W1 & C).
  rewrite M in M'. inversion M'; subst t1'.
  pose proof (calls_bound_step E C) as B.
  destruct (calls_bound t) as [|n] eqn:En; [lia|].
  simpl. rewrite E, M. unfold stream.
  f_equal. apply drain_fuel; [exact W1|lia|lia].
Qed.

Lemma drain_reframe q p fuel :
  forall t, drain fuel (reframe q p t) = reframe q p (drain fuel t).
Proof.
  induction fuel as [|fuel IH]; intros t; [reflexivity|].
  simpl. destruct (_eof t); [reflexivity|].
  rewrite matchToken_reframe.
  destruct (matchToken t) as [t1|e]; simpl; [apply IH|reflexivity].
Qed.

Lemma stream_reframe q p t : stream (reframe q p t) = q ++ stream t.
Proof.
  unfold stream. change (calls_bound (reframe q p t)) with (calls_bound t).
  now rewrite drain_reframe.
Qed.

Lemma drain_queue (fuel : nat) :
  forall t, wf t -> exists toks, queue (drain fuel t) = queue t ++ toks.
Proof.
  induction fuel as [|fuel IH]; intros t W; simpl.
  - exists []. now rewrite app_nil_r.
  - destruct (_eof t) eqn:E; [exists []; now rewrite app_nil_r|].
    destruct (matchToken_wf W E) as (t1 & M & W1 & C). rewrite M.
    destruct (IH t1 W1) as (toks & Q). rewrite Q.
    destruct C as [[_ (_ & _ & _ & _ & _ & e & Q1 & _)]
                  |[_ (_ & _ & _ & _ & _ & toks1 & Q1 & _)]];
      rewrite Q1, <- app_assoc; eauto.
Qed.

Lemma stream_queue (t : Tokenizer) :
  wf t -> exists toks, stream t = queue t ++ toks.
Proof. intros W. apply drain_queue. exact W. Qed.

(** The stream is a run of proper tokens closed by one EOF token. *)
Lemma stream_shape (t : Tokenizer) :
  wf t ->
  exists body e, stream t = body ++ [e] /\ tok_name e = EOF
                 /\ Forall (fun x => tok_name x <> EOF) body.
Proof.
  intros W. destruct (@drain_done (calls_bound t) t W (le_n _)) as (E & W1).
  destruct W1 as (_ & _ & _ & Q). apply Q. exact E.
Qed.

(** ** [peek] and [next] on the stream *)

Lemma peek_loop_spec (dist fuel : nat) :
  forall t, wf t -> calls_bound t <= fuel ->
    exists t1, peek_loop fuel dist t = Ok t1 /\ wf t1
               /\ stream t1 = stream t /\ str t1 = str t
               /\ previous t1 = previous t
               /\ (_eof t1 = true \/ dist <= length (queue t1)).
Proof.
  induction fuel as [|fuel IH]; intros t W B.
  - exists t. unfold calls_bound in B.
    destruct (_eof t) eqn:E; [|lia]. simpl. auto 10.
  - simpl. destruct (_eof t) eqn:E; simpl.
    { exists t. auto 10. }
    destruct (Nat.ltb_spec (length (queue t)) dist).
    2:{ exists t. auto 10. }
    destruct (matchToken_wf W E) as (t1 & M & W1 & C). rewrite M. simpl.
    pose proof (calls_bound_step E C) as B1.
    destruct (IH t1 W1) as (t2 & P & W2 & Hs & A & Pr & D); [lia|].
    exists t2. rewrite Hs, A, Pr.
    rewrite (stream_matchToken W E M).
    assert (str t1 = str t /\ previous t1 = previous t) as [-> ->].
    { destruct C as [[_ C]|[_ C]]; split; apply C. }
    auto 10.
Qed.

Lemma nth_error_last (A : Type) (q : list A) (e : A) :
  nth_error (q ++ [e]) (length (q ++ [e]) - 1) = Some e.
Proof.
  rewrite length_app. simpl. rewrite Nat.add_sub.
  rewrite nth_error_app2, Nat.sub_diag; [reflexivity|lia].
Qed.

(** [peek dist] returns the token [dist] places ahead in the stream, or
    the EOF token that closes the stream when [dist] is beyond it, and
    leaves the stream as it is. *)
Lemma peek_spec (dist : nat) (t : Tokenizer) :
  wf t -> 1 <= dist ->
  exists tk t1,
    peek dist t = Ok (Some tk, t1) /\ wf t1 /\ stream t1 = stream t
    /\ str t1 = str t
    /\ ((nth_error (stream t) (dist - 1) = Some tk
         /\ nth_error (queue t1) (dist - 1) = Some tk)
        \/ (length (stream t) < dist /\ tok_name tk = EOF
            /\ nth_error (stream t) (length (stream t) - 1) = Some tk)).
Proof.
  intros W D. unfold peek.
  destruct (@peek_loop_spec dist (S (length (str t) - pos t)) t W)
    as (t1 & P & W1 & Hs & A & _ & C).
  { unfold calls_bound. destruct (_eof t); lia. }
  rewrite P. simpl.
  destruct (Nat.ltb_spec (length (queue t1)) dist) as [Hlt|Hge].
  - destruct C as [E|C]; [|lia].
    pose proof (stream_eof t1 E) as Sq. rewrite Hs in Sq.
    pose proof W1 as (W1a & W1b & W1c & W1d).
    destruct (W1d E) as (q & e & Q & N & F).
    exists e, t1. rewrite Q at 1 2. rewrite nth_error_last.
    split; [reflexivity|]. split; [exact W1|]. split; [exact Hs|].
    split; [exact A|]. right.
    rewrite Sq. split; [exact Hlt|]. split; [exact N|].
    rewrite Q at 1 2. apply nth_error_last.
  - destruct dist as [|d]; [lia|].
    destruct (nth_error (queue t1) d) as [tk|] eqn:En.
    2:{ apply nth_error_None in En. lia. }
    exists tk, t1.
    split; [reflexivity|]. split; [exact W1|]. split; [exact Hs|].
    split; [exact A|]. left.
    simpl. rewrite Nat.sub_0_r. split; [|exact En].
    destruct (stream_queue W1) as (toks & Q).
    rewrite <- Hs, Q. rewrite nth_error_app1; [exact En|lia].
Qed.

Lemma reframe_nil_previous (t : Tokenizer) (p : option Token) :
  set_previous t p = reframe [] p t.
Proof. destruct t; reflexivity. Qed.

Lemma reframe_dequeue (t : Tokenizer) (x : Token) (l : list Token) :
  queue t = x :: l ->
  t = reframe [x] (previous t) (set_queue t l).
Proof. destruct t; simpl. intros ->. reflexivity. Qed.

Lemma wf_set_previous (t : Tokenizer) (p : option Token) :
  wf t -> wf (set_previous t p).
Proof. unfold wf. simpl. auto. Qed.

Lemma wf_dequeue (t : Tokenizer) (x : Token) (l : list Token) :
  wf t -> queue t = x :: l -> tok_name x <> EOF -> wf (set_queue t l).
Proof.
  intros (A & B & C & D) Q N. unfold wf. simpl.
  repeat split; auto.
  - intros E. specialize (C E). rewrite Q in C. now inversion C.
  - intros E. destruct (D E) as (q & e & Qe & Ne & F).
    rewrite Q in Qe. destruct q as [|y q]; simpl in Qe.
    + inversion Qe; subst. contradiction.
    + inversion Qe; subst. inversion F; subst. eauto.
Qed.

Lemma TokenName_eqb_eq (a b : TokenName) :
  TokenName_eqb a b = true <-> a = b.
Proof. destruct a, b; simpl; split; intros H; try discriminate; reflexivity. Qed.

(** [next] returns the head of the stream and removes it, unless it is
    the EOF token, which stays. *)
Lemma next_spec (t : Tokenizer) :
  wf t ->
  exists tk t1 rst,
    next t = Ok (tk, t1) /\ wf t1 /\ str t1 = str t
    /\ stream t = tk :: rst
    /\ ((tok_name tk <> EOF /\ stream t1 = rst)
        \/ (tok_name tk = EOF /\ rst = [] /\ stream t1 = stream t)).
Proof.
  intros W. unfold next.
  destruct (@peek_spec 1 t W (le_n _)) as (tk & t1 & P & W1 & Hs & A & C).
  rewrite P. simpl.
  destruct (stream_shape W) as (body & e & Sh & Ne & Fb).
  assert (H0 : nth_error (stream t) 0 = Some tk).
  { destruct C as [[C _]|(C & _)]; [exact C|].
    rewrite Sh, length_app in C. simpl in C. lia. }
  destruct (stream t) as [|x rst] eqn:Es; [discriminate|].
  simpl in H0. inversion H0; subst x. clear H0.
  destruct (TokenName_eqb (tok_name tk) EOF) eqn:En; simpl.
  - apply TokenName_eqb_eq in En.
    exists tk, (set_previous t1 (Some tk)), rst.
    split; [reflexivity|]. split; [now apply wf_set_previous|].
    split; [exact A|]. split; [reflexivity|]. right.
    split; [exact En|]. split.
    + destruct body as [|y body]; simpl in Sh.
      * now inversion Sh.
      * inversion Sh; subst. inversion Fb; subst. contradiction.
    + rewrite reframe_nil_previous, stream_reframe. exact Hs.
  - assert (N : tok_name tk <> EOF).
    { intros X. apply TokenName_eqb_eq in X. congruence. }
    destruct C as [[_ C]|(_ & C & _)]; [|contradiction].
    simpl in C. destruct (queue t1) as [|x l] eqn:Q; [discriminate|].
    simpl in C. inversion C; subst x. clear C.
    exists tk, (set_queue (set_previous t1 (Some tk)) l), rst.
    split.
    { reflexivity. }
    assert (R : set_queue (set_previous t1 (Some tk)) l
                = reframe [] (Some tk) (set_queue t1 l)).
    { destruct t1; reflexivity. }
    split.
    { rewrite R, <- reframe_nil_previous. apply wf_set_previous.
      eapply wf_dequeue; eauto. }
    split; [exact A|]. split; [reflexivity|]. left.
    split; [exact N|].
    rewrite R, stream_reframe. simpl.
    rewrite (reframe_dequeue t1 Q), stream_reframe in Hs.
    simpl in Hs. now inversion Hs.
Qed.

Lemma nexts_spec (n : nat) :
  forall t, wf t -> nexts n t = Ok (deliver n (stream t)).
Proof.
  induction n as [|n IH]; intros t W; [reflexivity|].
  cbn [nexts].
  destruct (next_spec W) as (tk & t1 & rst & N & W1 & _ & Hs & C).
  rewrite N. cbn [bind fst snd]. rewrite (IH t1 W1). cbn [bind].
  rewrite Hs.
  destruct C as [[Ne ->]|(Ne & -> & ->)].
  - destruct (stream_shape W) as (body & e & Sh & Ee & _).
    rewrite Hs in Sh.
    destruct rst as [|y rst]; [|reflexivity].
    destruct body as [|b body]; simpl in Sh.
    + inversion Sh; subst. contradiction.
    + inversion Sh as [[Hb Hr]]. destruct body; discriminate.
  - rewrite Hs. reflexivity.
Qed.

Lemma deliver_length (n : nat) :
  forall l, l <> [] -> length (deliver n l) = n.
Proof.
  induction n as [|n IH]; intros l H; simpl; [reflexivity|].
  destruct l as [|x [|y l]]; [contradiction| |];
    simpl; f_equal; apply IH; discriminate.
Qed.

Lemma deliver_nth (n : nat) :
  forall (body : list Token) (e : Token) (i : nat),
    i < n ->
    nth_error (deliver n (body ++ [e])) i
    = if i <? length body then nth_error body i else Some e.
Proof.
  induction n as [|n IH]; intros body e i H; [lia|].
  destruct body as [|b body]; simpl.
  - destruct i as [|i]; [reflexivity|].
    simpl. pose proof (IH [] e i ltac:(lia)) as X. simpl in X. exact X.
  - destruct (body ++ [e]) as [|y l] eqn:E.
    { destruct body; discriminate. }
    rewrite <- E. destruct i as [|i]; [reflexivity|].
    simpl. rewrite IH; [|lia].
    change (S i <? S (length body)) with (i <? length body). reflexivity.
Qed.

Lemma drain_potential (fuel : nat) :
  forall t, wf t -> potential (drain fuel t) <= potential t.
Proof.
  induction fuel as [|fuel IH]; intros t W; simpl; [lia|].
  destruct (_eof t) eqn:E; [lia|].
  destruct (matchToken_wf W E) as (t1 & M & W1 & C). rewrite M.
  specialize (IH t1 W1). unfold potential in *. rewrite E.
  destruct C as [[P (A & B & _ & D & _ & e & Q & _)]
                |[P (A & B & _ & _ & D & toks & Q & L & _)]].
  - rewrite A, B, D, Q, length_app in IH. simpl in IH. lia.
  - rewrite A, B, E, Q, length_app in IH. lia.
Qed.

Lemma stream_length (t : Tokenizer) :
  wf t -> length (stream t) <= potential t.
Proof.
  intros W. pose proof (drain_potential (calls_bound t) W) as P.
  unfold stream. unfold potential at 1 in P. lia.
Qed.

Lemma deliver_cons (n : nat) (tk : Token) (rst : list Token) :
  rst <> [] -> deliver (S n) (tk :: rst) = tk :: deliver n rst.
Proof. destruct rst; [contradiction|reflexivity]. Qed.

Lemma run_spec (cs : list call) :
  forall t, wf t -> forallb positive_dist cs = true ->
    exists t',
      run cs t = Ok (deliver (count_next cs) (stream t), t')
      /\ wf t' /\ str t' = str t
      /\ length (stream t') <= length (stream t).
Proof.
  induction cs as [|c cs IH]; intros t W F.
  - exists t. simpl. auto.
  - simpl in F. apply andb_true_iff in F. destruct F as [Fc F].
    destruct c as [dist|]; cbn [run count_next].
    + unfold positive_dist in Fc. apply Nat.leb_le in Fc.
      destruct (peek_spec W Fc) as (tk & t1 & P & W1 & Hs & A & _).
      rewrite P. cbn [bind snd].
      destruct (IH t1 W1 F) as (t' & R & W' & A' & L).
      exists t'. rewrite R, Hs, A' in *. auto.
    + destruct (next_spec W) as (tk & t1 & rst & N & W1 & A & Hs & C).
      rewrite N. cbn [bind fst snd].
      destruct (IH t1 W1 F) as (t' & R & W' & A' & L).
      rewrite R. cbn [bind fst snd].
      exists t'. rewrite A', A.
      split; [|split; [exact W'|split; [reflexivity|]]].
      * rewrite Hs.
        destruct C as [[Ne C]|(Ne & -> & C)].
        -- rewrite C. rewrite deliver_cons; [reflexivity|].
           destruct (stream_shape W1) as (body & e & Sh & _).
           rewrite C in Sh. destruct body; rewrite Sh; discriminate.
        -- rewrite C, Hs. reflexivity.
      * destruct C as [[Ne C]|(Ne & -> & C)]; rewrite C in L.
        -- rewrite Hs. simpl. lia.
        -- exact L.
Qed.

(** ** The loop bounds are enough *)

Lemma scanChars_loop_fuel (f1 : nat) :
  forall f2 t out,
    pos t <= length (str t) ->
    length (str t) - pos t <= f1 -> length (str t) - pos t <= f2 ->
    scanChars_loop f1 t out = scanChars_loop f2 t out.
Proof.
  induction f1 as [|f1 IH]; intros f2 t out P B1 B2.
  - destruct f2 as [|f2]; [reflexivity|]. cbn [scanChars_loop].
    destruct (chr_at t 0) eqn:E; [|reflexivity].
    apply chr_at_0_lt in E. lia.
  - cbn [scanChars_loop].
    destruct (chr_at t 0) as [chr|] eqn:E.
    2:{ destruct f2; cbn [scanChars_loop]; [|rewrite E]; reflexivity. }
    pose proof (chr_at_0_lt _ E) as Hlt.
    destruct f2 as [|f2]; [lia|]. cbn [scanChars_loop]. rewrite E.
    assert (step : forall p o,
               pos t < p <= length (str t) ->
               scanChars_loop f1 (set_pos t p) o
               = scanChars_loop f2 (set_pos t p) o).
    { intros p o Hp. apply IH; fields; lia. }
    destruct (N.eqb chr c_bslash).
    { destruct (scanEscape_spec t Hlt) as (e & p & Ee & Hp & _).
      rewrite Ee. apply step. lia. }
    destruct (isChars chr); [apply step; lia|].
    destruct (N.eqb chr c_lt); [|reflexivity].
    destruct (tryScanTag_spec t) as [Et|(m & tl & Et & _)]; rewrite Et;
      [|reflexivity].
    destruct (tryScanComment_spec t) as [Ec|(cm & tl & Ec & _)]; rewrite Ec;
      [|reflexivity].
    apply step. lia.
Qed.

Lemma scanToEndTag_loop_fuel (e : option ustring) (f1 : nat) :
  forall f2 t,
    pos t <= length (str t) ->
    length (str t) - pos t <= f1 -> length (str t) - pos t <= f2 ->
    scanToEndTag_loop f1 e t = scanToEndTag_loop f2 e t.
Proof.
  induction f1 as [|f1 IH]; intros f2 t P B1 B2.
  - destruct f2 as [|f2]; [reflexivity|]. cbn [scanToEndTag_loop].
    destruct (Nat.ltb_spec (pos t) (length (str t))); [lia|reflexivity].
  - cbn [scanToEndTag_loop].
    destruct (Nat.ltb_spec (pos t) (length (str t))) as [Hlt|Hge].
    2:{ destruct f2; cbn [scanToEndTag_loop]; [reflexivity|].
        destruct (Nat.ltb_spec (pos t) (length (str t))); [lia|reflexivity]. }
    destruct f2 as [|f2]; [lia|]. cbn [scanToEndTag_loop].
    destruct (Nat.ltb_spec (pos t) (length (str t))); [|lia].
    destruct (tryScanTag_spec t) as [Et|(m & tl & Et & _ & Hm & Hr & _)];
      rewrite Et.
    + apply IH; fields; lia.
    + destruct (is_end_tag e m); [reflexivity|].
      pose proof (rest_app_pos _ _ _ P Hr) as Hle.
      rewrite Hm in *. simpl in Hle.
      apply IH; fields; simpl; lia.
Qed.

Lemma peek_loop_fuel (dist f1 : nat) :
  forall f2 t, wf t -> calls_bound t <= f1 -> calls_bound t <= f2 ->
               peek_loop f1 dist t = peek_loop f2 dist t.
Proof.
  induction f1 as [|f1 IH]; intros f2 t W B1 B2.
  - unfold calls_bound in B1. destruct (_eof t) eqn:E; [|lia].
    destruct f2; simpl; [reflexivity|]. now rewrite E.
  - destruct f2 as [|f2].
    + unfold calls_bound in B2. destruct (_eof t) eqn:E; [|lia].
      simpl. now rewrite E.
    + simpl. destruct (_eof t) eqn:E; [reflexivity|]. simpl.
      destruct (length (queue t) <? dist); [|reflexivity].
      destruct (matchToken_wf W E) as (t1 & M & W1 & C). rewrite M.
      pose proof (calls_bound_step E C). simpl.
      apply IH; [exact W1|lia|lia].
Qed.

(** ** Lookahead and consumption *)

(** C6: on every input, after any sequence of calls of [peek] (with
    positive distances) and [next]: the calls of [next] returned what
    calls of [next] alone return; a further [peek k] does not fail,
    returns the token that the [k]-th following [next] returns (for
    [k] = 1, the token of the following [next]), leaves the results of
    the following calls of [next] as they were, and returns the EOF
    token when [k] is greater than the length of the input. *)
Theorem peek_next_independence (s : ustring) (cs : list call) :
  forallb positive_dist cs = true ->
  exists l t',
    run cs (new_Tokenizer s) = Ok (l, t')
    /\ nexts (count_next cs) (new_Tokenizer s) = Ok l
    /\ forall k, 1 <= k ->
         exists tk t1 l',
           peek k t' = Ok (Some tk, t1)
           /\ nexts k t' = Ok l' /\ nexts k t1 = Ok l'
           /\ nth_error l' (k - 1) = Some tk
           /\ (length s < k -> tok_name tk = EOF).
Proof.
  intros F.
  destruct (@run_spec cs (new_Tokenizer s) (wf_new s) F) as (t' & R & W & A & L).
  exists (deliver (count_next cs) (stream (new_Tokenizer s))), t'.
  split; [exact R|]. split; [apply nexts_spec, wf_new|].
  intros k K.
  destruct (peek_spec W K) as (tk & t1 & P & W1 & Hs & _ & C).
  exists tk, t1, (deliver k (stream t')).
  split; [exact P|]. split; [apply nexts_spec, W|].
  split; [rewrite <- Hs; apply nexts_spec, W1|].
  destruct (stream_shape W) as (body & e & Sh & Ne & _).
  pose proof (stream_length (wf_new s)) as SL.
  unfold potential in SL. simpl in SL.
  rewrite Sh in *. rewrite length_app in *. simpl in L, SL.
  rewrite deliver_nth; [|lia].
  destruct C as [[C _]|(C1 & C2 & C3)].
  - destruct (Nat.ltb_spec (k - 1) (length body)) as [Hlt|Hge].
    + rewrite nth_error_app1 in C; [|exact Hlt].
      split; [exact C|lia].
    + assert (k - 1 = length body).
      { assert (k - 1 < length (body ++ [e])).
        { apply nth_error_Some. congruence. }
        rewrite length_app in *. simpl in *. lia. }
      rewrite nth_error_app2, H, Nat.sub_diag in C; [|lia].
      simpl in C. inversion C; subst. auto.
  - simpl in C1, C3. rewrite Nat.add_sub in C3.
    rewrite nth_error_app2, Nat.sub_diag in C3; [|lia].
    simpl in C3. inversion C3; subst.
    destruct (Nat.ltb_spec (k - 1) (length body)); [lia|]. auto.
Qed.

Lemma peek_next_independence_witness :
  forallb positive_dist [Peek 2; Next; Peek 1; Peek 3; Next] = true
  /\ exists l t',
       run [Peek 2; Next; Peek 1; Peek 3; Next] (new_Tokenizer (lit "a *b* c"))
       = Ok (l, t')
       /\ nexts 2 (new_Tokenizer (lit "a *b* c")) = Ok l
       /\ forall k, 1 <= k ->
            exists tk t1 l',
              peek k t' = Ok (Some tk, t1)
              /\ nexts k t' = Ok l' /\ nexts k t1 = Ok l'
              /\ nth_error l' (k - 1) = Some tk
              /\ (length (lit "a *b* c") < k -> tok_name tk = EOF).
Proof.
  split; [reflexivity|].
  apply (@peek_next_independence (lit "a *b* c")
           [Peek 2; Next; Peek 1; Peek 3; Next]).
  reflexivity.
Defined.

(** ** Termination *)

(** C9: a call of [matchToken] at the end of the input sets [_eof];
    anywhere else it queues at least one token and strictly advances
    [pos], without passing the end.  So the calls of [next] reach the
    EOF token: for some [n] of at most the length of the input plus
    one, the [n]-th call returns it. *)
Theorem tokenization_terminates :
  (forall t : Tokenizer,
      pos t <= length (str t) -> _lookahead t = [] ->
      exists t1,
        matchToken t = Ok t1
        /\ ((pos t = length (str t) /\ _eof t1 = true)
            \/ (length (queue t) < length (queue t1)
                /\ pos t < pos t1 <= length (str t))))
  /\ (forall s : ustring,
         exists n l e,
           1 <= n <= length s + 1
           /\ nexts n (new_Tokenizer s) = Ok l
           /\ nth_error l (n - 1) = Some e /\ tok_name e = EOF).
Proof.
  split.
  - intros t P L.
    destruct (Nat.eq_dec (pos t) (length (str t))) as [He|Hne].
    + destruct (matchToken_eof t He) as (t1 & e & M & _ & B & _).
      exists t1. split; [exact M|]. left. auto.
    + destruct (matchToken_step t)
        as (t1 & M & (A & B & C & D & F & toks & G & H & I) & _);
        [lia|exact L|].
      exists t1. split; [exact M|]. right.
      rewrite G, length_app. split; lia.
  - intros s.
    destruct (stream_shape (wf_new s)) as (body & e & Sh & Ne & _).
    pose proof (stream_length (wf_new s)) as SL.
    unfold potential in SL. simpl in SL.
    rewrite Sh, length_app in SL. simpl in SL.
    exists (S (length body)), (deliver (S (length body)) (body ++ [e])), e.
    split; [lia|]. split; [rewrite <- Sh; apply nexts_spec, wf_new|].
    split; [|exact Ne].
    rewrite deliver_nth; [|lia]. simpl. rewrite Nat.sub_0_r.
    now rewrite Nat.ltb_irrefl.
Qed.

Lemma tokenization_terminates_witness :
  pos (new_Tokenizer (lit "a*")) <= length (str (new_Tokenizer (lit "a*")))
  /\ _lookahead (new_Tokenizer (lit "a*")) = []
  /\ exists t1,
       matchToken (new_Tokenizer (lit "a*")) = Ok t1
       /\ ((pos (new_Tokenizer (lit "a*"))
            = length (str (new_Tokenizer (lit "a*")))
            /\ _eof t1 = true)
           \/ (length (queue (new_Tokenizer (lit "a*"))) < length (queue t1)
               /\ pos (new_Tokenizer (lit "a*")) < pos t1
                  <= length (str (new_Tokenizer (lit "a*"))))).
Proof.
  split; [simpl; lia|]. split; [reflexivity|].
  apply (proj1 tokenization_terminates (new_Tokenizer (lit "a*")));
    [simpl; lia|reflexivity].
Defined.

(** ** Backslash escapes *)

Lemma escapable_iff (chr : char) :
  isFormat chr || N.eqb chr c_bslash = true <-> In chr escapable.
Proof.
  unfold isFormat, escapable. simpl.
  rewrite !orb_true_iff, !N.eqb_eq. intuition congruence.
Qed.

(** What [scanEscape] yields for the character behind the backslash. *)
Lemma scanEscape_at (t : Tokenizer) (chr : char) :
  chr_at t 0 = Some c_bslash -> chr_at t 1 = Some chr ->
  scanEscape t
  = (if isFormat chr || N.eqb chr c_bslash then [chr] else [c_bslash; chr],
     set_pos t (S (S (pos t)))).
Proof.
  intros H0 H1. pose proof (chr_at_lt _ _ H1) as Hlt1.
  assert (E1 : chr_at (set_pos t (S (pos t))) 0 = chr_at t 1).
  { unfold chr_at. cbn [pos str set_pos].
    replace (S (pos t) + 0) with (pos t + 1) by lia. reflexivity. }
  unfold scanEscape. cbn [pos str set_pos].
  destruct (Nat.eqb_spec (S (pos t)) (length (str t))); [lia|].
  rewrite E1, H1.
  destruct (isFormat chr || N.eqb chr c_bslash); reflexivity.
Qed.

(** At a backslash [scanChars] appends what [scanEscape] yields and
    goes on. *)
Lemma scanChars_loop_escape (t : Tokenizer) (fuel : nat) (out : ustring) :
  chr_at t 0 = Some c_bslash ->
  scanChars_loop (S fuel) t out
  = scanChars_loop fuel (snd (scanEscape t)) (out ++ fst (scanEscape t)).
Proof.
  intros H0. cbn [scanChars_loop]. rewrite H0.
  change (N.eqb c_bslash c_bslash) with true. cbv iota.
  destruct (scanEscape t). reflexivity.
Qed.

(** C3 as the code has it: at a backslash, [scanEscape] consumes the
    backslash and the character after it; it yields that character
    alone when it is one of the six format characters (the five
    delimiters and [<]) or a backslash, the backslash followed by the
    character otherwise, and a single backslash when the backslash is
    the last character of the input.  [scanChars] appends what
    [scanEscape] yields to the text it is scanning and goes on. *)
Theorem scanEscape_emits (t : Tokenizer) :
  chr_at t 0 = Some c_bslash ->
  (chr_at t 1 = None -> scanEscape t = ([c_bslash], set_pos t (S (pos t))))
  /\ (forall chr, chr_at t 1 = Some chr ->
        (In chr escapable ->
         scanEscape t = ([chr], set_pos t (S (S (pos t)))))
        /\ (~ In chr escapable ->
            scanEscape t = ([c_bslash; chr], set_pos t (S (S (pos t))))))
  /\ (forall fuel out,
        scanChars_loop (S fuel) t out
        = scanChars_loop fuel (snd (scanEscape t)) (out ++ fst (scanEscape t))).
Proof.
  intros H0. pose proof (chr_at_0_lt _ H0) as Hlt.
  split; [|split].
  - intros H1. unfold scanEscape. cbn [pos str set_pos].
    destruct (Nat.eqb_spec (S (pos t)) (length (str t))); [reflexivity|].
    unfold chr_at in H1. apply nth_error_None in H1. lia.
  - intros chr H1. rewrite (@scanEscape_at t chr H0 H1).
    destruct (isFormat chr || N.eqb chr c_bslash) eqn:E.
    + apply escapable_iff in E. split; [reflexivity|contradiction].
    + split; [|reflexivity]. intros I. apply escapable_iff in I. congruence.
  - intros fuel out. apply scanChars_loop_escape. exact H0.
Qed.

Lemma scanEscape_emits_witness :
  chr_at (new_Tokenizer (c_bslash :: lit "*a")) 0 = Some c_bslash
  /\ scanEscape (new_Tokenizer (c_bslash :: lit "*a"))
     = ([c_star], set_pos (new_Tokenizer (c_bslash :: lit "*a")) 2).
Proof.
  split; [reflexivity|].
  apply (proj1 (proj2 (@scanEscape_emits
                         (new_Tokenizer (c_bslash :: lit "*a")) eq_refl))
           c_star eq_refl).
  simpl. tauto.
Defined.

(** C3 as stated fails for [<]: it is none of the five delimiters nor a
    backslash, and yet the backslash before it is dropped. *)
Lemma scanEscape_lt_counterexample :
  chr_at (new_Tokenizer (c_bslash :: lit "<a")) 0 = Some c_bslash
  /\ chr_at (new_Tokenizer (c_bslash :: lit "<a")) 1 = Some c_lt
  /\ ~ In c_lt delimiters_and_backslash
  /\ fst (scanEscape (new_Tokenizer (c_bslash :: lit "<a"))) = [c_lt]
  /\ fst (scanEscape (new_Tokenizer (c_bslash :: lit "<a")))
     <> [c_bslash; c_lt]
  /\ tokens 2 (c_bslash :: lit "<a")
     = Some [(text, Some (lit "<a")); (EOF, None)].
Proof.
  repeat split; try reflexivity.
  - simpl. intros H. repeat destruct H as [H|H]; try discriminate. exact H.
  - discriminate.
Qed.

(** ** Coverage *)

(** C1 fails on the input made of a space and [<]: it has no backslash,
    its tokens are a text token [<] and the EOF token, and the space is
    in neither.  At a line start the white space is held back, and the
    path on which [<] starts neither a tag nor a comment falls through
    to the generic dispatch without queueing it. *)
Theorem coverage_loses_held_whitespace :
  existsb (N.eqb c_bslash) (lit " <") = false
  /\ tokens 2 (lit " <") = Some [(text, Some (lit "<")); (EOF, None)]
  /\ contents_concat 2 (lit " <") = Some (lit "<")
  /\ lit "<" <> lit " <".
Proof. repeat split; try reflexivity. discriminate. Qed.

(** ** Runs of plain characters *)


Lemma set_pos_add_0 (t : Tokenizer) : set_pos t (pos t + 0) = t.
Proof. rewrite Nat.add_0_r. apply set_pos_same. Qed.

Lemma scanChars_loop_plain (pre : ustring) :
  forall t out fuel s,
    rest t = pre ++ s -> forallb plain pre = true -> length pre <= fuel ->
    scanChars_loop fuel t out
    = scanChars_loop (fuel - length pre) (set_pos t (pos t + length pre))
        (out ++ pre).
Proof.
  induction pre as [|c pre IH]; intros t out fuel s R P F.
  - simpl. now rewrite set_pos_add_0, Nat.sub_0_r, app_nil_r.
  - simpl in R, P, F. apply andb_true_iff in P. destruct P as [Pc P].
    unfold plain in Pc. apply andb_true_iff in Pc. destruct Pc as [Ci Cb].
    apply negb_true_iff in Cb.
    destruct (rest_cons _ R) as (E0 & R1 & _).
    destruct fuel as [|fuel]; [lia|].
    cbn [scanChars_loop]. rewrite E0, Cb, Ci.
    rewrite (IH _ (out ++ [c]) fuel s R1 P); [|lia].
    cbn [pos set_pos length]. rewrite <- app_assoc. simpl.
    replace (pos t + S (length pre)) with (S (pos t + length pre)) by lia.
    reflexivity.
Qed.

Lemma scanChars_loop_out (fuel : nat) :
  forall t out,
    scanChars_loop fuel t out
    = (out ++ fst (scanChars_loop fuel t []), snd (scanChars_loop fuel t [])).
Proof.
  induction fuel as [|fuel IH]; intros t out.
  - simpl. now rewrite app_nil_r.
  - cbn [scanChars_loop].
    destruct (chr_at t 0) as [chr|]; [|simpl; now rewrite app_nil_r].
    destruct (N.eqb chr c_bslash).
    { destruct (scanEscape t) as [e t1].
      rewrite (IH t1 (out ++ e)), (IH t1 ([] ++ e)). simpl.
      now rewrite app_assoc. }
    destruct (isChars chr).
    { rewrite (IH _ (out ++ [chr])), (IH _ ([] ++ [chr])). simpl.
      now rewrite <- app_assoc. }
    destruct (N.eqb chr c_lt); [|simpl; now rewrite app_nil_r].
    destruct (tryScanTag t) as [[m|] t1].
    { destruct (opaqueTags_has (group m 1) && group2_not_slash m).
      - destruct (scanToEndTag (group m 1) t1). simpl. now rewrite app_nil_r.
      - simpl. now rewrite app_nil_r. }
    destruct (tryScanComment t1) as [[cm|] t2].
    { simpl. now rewrite app_nil_r. }
    rewrite (IH _ (out ++ [chr])), (IH _ ([] ++ [chr])). simpl.
    now rewrite <- app_assoc.
Qed.





Lemma enqueue_token (t : Tokenizer) (u : Unlocated) (p : Position) :
  exists tk,
    queue (enqueue t u p) = queue t ++ tk :: _lookahead t
    /\ tok tk = u /\ start (location tk) = p
    /\ end_ (location tk) = getLocation (enqueue t u p).
Proof.
  unfold enqueue, locate.
  destruct (name u); cbn [fst snd];
    cbn [_lookahead queue set_queue set_line_column];
    (destruct (_lookahead t) as [|x l];
     [eexists; repeat split
     |eexists; rewrite <- app_assoc; repeat split]).
Qed.

(** Away from a line start [matchToken] queues no list marker. *)
Lemma matchToken_midline (t t1 : Tokenizer) :
  pos t <= length (str t) -> _lookahead t = [] -> _newline t = false ->
  matchToken t = Ok t1 ->
  exists toks, queue t1 = queue t ++ toks /\ Forall not_marker toks.
Proof.
  intros P L N M.
  destruct (Nat.eq_dec (pos t) (length (str t))) as [He|Hne].
  - destruct (matchToken_eof t He)
      as (t1' & e & M' & _ & _ & _ & _ & _ & _ & Q & U & _).
    rewrite M in M'. inversion M'; subst t1'.
    rewrite L in Q. exists [e]. split; [exact Q|].
    constructor; [|constructor]. unfold not_marker, tok_name.
    rewrite U. split; discriminate.
  - destruct (matchToken_step t) as (t1' & M' & _ & D); [lia|exact L|].
    rewrite M in M'. inversion M'; subst t1'.
    destruct (D N) as (_ & _ & _ & _ & _ & toks & Q & _ & F).
    exists toks. split; [exact Q|].
    eapply Forall_impl; [|exact F].
    intros x (Nx & _). unfold not_marker. unfold dispatch_name in Nx. tauto.
Qed.

(** ** Backslash before a newline *)




(** ** The newline flag *)

Lemma enqueue_newline (t : Tokenizer) (u : Unlocated) (p : Position) :
  _newline (enqueue t u p) = _newline t.
Proof. apply enqueue_fields. Qed.

Lemma scanChars_newline (t : Tokenizer) :
  pos t <= length (str t) -> _newline (snd (scanChars t)) = _newline t.
Proof.
  intros H. destruct (scanChars_spec t H) as (la & K & _). apply K.
Qed.

Lemma dispatch_newline (t t1 : Tokenizer) :
  pos t <= length (str t) -> dispatch t = Ok t1 ->
  _newline t1 = _newline t || is_chr c_nl (chr_at t 0).
Proof.
  intros H. unfold dispatch.
  pose proof (scanChars_newline t H) as Sc.
  destruct (chr_at t 0) as [chr|] eqn:Ec.
  2:{ destruct (scanChars t). intros E. inversion E; subst.
      rewrite enqueue_newline. simpl in *. now rewrite Sc, orb_false_r. }
  cbn [is_chr].
  destruct (N.eqb chr c_star) eqn:E1.
  { intros E. inversion E. rewrite enqueue_newline. simpl.
    apply N.eqb_eq in E1. subst. now rewrite orb_false_r. }
  destruct (N.eqb chr c_underscore) eqn:E2.
  { intros E. inversion E. rewrite enqueue_newline. simpl.
    apply N.eqb_eq in E2. subst. now rewrite orb_false_r. }
  destruct (N.eqb chr c_tick) eqn:E3.
  { intros E. inversion E. rewrite enqueue_newline. simpl.
    apply N.eqb_eq in E3. subst. now rewrite orb_false_r. }
  destruct (N.eqb chr c_pipe) eqn:E4.
  { intros E. inversion E. rewrite enqueue_newline. simpl.
    apply N.eqb_eq in E4. subst. now rewrite orb_false_r. }
  destruct (N.eqb chr c_tilde) eqn:E5.
  { intros E. inversion E. rewrite enqueue_newline. simpl.
    apply N.eqb_eq in E5. subst. now rewrite orb_false_r. }
  destruct (N.eqb chr c_nl) eqn:E6.
  { rewrite orb_true_r.
    match goal with |- context [if ?b then _ else _] => destruct b end;
      intros E; inversion E; now rewrite enqueue_newline. }
  rewrite orb_false_r.
  destruct (isWhitespace chr).
  { rewrite scanWhitespace_eq. intros E. inversion E.
    now rewrite enqueue_newline. }
  destruct (isChars chr).
  { destruct (scanChars t). intros E. inversion E.
    rewrite enqueue_newline. exact Sc. }
  destruct (N.eqb chr c_lt); [|discriminate].
  destruct (is_chr c_bang (chr_at t 1) && is_chr c_minus (chr_at t 2)
            && is_chr c_minus (chr_at t 3)).
  - destruct (tryScanComment_spec t) as [Ecm|(cm & tl & Ecm & _)]; rewrite Ecm.
    + destruct (scanChars t). intros E. inversion E.
      rewrite enqueue_newline. exact Sc.
    + intros E. inversion E. now rewrite enqueue_newline.
  - destruct (tryScanTag_spec t) as [Et|(m & tl & Et & _ & Hm & Hr & _)];
      rewrite Et.
    + destruct (scanChars t). intros E. inversion E.
      rewrite enqueue_newline. exact Sc.
    + destruct (opaque_start m).
      * destruct (scanToEndTag_spec (group m 1)
                    (set_pos t (pos t + length (m0 m)))) as (p & Es & _).
        { pose proof (rest_app_pos _ _ _ H Hr). simpl. lia. }
        rewrite Es. intros E. inversion E. now rewrite enqueue_newline.
      * intros E. inversion E. now rewrite enqueue_newline.
Qed.

Lemma ws_flush_newline (t : Tokenizer) (ws : ustring) (p : Position) :
  _newline (if 0 <? length ws then enqueue t (Tk whitespace ws) p else t)
  = _newline t.
Proof. destruct (0 <? length ws); [apply enqueue_newline|reflexivity]. Qed.

Lemma ws_flush_pos (t : Tokenizer) (ws : ustring) (p : Position) :
  pos (if 0 <? length ws then enqueue t (Tk whitespace ws) p else t) = pos t
  /\ str (if 0 <? length ws then enqueue t (Tk whitespace ws) p else t)
     = str t.
Proof.
  destruct (0 <? length ws); [|auto].
  destruct (enqueue_fields t (Tk whitespace ws) p) as (A & _ & _ & _ & B & _).
  auto.
Qed.

Lemma line_start_newline (t : Tokenizer) :
  pos t <= length (str t) ->
  match line_start t with
  | inl t1 => _newline t1 = false
  | inr t1 => _newline t1 = false
  end.
Proof.
  intros H. unfold line_start. rewrite scanWhitespace_eq.
  change (rest (set_newline t false)) with (rest t).
  set (n := run_length isWhitespace (rest t)).
  set (ws := firstn n (rest t)).
  pose proof (run_pos_le isWhitespace t H) as Hn. fold n in Hn.
  set (t1 := set_pos (set_newline t false) (pos (set_newline t false) + n)).
  destruct (length (str t1) <=? pos t1).
  { destruct (0 <? length ws); [|reflexivity]. now rewrite enqueue_newline. }
  destruct (match chr_at t1 0 with Some c => is_d c | None => false end).
  { rewrite scanDigits_eq.
    set (d := run_length is_d (rest t1)).
    pose proof (run_pos_le is_d t1) as Hd. fold d in Hd.
    specialize (Hd Hn).
    set (t2 := set_pos t1 (pos t1 + d)).
    destruct (is_chr c_dot (chr_at t2 0) && is_chr c_space (chr_at t2 1)).
    - now rewrite enqueue_newline.
    - set (t3 := if 0 <? length ws
                 then enqueue t2 (Tk whitespace ws)
                        (getLocation (set_newline t false))
                 else t2).
      assert (N3 : _newline t3 = false) by apply ws_flush_newline.
      destruct (ws_flush_pos t2 ws (getLocation (set_newline t false)))
        as (P3 & S3).
      fold t3 in P3, S3.
      pose proof (scanChars_newline t3) as Sc.
      destruct (scanChars t3) as [cs t4]. rewrite enqueue_newline.
      simpl in Sc. rewrite Sc; [exact N3|]. rewrite P3, S3. exact Hd. }
  destruct (is_chr c_star (chr_at t1 0) && is_chr c_space (chr_at t1 1)).
  { now rewrite enqueue_newline. }
  destruct (is_chr c_lt (chr_at t1 0)).
  { destruct (tryScanTag_spec t1) as [E|(m & tl & E & _ & Hm & Hr & _)];
      rewrite E.
    - destruct (tryScanComment_spec t1) as [E2|(cm & tl & E2 & _)];
        rewrite E2; [reflexivity|now rewrite enqueue_newline].
    - destruct (opaque_start m).
      + destruct (scanToEndTag_spec (group m 1)
                    (set_pos t1 (pos t1 + length (m0 m)))) as (p & Es & _).
        { exact (@rest_app_pos t1 _ _ Hn Hr). }
        rewrite Es. now rewrite enqueue_newline.
      + rewrite enqueue_newline. apply ws_flush_newline. }
  destruct (0 <? length ws); [|reflexivity]. now rewrite enqueue_newline.
Qed.

Lemma dispatch_breaks (t : Tokenizer) :
  pos t < length (str t) -> _lookahead t = [] -> _newline t = false ->
  exists t1 toks,
    dispatch t = Ok t1 /\ queue t1 = queue t ++ toks
    /\ (_newline t1 = true -> exists x, toks = [x] /\ is_break x)
    /\ (_newline t1 = false ->
        Forall (fun x => ~ is_break x) toks).
Proof.
  intros H L N.
  destruct (chr_at t 0) as [chr|] eqn:Ec.
  2:{ apply chr_at_0_None in Ec. lia. }
  destruct (N.eqb_spec chr c_nl) as [->|Hn].
  - assert (E : exists nm cs p,
               dispatch t
               = Ok (enqueue (set_pos (set_newline t true) p) (Tk nm cs)
                       (getLocation t))
               /\ (nm = linebreak \/ nm = parabreak)).
    { unfold dispatch. rewrite Ec.
      change (N.eqb c_nl c_star) with false.
      change (N.eqb c_nl c_underscore) with false.
      change (N.eqb c_nl c_tick) with false.
      change (N.eqb c_nl c_pipe) with false.
      change (N.eqb c_nl c_tilde) with false.
      change (N.eqb c_nl c_nl) with true. cbv iota.
      match goal with |- context [if ?b then _ else _] => destruct b end;
        eexists _, _, _; split; try reflexivity; auto. }
    destruct E as (nm & cs & p & E & Hnm).
    destruct (enqueue_token (set_pos (set_newline t true) p) (Tk nm cs)
                (getLocation t)) as (tk & Q & U & _).
    cbn [queue _lookahead set_pos set_newline] in Q. rewrite L in Q.
    eexists _, [tk]. split; [exact E|]. split; [exact Q|]. split.
    + intros _. exists tk. split; [reflexivity|].
      unfold is_break, tok_name. rewrite U. exact Hnm.
    + rewrite enqueue_newline. discriminate.
  - destruct (@dispatch_step_gen no_break t) as (t1 & E & S);
      [| |exact H|exact L|].
    { intros nm I. simpl in I.
      repeat destruct I as [I|I]; try contradiction; subst nm;
        repeat split; discriminate. }
    { rewrite Ec. intros X. inversion X. contradiction. }
    destruct S as (_ & _ & _ & _ & _ & toks & Q & _ & F).
    exists t1, toks. split; [exact E|]. split; [exact Q|].
    pose proof (dispatch_newline t (Nat.lt_le_incl _ _ H) E) as Nl.
    rewrite N, Ec in Nl. simpl in Nl.
    destruct (N.eqb_spec chr c_nl); [contradiction|].
    split; [congruence|]. intros _.
    eapply Forall_impl; [|exact F].
    intros x ((_ & A & B) & _) [C|C]; contradiction.
Qed.

(** The newline flag is on after a call of [matchToken] exactly when
    the call queued a line break: one token, [linebreak] or
    [parabreak]. *)
Lemma matchToken_breaks (t : Tokenizer) :
  pos t < length (str t) -> _lookahead t = [] ->
  exists t1 toks,
    matchToken t = Ok t1 /\ queue t1 = queue t ++ toks
    /\ (_newline t1 = true -> exists x, toks = [x] /\ is_break x)
    /\ (_newline t1 = false -> Forall (fun x => ~ is_break x) toks).
Proof.
  intros H L. unfold matchToken.
  destruct (Nat.eqb_spec (pos t) (length (str t))); [lia|].
  destruct (_newline t) eqn:N; [|now apply dispatch_breaks].
  pose proof (@line_start_step_gen no_break t) as S.
  pose proof (line_start_newline t (Nat.lt_le_incl _ _ H)) as Nl.
  destruct (line_start t) as [t1|t1].
  - destruct S as (_ & _ & _ & _ & _ & toks & Q & _ & F); [|exact H|exact L|].
    { intros nm I. simpl in I.
      repeat destruct I as [I|I]; try contradiction; subst nm;
        repeat split; discriminate. }
    exists t1, toks. split; [reflexivity|]. split; [exact Q|].
    split; [congruence|]. intros _.
    eapply Forall_impl; [|exact F].
    intros x ((_ & A & B) & _) [C|C]; contradiction.
  - destruct S as (A & _ & _ & Q & L1 & P & _); [|exact H|exact L|].
    { intros nm I. simpl in I.
      repeat destruct I as [I|I]; try contradiction; subst nm;
        repeat split; discriminate. }
    destruct (dispatch_breaks t1) as (t2 & toks & E & Q2 & B);
      [rewrite A; lia|exact L1|exact Nl|].
    exists t2, toks. rewrite <- Q. auto.
Qed.

(** ** Ordered-list markers *)

Lemma is_d_not_ws (c : char) : is_d c = true -> isWhitespace c = false.
Proof.
  unfold is_d, isWhitespace. intros H.
  apply andb_true_iff in H. destruct H as [A B].
  apply N.leb_le in A, B.
  destruct (N.eqb_spec c c_space) as [->|_]; [unfold c_space in *; lia|].
  destruct (N.eqb_spec c c_tab) as [->|_]; [unfold c_tab in *; lia|].
  reflexivity.
Qed.

Lemma firstn_app_exact (A : Type) (a b : list A) :
  firstn (length a) (a ++ b) = a.
Proof.
  rewrite firstn_app, Nat.sub_diag, firstn_all. simpl. apply app_nil_r.
Qed.

Lemma skipn_app_exact (A : Type) (a b : list A) :
  skipn (length a) (a ++ b) = b.
Proof. now rewrite skipn_app, Nat.sub_diag, skipn_all. Qed.

(** The line-start branch on white space, digits and the rest. *)
Lemma line_start_digits (t : Tokenizer) (ws digits rst : ustring) :
  rest t = ws ++ digits ++ rst ->
  forallb isWhitespace ws = true -> forallb is_d digits = true ->
  digits <> [] -> stops is_d rst ->
  let t2 := set_pos (set_newline t false)
              (pos t + length ws + length digits) in
  rest t2 = rst
  /\ line_start t
     = if marker_tail rst
       then inl (enqueue (set_pos t2 (pos t2 + 2))
                   (Tk ol (ws ++ digits ++ [c_dot; c_space])) (getLocation t))
       else
         let t3 := if 0 <? length ws
                   then enqueue t2 (Tk whitespace ws) (getLocation t)
                   else t2 in
         inl (enqueue (snd (scanChars t3))
                (Tk text (digits ++ fst (scanChars t3))) (getLocation t)).
Proof.
  intros R Hw Hd Hne Hs t2.
  destruct digits as [|d0 digits]; [contradiction|]. clear Hne.
  assert (Hd0 : is_d d0 = true).
  { simpl in Hd. apply andb_true_iff in Hd. tauto. }
  assert (Rn : run_length isWhitespace (rest t) = length ws).
  { rewrite R. apply run_length_app; [exact Hw|].
    simpl. now apply is_d_not_ws. }
  set (t1 := set_pos (set_newline t false)
               (pos (set_newline t false) + length ws)).
  assert (R1 : rest t1 = (d0 :: digits) ++ rst).
  { unfold t1. rewrite rest_set_pos.
    change (rest (set_newline t false)) with (rest t).
    rewrite R. apply skipn_app_exact. }
  assert (Rd : run_length is_d (rest t1) = length (d0 :: digits)).
  { rewrite R1. apply run_length_app; [exact Hd|].
    destruct rst; [exact I|exact Hs]. }
  assert (R2 : rest t2 = rst).
  { change t2 with (set_pos t1 (pos t1 + length (d0 :: digits))).
    rewrite rest_set_pos, R1. apply skipn_app_exact. }
  split; [exact R2|].
  unfold line_start. rewrite scanWhitespace_eq.
  change (rest (set_newline t false)) with (rest t).
  change (getLocation (set_newline t false)) with (getLocation t).
  rewrite Rn. fold t1.
  assert (W : firstn (length ws) (rest t) = ws).
  { rewrite R. apply firstn_app_exact. }
  rewrite W.
  pose proof (rest_length t1) as L1. rewrite R1 in L1.
  cbn [length app] in L1.
  destruct (Nat.leb_spec (length (str t1)) (pos t1)); [lia|].
  rewrite (chr_at_rest t1 0), R1. cbn [nth_error app]. rewrite Hd0.
  rewrite scanDigits_eq, Rd.
  assert (D : firstn (length (d0 :: digits)) (rest t1) = d0 :: digits).
  { rewrite R1. apply firstn_app_exact. }
  rewrite D.
  change (set_pos t1 (pos t1 + length (d0 :: digits))) with t2.
  rewrite !(chr_at_rest t2), R2. fold (marker_tail rst).
  destruct (marker_tail rst); [reflexivity|].
  destruct (scanChars _). reflexivity.
Qed.

(** C4: let the rest of the input be white space [ws], a non-empty run
    of digits and [rst], which does not start with a digit.  At a line
    start, when [rst] starts with a dot and a space, [matchToken]
    queues one [ol] token with the contents [ws], the digits, the dot
    and the space; when it does not, [matchToken] queues a whitespace
    token for [ws] if [ws] is not empty, then a text token that starts
    with the digits, then at most a tag, opaque block or comment: no
    marker.  Away from a line start [matchToken] queues no marker,
    whatever the input.  The line-start flag is on in a new tokenizer
    and, after a call of [matchToken], exactly when the call queued a
    [linebreak] or [parabreak] token.  The three examples of the claim
    and the two of the test suite tokenize as stated. *)
Theorem list_marker_detection (t : Tokenizer) (ws digits rst : ustring) :
  rest t = ws ++ digits ++ rst ->
  forallb isWhitespace ws = true -> forallb is_d digits = true ->
  digits <> [] -> stops is_d rst -> _lookahead t = [] ->
  (_newline t = true -> marker_tail rst = true ->
   exists t1 tk,
     matchToken t = Ok t1 /\ queue t1 = queue t ++ [tk]
     /\ tok tk = Tk ol (ws ++ digits ++ [c_dot; c_space])
     /\ offset (start (location tk)) = pos t
     /\ offset (end_ (location tk)) = pos t + length ws + length digits + 2
     /\ rest t1 = skipn 2 rst)
  /\ (_newline t = true -> marker_tail rst = false ->
      exists t1 pre tk cs la,
        matchToken t = Ok t1 /\ queue t1 = queue t ++ pre ++ tk :: la
        /\ (ws = [] -> pre = [])
        /\ (ws <> [] -> exists w, pre = [w] /\ tok w = Tk whitespace ws)
        /\ tok tk = Tk text (digits ++ cs)
        /\ Forall lookahead_name la)
  /\ (_newline t = false ->
      exists t1 toks,
        matchToken t = Ok t1 /\ queue t1 = queue t ++ toks
        /\ Forall not_marker toks)
  /\ (forall s, _newline (new_Tokenizer s) = true)
  /\ (forall t' : Tokenizer,
         pos t' < length (str t') -> _lookahead t' = [] ->
         exists t1 toks,
           matchToken t' = Ok t1 /\ queue t1 = queue t' ++ toks
           /\ (_newline t1 = true -> exists x, toks = [x] /\ is_break x)
           /\ (_newline t1 = false -> Forall (fun x => ~ is_break x) toks))
  /\ tokens 3 (lit "1. foo")
     = Some [(ol, Some (lit "1. ")); (text, Some (lit "foo")); (EOF, None)]
  /\ tokens 4 (lit "1 foo")
     = Some [(text, Some (lit "1")); (whitespace, Some (lit " "));
             (text, Some (lit "foo")); (EOF, None)]
  /\ tokens 2 (lit "1.foo") = Some [(text, Some (lit "1.foo")); (EOF, None)]
  /\ tokens 6 (lit "foo 1. foo")
     = Some [(text, Some (lit "foo")); (whitespace, Some (lit " "));
             (text, Some (lit "1.")); (whitespace, Some (lit " "));
             (text, Some (lit "foo")); (EOF, None)]
  /\ tokens 5 (lit "foo" ++ [c_nl] ++ lit "1. foo")
     = Some [(text, Some (lit "foo")); (linebreak, Some [c_nl]);
             (ol, Some (lit "1. ")); (text, Some (lit "foo")); (EOF, None)].
Proof.
  intros R Hw Hd Hne Hs L.
  pose proof (rest_length t) as Len. rewrite R, !length_app in Len.
  assert (Hdl : 0 < length digits).
  { destruct digits; [contradiction|simpl; lia]. }
  assert (Hlt : pos t < length (str t)) by lia.
  destruct (@line_start_digits t ws digits rst R Hw Hd Hne Hs) as (R2 & Ls).
  set (t2 := set_pos (set_newline t false)
               (pos t + length ws + length digits)) in *.
  assert (M : _newline t = true ->
              matchToken t
              = match line_start t with
                | inl t1 => Ok t1
                | inr t1 => dispatch t1
                end).
  { intros Nl. unfold matchToken. rewrite Nl.
    destruct (Nat.eqb_spec (pos t) (length (str t))); [lia|reflexivity]. }
  split; [|split; [|split; [|split; [|split]]]].
  - intros Nl Mt. rewrite (M Nl), Ls, Mt.
    destruct (enqueue_token (set_pos t2 (pos t2 + 2))
                (Tk ol (ws ++ digits ++ [c_dot; c_space])) (getLocation t))
      as (tk & Q & U & St & En).
    destruct (enqueue_fields (set_pos t2 (pos t2 + 2))
                (Tk ol (ws ++ digits ++ [c_dot; c_space])) (getLocation t))
      as (A1 & _ & _ & _ & A5 & _).
    eexists _, tk. split; [reflexivity|].
    cbn [queue _lookahead set_pos set_newline t2] in Q. rewrite L in Q.
    split; [exact Q|]. split; [exact U|]. split; [now rewrite St|].
    split; [rewrite En; cbn [offset getLocation]; rewrite A5; reflexivity|].
    unfold rest, slice_from. rewrite A1, A5.
    change (skipn (pos (set_pos t2 (pos t2 + 2))) (str (set_pos t2 (pos t2 + 2))))
      with (rest (set_pos t2 (pos t2 + 2))).
    now rewrite rest_set_pos, R2.
  - intros Nl Mt. rewrite (M Nl), Ls, Mt. cbv zeta.
    set (t3 := if 0 <? length ws
               then enqueue t2 (Tk whitespace ws) (getLocation t) else t2).
    assert (H3 : exists pre,
               queue t3 = queue t ++ pre /\ _lookahead t3 = []
               /\ pos t3 = pos t2 /\ str t3 = str t
               /\ (ws = [] -> pre = [])
               /\ (ws <> [] -> exists w, pre = [w]
                                         /\ tok w = Tk whitespace ws)).
    { unfold t3. destruct ws as [|w0 ws'].
      - exists []. simpl. rewrite app_nil_r. repeat split; auto.
        intros X. contradiction.
      - cbn [length Nat.ltb Nat.leb].
        destruct (enqueue_token t2 (Tk whitespace (w0 :: ws')) (getLocation t))
          as (w & Q & U & _).
        destruct (enqueue_fields t2 (Tk whitespace (w0 :: ws')) (getLocation t))
          as (A1 & _ & _ & _ & A5 & A6 & _).
        cbn [queue _lookahead set_pos set_newline t2] in Q. rewrite L in Q.
        exists [w]. repeat split; auto.
        + discriminate.
        + intros _. eauto. }
    destruct H3 as (pre & Q3 & L3 & P3 & S3 & Pn & Pw).
    assert (Hp3 : pos t3 <= length (str t3)).
    { rewrite P3, S3. unfold t2. cbn [pos set_pos]. lia. }
    destruct (scanChars_spec t3 Hp3) as (la & K & _ & La & _ & F & _).
    rewrite L3 in La. simpl in La.
    destruct (enqueue_token (snd (scanChars t3))
                (Tk text (digits ++ fst (scanChars t3))) (getLocation t))
      as (tk & Q & U & _).
    eexists _, pre, tk, (fst (scanChars t3)), la.
    split; [reflexivity|]. split.
    { rewrite Q, La. destruct K as (_ & _ & _ & _ & ->).
      now rewrite Q3, <- app_assoc. }
    split; [exact Pn|]. split; [exact Pw|]. split; [exact U|].
    eapply Forall_impl; [|exact F]. intros x X. apply X.
  - intros Nl.
    destruct (matchToken_step t Hlt L) as (t1 & E & _).
    destruct (@matchToken_midline t t1) as (toks & Q & F); auto; [lia|].
    eauto.
  - reflexivity.
  - exact matchToken_breaks.
  - repeat split; reflexivity.
Qed.

Lemma list_marker_detection_witness :
  rest (new_Tokenizer (lit "  12. foo")) = lit "  " ++ lit "12" ++ lit ". foo"
  /\ exists t1 tk,
       matchToken (new_Tokenizer (lit "  12. foo")) = Ok t1
       /\ queue t1 = [tk]
       /\ tok tk = Tk ol (lit "  12. ").
Proof.
  split; [reflexivity|].
  destruct (@list_marker_detection (new_Tokenizer (lit "  12. foo"))
              (lit "  ") (lit "12") (lit ". foo")
              eq_refl eq_refl eq_refl ltac:(discriminate) eq_refl eq_refl)
    as (H & _).
  destruct (H eq_refl eq_refl) as (t1 & tk & M & Q & U & _).
  exists t1, tk. auto.
Defined.

(** ** Identifiers *)

Lemma rmatch_Lit (A : Type) (l : ustring) :
  forall s c (k : ustring -> caps -> option A),
    rmatch (Lit l) (l ++ s) c k = k s c.
Proof.
  induction l as [|a l IH]; intros s c k; simpl; [reflexivity|].
  rewrite N.eqb_refl. apply IH.
Qed.

(** A greedy star of a character class runs to the end of the run of
    characters of the class when the rest of the regex matches there. *)
Lemma greedy_loop_Cls (A : Type) (p : char -> bool)
    (k : ustring -> caps -> option A) (w : ustring) :
  forall n s c x,
    forallb p w = true -> stops p s -> length w <= n ->
    k s c = Some x ->
    greedy_loop (rmatch (Cls p)) k n (w ++ s) c = Some x.
Proof.
  induction w as [|a w IH]; intros n s c x Hw Hs Hn Hk.
  - destruct n as [|n]; simpl; [exact Hk|].
    destruct s as [|y s]; [exact Hk|].
    simpl in Hs. rewrite Hs. exact Hk.
  - destruct n as [|n]; [simpl in Hn; lia|].
    simpl in Hw. apply andb_true_iff in Hw. destruct Hw as [Ha Hw].
    cbn [greedy_loop app].
    assert (E : forall K : ustring -> caps -> option A,
               rmatch (Cls p) (a :: w ++ s) c K = K (w ++ s) c).
    { intros K. simpl. now rewrite Ha. }
    rewrite E.
    destruct (Nat.ltb_spec (length (w ++ s)) (length (a :: w ++ s)));
      [|simpl in *; lia].
    rewrite (IH n s c x Hw Hs); [reflexivity|simpl in Hn; lia|exact Hk].
Qed.

Lemma Matches_star_Cls (p : char -> bool) s c s' c' :
  Matches (Star (Cls p)) s c s' c' ->
  exists w, s = w ++ s' /\ forallb p w = true /\ c' = c.
Proof.
  intros M. remember (Star (Cls p)) as r eqn:Er.
  induction M; try discriminate.
  - exists []. auto.
  - inversion Er; subst r. clear IHM1.
    destruct (IHM2 eq_refl) as (w & -> & Hw & ->).
    inversion M1; subst.
    exists (x :: w). simpl. rewrite Hw.
    match goal with H : p x = true |- _ => rewrite H end. auto.
Qed.

Lemma id_char_dquote : id_char c_dquote = false.
Proof. reflexivity. Qed.

(** What [idRegexp] matches, and nothing else. *)
Lemma rmatch_Seq (A : Type) r1 r2 s c (k : ustring -> caps -> option A) :
  rmatch (Seq r1 r2) s c k = rmatch r1 s c (fun s1 c1 => rmatch r2 s1 c1 k).
Proof. reflexivity. Qed.

Lemma rmatch_Group (A : Type) i r s c (k : ustring -> caps -> option A) :
  rmatch (Group i r) s c k
  = rmatch r s c
      (fun s1 c1 => k s1 (set_cap i (firstn (length s - length s1) s) c1)).
Proof. reflexivity. Qed.

Lemma rmatch_Star (A : Type) r s c (k : ustring -> caps -> option A) :
  rmatch (Star r) s c k = greedy_loop (rmatch r) k (length s) s c.
Proof. reflexivity. Qed.

Lemma rmatch_Cls_cons (A : Type) p x s c (k : ustring -> caps -> option A) :
  p x = true -> rmatch (Cls p) (x :: s) c k = k s c.
Proof. intros H. simpl. now rewrite H. Qed.

Lemma exec_idRegexp_complete (w tail : ustring) :
  w <> [] -> forallb id_char w = true ->
  exec idRegexp (id_text w ++ tail)
  = Some (mkMatch (id_text w) (set_cap 1 w no_caps)).
Proof.
  intros Hne Hw. destruct w as [|w0 w]; [contradiction|]. clear Hne.
  simpl in Hw. apply andb_true_iff in Hw. destruct Hw as [H0 Hw].
  unfold exec, idRegexp.
  set (s := id_text (w0 :: w) ++ tail).
  set (s2 := [c_dquote; c_rbracket; c_space] ++ tail).
  assert (Es : s = (lit "[id=" ++ [c_dquote]) ++ (w0 :: w) ++ s2).
  { unfold s, s2, id_text. now rewrite <- !app_assoc. }
  rewrite rmatch_Seq. rewrite Es at 1. rewrite rmatch_Lit.
  rewrite rmatch_Seq, rmatch_Group. unfold Plus.
  rewrite rmatch_Seq. cbn [app]. rewrite rmatch_Cls_cons; [|exact H0].
  rewrite rmatch_Star.
  apply greedy_loop_Cls;
    [exact Hw|exact id_char_dquote|rewrite length_app; apply Nat.le_add_r|].
  unfold s2. cbn [app rmatch]. rewrite !N.eqb_refl.
  f_equal. f_equal.
  - replace s with (id_text (w0 :: w) ++ tail) by reflexivity.
    apply prefix_firstn.
  - f_equal.
    change (w0 :: w ++ c_dquote :: c_rbracket :: c_space :: tail)
      with ((w0 :: w) ++ c_dquote :: c_rbracket :: c_space :: tail).
    apply prefix_firstn.
Qed.

Lemma exec_idRegexp_sound (s : ustring) (m : Match) :
  exec idRegexp s = Some m ->
  exists w tail,
    s = id_text w ++ tail /\ w <> [] /\ forallb id_char w = true.
Proof.
  intros E. destruct (exec_sound _ _ E) as (s' & _ & M). clear E.
  unfold idRegexp in M.
  inversion M as [| | |? ? ? ? ? ? ? ? M1 M2| | | | | | | | |]; subst; clear M.
  apply (Matches_Lit (lit "[id=" ++ [c_dquote])) in M1.
  destruct M1 as [-> ->].
  inversion M2 as [| | |? ? ? ? ? ? ? ? Mg M3| | | | | | | | |]; subst; clear M2.
  inversion Mg as [| | | | | | | | | | | |? ? ? ? ? ? Mp]; subst; clear Mg.
  unfold Plus in Mp.
  inversion Mp as [| | |? ? ? ? ? ? ? ? Mc Ms| | | | | | | | |]; subst; clear Mp.
  inversion Mc; subst; clear Mc.
  apply Matches_star_Cls in Ms. destruct Ms as (w & -> & Hw & _).
  inversion M3 as [| | |? ? ? ? ? ? ? ? Ma M4| | | | | | | | |]; subst; clear M3.
  inversion Ma; subst; clear Ma.
  inversion M4 as [| | |? ? ? ? ? ? ? ? Mb M5| | | | | | | | |]; subst; clear M4.
  inversion Mb; subst; clear Mb.
  inversion M5; subst; clear M5.
  exists (x :: w), s'. split.
  - unfold id_text. rewrite <- !app_assoc. reflexivity.
  - split; [discriminate|]. simpl. fold id_char in *.
    match goal with H : id_char x = true |- _ => rewrite H end. exact Hw.
Qed.

(** C7: when the rest of the input starts with an id attribute and the
    space after it, [tryScanId] returns an id token whose value is the
    identifier, located from the position before to the position
    after the attribute, and changes the tokenizer only by advancing
    [pos] and [column] by the length of the attribute, as [locate]
    does for every token that is not a line break; when the rest of
    the input does not start so, it returns [null] and the tokenizer
    as it was. *)
Theorem tryScanId_atomic (t : Tokenizer) :
  (forall w tail,
      rest t = id_text w ++ tail -> w <> [] -> forallb id_char w = true ->
      exists tk,
        tryScanId t
        = (Some tk,
           set_line_column (set_pos t (pos t + length (id_text w)))
             (line t) (column t + length (id_text w)))
        /\ tok tk = mkUnlocated id None (Some w) false
        /\ start (location tk) = getLocation t
        /\ end_ (location tk)
           = mkPosition (pos t + length (id_text w)) (line t)
               (column t + length (id_text w)))
  /\ ((forall w tail,
          rest t = id_text w ++ tail -> w <> [] ->
          forallb id_char w = true -> False) ->
      tryScanId t = (None, t)).
Proof.
  split.
  - intros w tail R Hne Hw. unfold tryScanId.
    rewrite R, (exec_idRegexp_complete tail Hne Hw).
    unfold locate. cbn [name m0 group set_cap Nat.eqb].
    cbn [pos set_pos offset getLocation].
    rewrite Nat.add_comm, Nat.add_sub, (Nat.add_comm (length (id_text w))).
    eexists. repeat split.
  - intros H. unfold tryScanId.
    destruct (exec idRegexp (rest t)) as [m|] eqn:E; [|reflexivity].
    exfalso. apply exec_idRegexp_sound in E.
    destruct E as (w & tail & R & Hne & Hw). eauto.
Qed.

Lemma tryScanId_atomic_witness :
  rest (set_pos (new_Tokenizer (lit "1. " ++ id_text (lit "a-b") ++ lit "x")) 3)
  = id_text (lit "a-b") ++ lit "x"
  /\ exists tk,
       fst (tryScanId
              (set_pos
                 (new_Tokenizer (lit "1. " ++ id_text (lit "a-b") ++ lit "x"))
                 3))
       = Some tk
       /\ tok tk = mkUnlocated id None (Some (lit "a-b")) false.
Proof.
  split; [reflexivity|].
  destruct (proj1 (tryScanId_atomic
                     (set_pos
                        (new_Tokenizer
                           (lit "1. " ++ id_text (lit "a-b") ++ lit "x")) 3))
              (lit "a-b") (lit "x") eq_refl ltac:(discriminate) eq_refl)
    as (tk & E & U & _).
  exists tk. rewrite E. auto.
Defined.

(** ** Opaque blocks *)

Lemma ustring_eqb_eq (a b : ustring) : ustring_eqb a b = true <-> a = b.
Proof.
  unfold ustring_eqb. destruct (list_eq_dec N.eq_dec a b); split;
    intros H; try discriminate; auto.
Qed.

Lemma opaqueTags_has_In (nm : ustring) :
  In nm opaqueTags -> opaqueTags_has (Some nm) = true.
Proof.
  intros H. unfold opaqueTags_has. apply existsb_exists.
  exists nm. split; [exact H|]. now apply ustring_eqb_eq.
Qed.

Lemma tryScanTag_some (t : Tokenizer) (m : Match) :
  fst (tryScanTag t) = Some m ->
  tryScanTag t = (Some m, set_pos t (pos t + length (m0 m)))
  /\ (exists tl, m0 m = c_lt :: tl)
  /\ rest t = m0 m ++ rest (set_pos t (pos t + length (m0 m)))
  /\ group2_not_slash m = true.
Proof.
  intros H.
  destruct (tryScanTag_spec t) as [E|(m' & tl & E & _ & Hm & Hr & G & _)];
    rewrite E in H; simpl in H; [discriminate|].
  inversion H; subst m'. eauto.
Qed.

Lemma scans_trans (e : option ustring) (t : Tokenizer) (q' q : nat) :
  scans e t q' -> scans e (set_pos t q') q -> scans e t q.
Proof.
  intros H1 H2. induction H2 as [|q0 H2 IH Hq Ht|q0 m' H2 IH Hq Ht He].
  - exact H1.
  - apply scans_char; [exact IH|exact Hq|exact Ht].
  - apply scans_tag; [exact IH|exact Hq|exact Ht|exact He].
Qed.

(** The raw scan stops at the end of the input, or behind the first
    end tag of the element that it comes to. *)
Lemma scanToEndTag_loop_stop (e : option ustring) (fuel : nat) :
  forall t,
    pos t <= length (str t) -> length (str t) - pos t <= fuel ->
    exists p,
      scanToEndTag_loop fuel e t = set_pos t p
      /\ pos t <= p <= length (str t)
      /\ ((p = length (str t) /\ scans e t p)
          \/ exists q m',
              scans e t q /\ q < length (str t)
              /\ tryScanTag (set_pos t q) = (Some m', set_pos t p)
              /\ is_end_tag e m' = true).
Proof.
  induction fuel as [|fuel IH]; intros t H F.
  - exists (pos t). simpl. rewrite set_pos_same.
    split; [reflexivity|]. split; [lia|]. left.
    split; [lia|constructor].
  - cbn [scanToEndTag_loop].
    destruct (Nat.ltb_spec (pos t) (length (str t))) as [Hlt|Hge].
    2:{ exists (pos t). rewrite set_pos_same.
        split; [reflexivity|]. split; [lia|]. left.
        split; [lia|constructor]. }
    destruct (tryScanTag_spec t) as [E|(m & tl & E & _ & Hm & Hr & _)];
      rewrite E.
    + assert (V : scans e t (S (pos t))).
      { apply scans_char; [constructor|exact Hlt|].
        rewrite set_pos_same, E. reflexivity. }
      destruct (IH (set_pos t (S (pos t)))) as (p & Hp & Hle & St);
        [simpl; lia|simpl; lia|].
      exists p. split; [exact Hp|]. simpl in Hle. split; [lia|].
      destruct St as [[St Vp]|(q & m' & Vq & Hq & Et & Ie)].
      * left. split; [exact St|]. exact (scans_trans V Vp).
      * right. exists q, m'. split; [exact (scans_trans V Vq)|].
        split; [exact Hq|]. split; [exact Et|exact Ie].
    + pose proof (rest_app_pos _ _ _ H Hr) as Hle.
      rewrite Hm in Hle. simpl in Hle.
      destruct (is_end_tag e m) eqn:Ie.
      * exists (pos t + length (m0 m)).
        split; [reflexivity|]. rewrite Hm. simpl. split; [lia|].
        right. exists (pos t), m. split; [constructor|].
        split; [exact Hlt|]. rewrite set_pos_same, E, Hm. auto.
      * assert (V : scans e t (pos t + length (m0 m))).
        { apply scans_tag; [constructor|exact Hlt| |exact Ie].
          rewrite set_pos_same, E. reflexivity. }
        destruct (IH (set_pos t (pos t + length (m0 m))))
          as (p & Hp & Hle' & St);
          [simpl; rewrite Hm; simpl; lia|simpl; rewrite Hm; simpl; lia|].
        exists p. split; [exact Hp|]. simpl in Hle'. rewrite Hm in Hle'.
        simpl in Hle'. split; [lia|].
        destruct St as [[St Vp]|(q & m' & Vq & Hq & Et & Ie')].
        -- left. split; [exact St|]. exact (scans_trans V Vp).
        -- right. exists q, m'. split; [exact (scans_trans V Vq)|].
           split; [exact Hq|]. split; [exact Et|exact Ie'].
Qed.

(** Characters other than [<] are passed one by one. *)
Lemma scanToEndTag_loop_skip (e : option ustring) (body : ustring) :
  forall fuel t s,
    rest t = body ++ s -> no_lt body = true -> length body <= fuel ->
    scanToEndTag_loop fuel e t
    = scanToEndTag_loop (fuel - length body) e
        (set_pos t (pos t + length body)).
Proof.
  induction body as [|c body IH]; intros fuel t s R B F.
  - simpl. now rewrite set_pos_add_0, Nat.sub_0_r.
  - simpl in R, B, F. apply andb_true_iff in B. destruct B as [Bc B].
    apply negb_true_iff in Bc.
    destruct (rest_cons _ R) as (E0 & R1 & Hlt).
    destruct fuel as [|fuel]; [lia|].
    cbn [scanToEndTag_loop].
    destruct (Nat.ltb_spec (pos t) (length (str t))); [|lia].
    assert (Et : tryScanTag t = (None, t)).
    { unfold tryScanTag. rewrite E0. simpl. now rewrite Bc. }
    rewrite Et, (IH fuel _ s R1 B); [|lia].
    cbn [pos set_pos length]. simpl.
    replace (pos t + S (length body)) with (S (pos t + length body)) by lia.
    reflexivity.
Qed.

Lemma rmatch_Chr_cons (A : Type) a s c (k : ustring -> caps -> option A) :
  rmatch (Chr a) (a :: s) c k = k s c.
Proof. simpl. now rewrite N.eqb_refl. Qed.

Lemma rmatch_Opt_some (A : Type) r s c (k : ustring -> caps -> option A) x :
  rmatch r s c k = Some x -> rmatch (Opt r) s c k = Some x.
Proof. intros H. simpl. now rewrite H. Qed.

Lemma greedy_loop_none (A : Type)
    (step : ustring -> caps -> (ustring -> caps -> option A) -> option A)
    (k : ustring -> caps -> option A) (n : nat) (s : ustring) (c : caps) :
  (forall K, step s c K = None) -> greedy_loop step k n s c = k s c.
Proof. intros H. destruct n; simpl; [reflexivity|]. now rewrite H. Qed.

(** [tagRegexp] on a plain end tag. *)
Lemma exec_end_tag (w tail : ustring) :
  tag_name w = true ->
  exec tagRegexp (end_tag_text w ++ tail)
  = Some (mkMatch (end_tag_text w) (set_cap 1 w no_caps)).
Proof.
  intros Hw. destruct w as [|w0 w]; [discriminate|].
  simpl in Hw. apply andb_true_iff in Hw. destruct Hw as [H0 Hw].
  unfold exec, tagRegexp.
  set (s := end_tag_text (w0 :: w) ++ tail).
  set (s2 := c_gt :: tail).
  assert (Es : s = c_lt :: c_slash :: (w0 :: w) ++ s2).
  { unfold s, s2, end_tag_text. simpl. now rewrite <- app_assoc. }
  rewrite rmatch_Seq. rewrite Es at 1. rewrite rmatch_Chr_cons.
  rewrite rmatch_Seq. apply rmatch_Opt_some.
  rewrite rmatch_Cls_cons; [|reflexivity].
  rewrite rmatch_Seq, rmatch_Group, rmatch_Seq. cbn [app].
  rewrite rmatch_Cls_cons; [|exact H0].
  rewrite rmatch_Star.
  apply (@greedy_loop_Cls _ id_char);
    [exact Hw|reflexivity|rewrite length_app; apply Nat.le_add_r|].
  rewrite rmatch_Seq, rmatch_Star.
  rewrite greedy_loop_none; [|intros K; reflexivity].
  rewrite rmatch_Seq, rmatch_Star.
  rewrite greedy_loop_none; [|intros K; reflexivity].
  unfold s2. rewrite rmatch_Chr_cons.
  f_equal. f_equal.
  - replace s with (end_tag_text (w0 :: w) ++ tail) by reflexivity.
    apply prefix_firstn.
  - f_equal.
    change (w0 :: w ++ c_gt :: tail) with ((w0 :: w) ++ c_gt :: tail).
    apply prefix_firstn.
Qed.

Lemma tryScanTag_end_tag (t : Tokenizer) (w tail : ustring) :
  rest t = end_tag_text w ++ tail -> tag_name w = true ->
  tryScanTag t
  = (Some (mkMatch (end_tag_text w) (set_cap 1 w no_caps)),
     set_pos t (pos t + length (end_tag_text w))).
Proof.
  intros R Hw. unfold tryScanTag.
  pose proof (rest_length t) as L. rewrite R, length_app in L.
  rewrite !chr_at_rest, R, (@exec_end_tag w tail Hw).
  unfold end_tag_text. cbn [app nth_error is_chr].
  change (N.eqb c_lt c_lt) with true.
  change (N.eqb c_slash c_slash) with true. cbn [negb andb].
  rewrite andb_false_r. reflexivity.
Qed.

Lemma is_end_tag_end_tag (w : ustring) :
  is_end_tag (Some w) (mkMatch (end_tag_text w) (set_cap 1 w no_caps)) = true.
Proof.
  unfold is_end_tag. cbn [group m0 set_cap Nat.eqb end_tag_text app nth_error].
  apply andb_true_iff. split; [now apply ustring_eqb_eq|reflexivity].
Qed.

(** The raw scan over a body without [<] and the end tag behind it. *)
Lemma scanToEndTag_body (t : Tokenizer) (w body tail : ustring) :
  rest t = body ++ end_tag_text w ++ tail ->
  no_lt body = true -> tag_name w = true ->
  scanToEndTag (Some w) t
  = (body ++ end_tag_text w,
     set_pos t (pos t + length (body ++ end_tag_text w))).
Proof.
  intros R B Hw.
  pose proof (rest_length t) as L. rewrite R, !length_app in L.
  assert (Le : 0 < length (end_tag_text w)).
  { unfold end_tag_text. simpl. lia. }
  unfold scanToEndTag.
  rewrite (@scanToEndTag_loop_skip (Some w) body _ t _ R B); [|lia].
  set (t' := set_pos t (pos t + length body)).
  assert (R' : rest t' = end_tag_text w ++ tail).
  { unfold t'. rewrite rest_set_pos, R. apply skipn_app_exact. }
  destruct (length (str t) - pos t - length body) as [|fuel] eqn:Ef; [lia|].
  cbn [scanToEndTag_loop].
  change (pos t') with (pos t + length body).
  change (str t') with (str t).
  destruct (Nat.ltb_spec (pos t + length body) (length (str t))); [|lia].
  rewrite (@tryScanTag_end_tag t' w tail R' Hw), is_end_tag_end_tag.
  unfold t'. cbn [pos str set_pos]. f_equal.
  - rewrite <- Nat.add_assoc, slice_rest.
    fold (slice_from (str t) (pos t)). fold (rest t).
    rewrite R, app_assoc, <- length_app. apply firstn_app_exact.
  - rewrite length_app, Nat.add_assoc. reflexivity.
Qed.

Lemma dispatch_tag (t : Tokenizer) (m : Match) :
  fst (tryScanTag t) = Some m ->
  dispatch t
  = if opaque_start m
    then Ok (enqueue (snd (scanToEndTag (group m 1) (snd (tryScanTag t))))
               (Tk opaqueTag
                  (m0 m ++ fst (scanToEndTag (group m 1) (snd (tryScanTag t)))))
               (getLocation t))
    else Ok (enqueue (snd (tryScanTag t)) (Tk tag (m0 m)) (getLocation t)).
Proof.
  intros H.
  assert (E0 : chr_at t 0 = Some c_lt).
  { unfold tryScanTag in H.
    destruct (chr_at t 0) as [c|]; simpl in H; [|discriminate].
    destruct (N.eqb_spec c c_lt); [now subst|discriminate]. }
  unfold dispatch. rewrite E0.
  change (N.eqb c_lt c_star) with false.
  change (N.eqb c_lt c_underscore) with false.
  change (N.eqb c_lt c_tick) with false.
  change (N.eqb c_lt c_pipe) with false.
  change (N.eqb c_lt c_tilde) with false.
  change (N.eqb c_lt c_nl) with false.
  change (isWhitespace c_lt) with false.
  change (isChars c_lt) with false.
  change (N.eqb c_lt c_lt) with true. cbv iota.
  destruct (is_chr c_bang (chr_at t 1) && is_chr c_minus (chr_at t 2)
            && is_chr c_minus (chr_at t 3)) eqn:Eb.
  { rewrite (comment_start_tryScanTag t E0 Eb) in H. discriminate. }
  destruct (tryScanTag t) as [o t1]. simpl in H. subst o. cbn [snd].
  destruct (opaque_start m); [|reflexivity].
  destruct (scanToEndTag (group m 1) t1). reflexivity.
Qed.

Lemma line_start_tag (t0 : Tokenizer) (ws s : ustring) (m : Match) :
  rest t0 = ws ++ s -> forallb isWhitespace ws = true ->
  let t := set_pos (set_newline t0 false) (pos t0 + length ws) in
  fst (tryScanTag t) = Some m ->
  line_start t0
  = if opaque_start m
    then inl (enqueue (snd (scanToEndTag (group m 1) (snd (tryScanTag t))))
                (Tk opaqueTag
                   (ws ++ m0 m
                       ++ fst (scanToEndTag (group m 1) (snd (tryScanTag t)))))
                (getLocation t0))
    else
      inl (enqueue (if 0 <? length ws
                    then enqueue (snd (tryScanTag t)) (Tk whitespace ws)
                           (getLocation t0)
                    else snd (tryScanTag t))
             (Tk tag (m0 m)) (getLocation t0)).
Proof.
  intros R Hw t H.
  assert (Rt : rest t = s).
  { unfold t. change (set_pos (set_newline t0 false) (pos t0 + length ws))
      with (set_pos (set_newline t0 false)
              (pos (set_newline t0 false) + length ws)).
    rewrite rest_set_pos. change (rest (set_newline t0 false)) with (rest t0).
    rewrite R. apply skipn_app_exact. }
  assert (E0 : chr_at t 0 = Some c_lt).
  { unfold tryScanTag in H.
    destruct (chr_at t 0) as [c|]; simpl in H; [|discriminate].
    destruct (N.eqb_spec c c_lt); [now subst|discriminate]. }
  assert (Rn : run_length isWhitespace (rest t0) = length ws).
  { rewrite R. apply run_length_app; [exact Hw|].
    rewrite chr_at_rest, Rt in E0. destruct s as [|c s]; [exact I|].
    simpl in E0. inversion E0. reflexivity. }
  unfold line_start. rewrite scanWhitespace_eq.
  change (rest (set_newline t0 false)) with (rest t0).
  change (getLocation (set_newline t0 false)) with (getLocation t0).
  rewrite Rn.
  change (set_pos (set_newline t0 false)
            (pos (set_newline t0 false) + length ws)) with t.
  assert (W : firstn (length ws) (rest t0) = ws).
  { rewrite R. apply firstn_app_exact. }
  rewrite W.
  pose proof (chr_at_0_lt _ E0) as Hlt.
  destruct (Nat.leb_spec (length (str t)) (pos t)); [lia|].
  rewrite E0.
  change (is_d c_lt) with false.
  change (is_chr c_star (Some c_lt)) with false.
  change (is_chr c_lt (Some c_lt)) with true. cbn [andb]. cbv iota.
  destruct (tryScanTag t) as [o t1]. simpl in H. subst o. cbn [snd].
  destruct (opaque_start m); [|reflexivity].
  destruct (scanToEndTag (group m 1) t1). reflexivity.
Qed.

Lemma slice_split (s : ustring) (a b c : nat) :
  a <= b -> b <= c -> slice s a c = slice s a b ++ slice s b c.
Proof.
  intros H1 H2. unfold slice.
  replace (c - a) with ((b - a) + (c - b)) by lia.
  replace (skipn b s) with (skipn (b - a) (skipn a s))
    by (rewrite skipn_skipn; f_equal; lia).
  generalize (skipn a s) as l. generalize (b - a) as n.
  induction n as [|n IH]; intros l; [reflexivity|].
  destruct l as [|x l]; cbn [Nat.add firstn skipn app].
  - now rewrite firstn_nil.
  - f_equal. apply IH.
Qed.

Lemma tryScanTag_first (t : Tokenizer) (m : Match) :
  fst (tryScanTag t) = Some m -> chr_at t 0 = Some c_lt.
Proof.
  unfold tryScanTag. intros H.
  destruct (chr_at t 0) as [c|]; simpl in H; [|discriminate].
  destruct (N.eqb_spec c c_lt); [now subst|discriminate].
Qed.

Lemma opaqueTags_tag_name (w : ustring) :
  In w opaqueTags -> tag_name w = true.
Proof.
  intros H. simpl in H.
  repeat (destruct H as [<-|H]; [reflexivity|]). contradiction.
Qed.

(** C5, amended.  Let [tryScanTag] match a tag [m] at the position of
    [t], with a name of [opaqueTags], and not a closing tag.  Then there
    is a position [p2] behind the tag such that

    - the raw scan [scanToEndTag] from behind the tag returns the source
      text up to [p2] and leaves [pos] at [p2]; the tag and that text
      together are the slice of the source from the tag to [p2],
      verbatim;
    - the scan stops only at the end of the input, having gone through
      no end tag of the same name ([scans]), or right behind the first
      tag it comes to that is an end tag of the same name; in
      particular, when a body without [<] and the end tag follow the
      opening tag, the block is the opening tag, the body and the end
      tag;
    - away from a line start, [matchToken] queues the one token
      [opaqueTag] with the block as contents; inside a run of text,
      [scanChars] stops and holds that token as lookahead;
    - at a line start, behind held white space [ws], [matchToken] queues
      the one token [opaqueTag] whose contents are [ws] followed by the
      block. *)
Theorem opaque_capture (t : Tokenizer) (m : Match) (name : ustring) :
  fst (tryScanTag t) = Some m ->
  group m 1 = Some name ->
  In name opaqueTags ->
  is_chr c_slash (nth_error (m0 m) 1) = false ->
  exists p2,
    let t1 := snd (tryScanTag t) in
    let block := slice (str t) (pos t) p2 in
    pos t1 = pos t + length (m0 m)
    /\ pos t1 <= p2 <= length (str t)
    /\ scanToEndTag (Some name) t1
       = (slice (str t) (pos t1) p2, set_pos t p2)
    /\ block = m0 m ++ slice (str t) (pos t1) p2
    /\ ((p2 = length (str t) /\ scans (Some name) t1 p2)
        \/ exists q m',
            scans (Some name) t1 q /\ q < length (str t)
            /\ tryScanTag (set_pos t q) = (Some m', set_pos t p2)
            /\ is_end_tag (Some name) m' = true)
    /\ (forall body tail,
           rest t1 = body ++ end_tag_text name ++ tail ->
           no_lt body = true ->
           block = m0 m ++ body ++ end_tag_text name)
    /\ (_newline t = false ->
        matchToken t
        = Ok (enqueue (set_pos t p2) (Tk opaqueTag block) (getLocation t)))
    /\ (forall fuel out,
           scanChars_loop (S fuel) t out
           = (out, enqueueLookahead (set_pos t p2) (Tk opaqueTag block)
                     (getLocation t)))
    /\ (forall t0 ws,
           _newline t0 = true ->
           rest t0 = ws ++ rest t ->
           forallb isWhitespace ws = true ->
           t = set_pos (set_newline t0 false) (pos t0 + length ws) ->
           matchToken t0
           = Ok (enqueue (set_pos t p2) (Tk opaqueTag (ws ++ block))
                   (getLocation t0))).
Proof.
  intros H G1 Hin _.
  pose proof (@tryScanTag_first t m H) as E0.
  pose proof (chr_at_0_lt _ E0) as Hlt.
  destruct (@tryScanTag_some t m H) as (E & (tl & Hm) & Hr & G2).
  assert (Hle : pos t + length (m0 m) <= length (str t)).
  { apply rest_app_pos with (s' := rest (set_pos t (pos t + length (m0 m))));
      [lia|exact Hr]. }
  set (t1 := set_pos t (pos t + length (m0 m))) in *.
  destruct (@scanToEndTag_loop_stop (Some name) (length (str t1) - pos t1) t1)
    as (p2 & Hp & Hb & St); [exact Hle|lia|].
  change (pos t1) with (pos t + length (m0 m)) in Hb, St.
  change (str t1) with (str t) in Hb, St.
  change (set_pos t1 p2) with (set_pos t p2) in Hp.
  assert (Es : scanToEndTag (Some name) t1
               = (slice (str t) (pos t + length (m0 m)) p2, set_pos t p2)).
  { unfold scanToEndTag. rewrite Hp. reflexivity. }
  assert (Hm0 : slice (str t) (pos t) (pos t + length (m0 m)) = m0 m).
  { rewrite slice_rest. fold (slice_from (str t) (pos t)). fold (rest t).
    rewrite Hr. apply firstn_app_exact. }
  assert (Bl : slice (str t) (pos t) p2
               = m0 m ++ slice (str t) (pos t + length (m0 m)) p2).
  { rewrite (@slice_split (str t) (pos t) (pos t + length (m0 m)) p2);
      [|lia|lia]. now rewrite Hm0. }
  assert (Op : opaque_start m = true).
  { unfold opaque_start. rewrite G1, (@opaqueTags_has_In _ Hin), G2.
    reflexivity. }
  assert (D : dispatch t
              = Ok (enqueue (set_pos t p2)
                      (Tk opaqueTag (slice (str t) (pos t) p2))
                      (getLocation t))).
  { rewrite (@dispatch_tag t m H), Op, E. cbn [snd].
    rewrite G1, Es, Bl. reflexivity. }
  exists p2. rewrite E. cbn [snd]. cbv zeta.
  change (pos t1) with (pos t + length (m0 m)).
  split; [reflexivity|]. split; [exact Hb|]. split; [exact Es|].
  split; [exact Bl|]. split; [|split; [|split; [|split]]].
  - destruct St as [St|(q & m' & Vq & Hq & Et & Ie)]; [left; exact St|].
    right. exists q, m'. auto.
  - intros body tail R B.
    pose proof (@scanToEndTag_body t1 name body tail R B
                  (@opaqueTags_tag_name _ Hin)) as Eb.
    rewrite Es in Eb. apply (f_equal fst) in Eb. cbn [fst] in Eb.
    rewrite Bl, Eb. reflexivity.
  - intros Hn. unfold matchToken.
    destruct (Nat.eqb_spec (pos t) (length (str t))); [lia|].
    rewrite Hn. exact D.
  - intros fuel out. cbn [scanChars_loop]. rewrite E0.
    change (N.eqb c_lt c_bslash) with false.
    change (isChars c_lt) with false.
    change (N.eqb c_lt c_lt) with true. cbv iota.
    rewrite E, G1, (@opaqueTags_has_In _ Hin), G2. cbn [andb].
    fold t1. rewrite Es, Bl. reflexivity.
  - intros t0 ws Hn R W Ht.
    assert (S0 : str t = str t0) by (rewrite Ht; reflexivity).
    assert (P0 : pos t = pos t0 + length ws) by (rewrite Ht; reflexivity).
    unfold matchToken.
    destruct (Nat.eqb_spec (pos t0) (length (str t0)));
      [rewrite S0 in Hlt; lia|].
    rewrite Hn.
    pose proof (@line_start_tag t0 ws (rest t) m R W) as L.
    cbv zeta in L. rewrite <- Ht in L. rewrite (L H), Op, E. cbn [snd].
    rewrite G1. fold t1. rewrite Es, Bl. reflexivity.
Qed.

Lemma opaque_capture_witness :
  let t0 := new_Tokenizer (lit "  <pre>a*b</pre>c") in
  let t := set_pos (set_newline t0 false) 2 in
  fst (tryScanTag t) = Some (the_tag t)
  /\ group (the_tag t) 1 = Some (lit "pre")
  /\ In (lit "pre") opaqueTags
  /\ is_chr c_slash (nth_error (m0 (the_tag t)) 1) = false
  /\ exists p2,
       slice (str t) (pos t) p2 = lit "<pre>a*b</pre>"
       /\ matchToken t0
          = Ok (enqueue (set_pos t p2)
                  (Tk opaqueTag (lit "  " ++ slice (str t) (pos t) p2))
                  (getLocation t0)).
Proof.
  intros t0 t.
  assert (Hin : In (lit "pre") opaqueTags) by (simpl; tauto).
  split; [reflexivity|]. split; [reflexivity|]. split; [exact Hin|].
  split; [reflexivity|].
  destruct (@opaque_capture t (the_tag t) (lit "pre")
              eq_refl eq_refl Hin eq_refl)
    as (p2 & _ & _ & _ & _ & _ & Hbody & _ & _ & Hls).
  exists p2. split.
  - rewrite (Hbody (lit "a*b") (lit "c") eq_refl eq_refl). reflexivity.
  - apply (Hls t0 (lit "  ") eq_refl eq_refl eq_refl eq_refl).
Defined.

(** C5 as stated fails at a line start: for the input of two spaces,
    an opening pre tag, [a], the end tag and [b], the tag recognised at
    offset 2 is the opening tag, and the one opaqueTag token has the
    contents of the two spaces, the tag, [a] and the end tag, which do
    not start with the opening tag.  And with no end tag in the input
    the scan stops at the end of the input. *)
Lemma opaque_capture_counterexample :
  m0 (the_tag (set_pos (new_Tokenizer (lit "  <pre>a</pre>b")) 2))
  = lit "<pre>"
  /\ tokens 3 (lit "  <pre>a</pre>b")
     = Some [(opaqueTag, Some (lit "  <pre>a</pre>"));
             (text, Some (lit "b")); (EOF, None)]
  /\ (forall x, lit "  <pre>a</pre>" <> lit "<pre>" ++ x)
  /\ tokens 2 (lit "<pre>a*b")
     = Some [(opaqueTag, Some (lit "<pre>a*b")); (EOF, None)].
Proof.
  split; [reflexivity|]. split; [reflexivity|].
  split; [intros x; discriminate|reflexivity].
Qed.

(** Nested tags and delimiters inside an opaque block stay in the one
    token. *)
Example opaque_nested :
  tokens 3 (lit "x<pre>a*b<i></pre>c")
  = Some [(text, Some (lit "x"));
          (opaqueTag, Some (lit "<pre>a*b<i></pre>"));
          (text, Some (lit "c"))].
Proof. reflexivity. Qed.

(** The test on the second group of the tag match never fails
    ([tag_match_facts]), so a closing tag with an opaque name starts a
    raw capture as well. *)
Example closing_tag_starts_capture :
  tokens 3 (lit "x</pre>*a*")
  = Some [(text, Some (lit "x"));
          (opaqueTag, Some (lit "</pre>*a*")); (EOF, None)].
Proof. reflexivity. Qed.

(** ** Locations *)

Lemma chain_app (l1 : list Token) :
  forall a b c l2, chain a l1 b -> chain b l2 c -> chain a (l1 ++ l2) c.
Proof.
  induction l1 as [|x l1 IH]; intros a b c l2 H1 H2; simpl in *.
  - now subst.
  - destruct H1 as [A B]. split; [exact A|]. now apply IH with (b := b).
Qed.

Lemma run_length_nth (p : char -> bool) (s : ustring) :
  forall i, i < run_length p s ->
            exists c, nth_error s i = Some c /\ p c = true.
Proof.
  induction s as [|x s IH]; intros i H; simpl in H; [lia|].
  destruct (p x) eqn:E; [|lia].
  destruct i as [|i]; simpl; [eauto|]. apply IH. lia.
Qed.

Lemma tame_tail (c : char) (l : ustring) : tame (c :: l) = true -> tame l = true.
Proof.
  cbn [tame]. intros H. apply andb_true_iff in H. tauto.
Qed.

Lemma tame_skipn (i : nat) :
  forall l, tame l = true -> tame (skipn i l) = true.
Proof.
  induction i as [|i IH]; intros l H; [exact H|].
  destruct l as [|c l]; [exact H|]. simpl. apply IH.
  exact (@tame_tail _ _ H).
Qed.

Lemma tame_no_bslash (l : ustring) (c : char) :
  tame l = true -> In c l -> N.eqb c c_bslash = false.
Proof.
  induction l as [|x l IH]; intros H Hin; [contradiction|].
  destruct Hin as [E|Hin].
  - subst x. cbn [tame] in H. apply andb_true_iff in H. destruct H as [H _].
    apply andb_true_iff in H. destruct H as [H _].
    now apply negb_true_iff in H.
  - apply IH; [exact (@tame_tail _ _ H)|exact Hin].
Qed.

(** In [tame] text the character before a [<] is a [separator]. *)
Lemma tame_pair (l : ustring) :
  forall i p, tame l = true -> nth_error l i = Some p ->
              nth_error l (S i) = Some c_lt -> separator p = true.
Proof.
  induction l as [|x l IH]; intros i p H Hp Hl; [destruct i; discriminate|].
  destruct i as [|i].
  - simpl in Hp. inversion Hp; subst x.
    destruct l as [|d l]; [discriminate|]. simpl in Hl. inversion Hl; subst d.
    cbn [tame] in H. apply andb_true_iff in H. destruct H as [H _].
    apply andb_true_iff in H. destruct H as [_ H].
    change (N.eqb c_lt c_lt) with true in H. exact H.
  - apply (IH i p (@tame_tail _ _ H) Hp Hl).
Qed.

Lemma clean_tame (s : ustring) (i : nat) :
  clean s = true -> tame (skipn i s) = true.
Proof.
  unfold clean. intros H. apply andb_true_iff in H. destruct H as [H _].
  apply tame_skipn. exact H.
Qed.

Lemma clean_start_ok (s : ustring) (i : nat) :
  clean s = true -> i < length s -> line_start_at s i = true ->
  start_ok (skipn i s) = true.
Proof.
  unfold clean. intros H Hi L. apply andb_true_iff in H. destruct H as [_ H].
  rewrite forallb_forall in H. specialize (H i).
  rewrite L in H. apply H. apply in_seq. lia.
Qed.

Lemma enqueue_exact (t t2 : Tokenizer) (nm : TokenName) (c : ustring)
    (p : Position) :
  str t2 = str t -> queue t2 = queue t -> _lookahead t2 = [] ->
  offset p = pos t -> c = slice (str t) (pos t) (pos t2) ->
  exists tk,
    exact_token t (enqueue t2 (Tk nm c) p) tk
    /\ _newline (enqueue t2 (Tk nm c) p) = _newline t2.
Proof.
  intros Hs Hq Hl Hp Hc.
  destruct (enqueue_fields t2 (Tk nm c) p)
    as (_ & _ & _ & N & P & _ & tk & Q & U & S0 & E).
  exists tk. split; [|exact N].
  unfold exact_token, start_offset, end_offset, tok_contents.
  rewrite Q, Hl, Hq, S0, E, U, P, Hp. cbn [contents Tk]. rewrite Hc.
  repeat split.
Qed.

Lemma slice_firstn_rest (t : Tokenizer) (n : nat) :
  slice (str t) (pos t) (pos t + n) = firstn n (rest t).
Proof. apply slice_rest. Qed.

(** On [tame] text that does not start with [<], [scanChars] takes the
    longest run of text characters. *)
Lemma scanChars_tame_run (t : Tokenizer) :
  pos t <= length (str t) -> tame (rest t) = true ->
  is_chr c_lt (chr_at t 0) = false ->
  scanChars t
  = (firstn (run_length isChars (rest t)) (rest t),
     set_pos t (pos t + run_length isChars (rest t))).
Proof.
  intros H O F. unfold scanChars.
  set (k := run_length isChars (rest t)).
  assert (Hk : k <= length (str t) - pos t).
  { unfold k. rewrite <- rest_length. apply run_length_le. }
  assert (Pl : forallb plain (firstn k (rest t)) = true).
  { apply forallb_forall. intros c Hc. unfold plain.
    pose proof (run_length_firstn isChars (rest t)) as R.
    rewrite forallb_forall in R. rewrite (R c Hc). cbn [andb].
    assert (Hin : In c (rest t)).
    { rewrite <- (firstn_skipn k (rest t)). apply in_or_app. now left. }
    now rewrite (@tame_no_bslash _ _ O Hin). }
  assert (Lk : length (firstn k (rest t)) = k).
  { apply firstn_run_length_length. }
  rewrite (@scanChars_loop_plain (firstn k (rest t)) t [] _
             (skipn k (rest t)));
    [|symmetry; apply firstn_skipn|exact Pl|rewrite Lk; exact Hk].
  rewrite Lk. cbn [app].
  set (t' := set_pos t (pos t + k)).
  destruct (length (str t) - pos t - k) as [|fuel]; [reflexivity|].
  cbn [scanChars_loop].
  destruct (chr_at t' 0) as [c|] eqn:Ec; [|reflexivity].
  assert (Hn : nth_error (rest t) k = Some c).
  { unfold t' in Ec. rewrite chr_at_rest, rest_set_pos in Ec.
    rewrite nth_error_skipn in Ec. now rewrite Nat.add_0_r in Ec. }
  pose proof (run_length_stop isChars (rest t) Hn) as Ic.
  rewrite (@tame_no_bslash _ _ O (nth_error_In _ _ Hn)), Ic.
  destruct (N.eqb_spec c c_lt) as [->|_]; [exfalso|reflexivity].
  destruct k as [|k'] eqn:Ek.
  - rewrite chr_at_rest, Hn in F. discriminate.
  - destruct (@run_length_nth isChars (rest t) k') as (p & Hp & Ip);
      [fold k; lia|].
    pose proof (@tame_pair _ _ _ O Hp Hn) as Sp.
    unfold separator in Sp. rewrite Ip in Sp. discriminate.
Qed.

(** On [tame] text, from a [<] that starts neither a tag nor a comment
    [scanChars] takes the [<] and the run of text characters behind
    it. *)
Lemma scanChars_tame_lt (t : Tokenizer) :
  chr_at t 0 = Some c_lt -> tame (rest t) = true ->
  tryScanTag t = (None, t) -> tryScanComment t = (None, t) ->
  exists k,
    scanChars t = (firstn k (rest t), set_pos t (pos t + k)).
Proof.
  intros E0 O Et Ec.
  pose proof (chr_at_0_lt _ E0) as Hlt.
  destruct (chr_at_0_rest _ E0) as (l & R).
  destruct (rest_cons _ R) as (_ & R1 & _).
  set (t' := set_pos t (S (pos t))) in *.
  assert (O' : tame (rest t') = true).
  { rewrite R1. rewrite R in O. exact (@tame_tail _ _ O). }
  assert (F' : is_chr c_lt (chr_at t' 0) = false).
  { rewrite chr_at_rest, R1. destruct l as [|d l']; [reflexivity|].
    cbn [nth_error is_chr].
    destruct (N.eqb_spec d c_lt) as [->|_]; [|reflexivity].
    rewrite R in O.
    pose proof (@tame_pair _ 0 c_lt O eq_refl eq_refl) as Sp.
    discriminate. }
  assert (P' : pos t' <= length (str t')) by (cbn [pos str set_pos t']; lia).
  exists (S (run_length isChars (rest t'))).
  unfold scanChars.
  destruct (length (str t) - pos t) as [|fuel] eqn:Ef; [lia|].
  cbn [scanChars_loop]. rewrite E0.
  change (N.eqb c_lt c_bslash) with false.
  change (isChars c_lt) with false.
  change (N.eqb c_lt c_lt) with true. cbv iota.
  rewrite Et, Ec. fold t'. rewrite scanChars_loop_out.
  replace fuel with (length (str t') - pos t')
    by (cbn [pos str set_pos t']; lia).
  fold (scanChars t'). rewrite (@scanChars_tame_run t' P' O' F').
  cbn [fst snd app pos set_pos t']. rewrite R1, R. cbn [firstn].
  f_equal.
  transitivity (set_pos t (S (pos t) + run_length isChars l));
    [reflexivity|f_equal; lia].
Qed.

Lemma slice_one (t : Tokenizer) (c : char) :
  chr_at t 0 = Some c -> slice (str t) (pos t) (S (pos t)) = [c].
Proof.
  intros H. destruct (chr_at_0_rest _ H) as (s & R).
  replace (S (pos t)) with (pos t + 1) by lia.
  rewrite slice_firstn_rest, R. reflexivity.
Qed.

Lemma tryScanTag_slice (t : Tokenizer) (m : Match) :
  pos t <= length (str t) -> fst (tryScanTag t) = Some m ->
  tryScanTag t = (Some m, set_pos t (pos t + length (m0 m)))
  /\ slice (str t) (pos t) (pos t + length (m0 m)) = m0 m
  /\ pos t + length (m0 m) <= length (str t).
Proof.
  intros H E.
  destruct (@tryScanTag_some t m E) as (Et & _ & Hr & _).
  split; [exact Et|]. split.
  - rewrite slice_firstn_rest, Hr. apply firstn_app_exact.
  - exact (rest_app_pos _ _ _ H Hr).
Qed.

(** A [<] at the position of [t] starts a token that spans what is
    consumed: a comment, a tag, an opaque block, or text. *)
Lemma dispatch_lt_exact (t : Tokenizer) :
  chr_at t 0 = Some c_lt -> _lookahead t = [] -> tame (rest t) = true ->
  exists t1 tk, dispatch t = Ok t1 /\ exact_token t t1 tk.
Proof.
  intros Ec L O.
  pose proof (chr_at_0_lt _ Ec) as H.
  assert (Fb : tryScanTag t = (None, t) -> tryScanComment t = (None, t) ->
               exists t1 tk,
                 Ok (enqueue (snd (scanChars t)) (Tk text (fst (scanChars t)))
                       (getLocation t)) = Ok t1
                 /\ exact_token t t1 tk).
  { intros Et Em.
    destruct (@scanChars_tame_lt t Ec O Et Em) as (k & Es). rewrite Es.
    cbn [fst snd].
    destruct (@enqueue_exact t (set_pos t (pos t + k)) text
                (firstn k (rest t)) (getLocation t) eq_refl eq_refl L eq_refl)
      as (tk & X & _).
    { cbn [pos set_pos]. symmetry. apply slice_firstn_rest. }
    eauto. }
  unfold dispatch. rewrite Ec.
  change (N.eqb c_lt c_star) with false.
  change (N.eqb c_lt c_underscore) with false.
  change (N.eqb c_lt c_tick) with false.
  change (N.eqb c_lt c_pipe) with false.
  change (N.eqb c_lt c_tilde) with false.
  change (N.eqb c_lt c_nl) with false.
  change (isWhitespace c_lt) with false.
  change (isChars c_lt) with false.
  change (N.eqb c_lt c_lt) with true. cbv iota zeta.
  destruct (is_chr c_bang (chr_at t 1) && is_chr c_minus (chr_at t 2)
            && is_chr c_minus (chr_at t 3)) eqn:Eb.
  - pose proof (comment_start_tryScanTag t Ec Eb) as Et.
    destruct (tryScanComment_spec t) as [Em|(cm & tl & Em & _ & Hr)];
      rewrite Em.
    + specialize (Fb Et Em). destruct (scanChars t). exact Fb.
    + destruct (@enqueue_exact t (set_pos t (pos t + length cm)) comment cm
                  (getLocation t) eq_refl eq_refl L eq_refl)
        as (tk & X & _).
      { cbn [pos set_pos]. rewrite slice_firstn_rest, Hr. symmetry.
        apply firstn_app_exact. }
      eauto.
  - pose proof (no_comment_start_tryScanComment t Eb) as Em.
    destruct (fst (tryScanTag t)) as [m|] eqn:Ef.
    + destruct (@tryScanTag_slice t m (Nat.lt_le_incl _ _ H) Ef)
        as (Et & Sm & Hle).
      rewrite Et.
      destruct (opaque_start m).
      * set (t1 := set_pos t (pos t + length (m0 m))).
        destruct (scanToEndTag_spec (group m 1) t1 Hle) as (p & Es & Hp).
        rewrite Es.
        change (pos t1) with (pos t + length (m0 m)) in *.
        change (str t1) with (str t) in *.
        destruct (@enqueue_exact t (set_pos t1 p) opaqueTag
                    (m0 m ++ slice (str t) (pos t + length (m0 m)) p)
                    (getLocation t) eq_refl eq_refl L eq_refl)
          as (tk & X & _).
        { cbn [pos set_pos].
          rewrite (@slice_split (str t) (pos t) (pos t + length (m0 m)) p);
            [|lia|lia].
          now rewrite Sm. }
        eauto.
      * destruct (@enqueue_exact t (set_pos t (pos t + length (m0 m))) tag
                    (m0 m) (getLocation t) eq_refl eq_refl L eq_refl)
          as (tk & X & _).
        { cbn [pos set_pos]. symmetry. exact Sm. }
        eauto.
    + assert (Et : tryScanTag t = (None, t)).
      { destruct (tryScanTag_spec t) as [E|(m & tl & E & _)]; [exact E|].
        rewrite E in Ef. discriminate. }
      rewrite Et. specialize (Fb Et Em). destruct (scanChars t). exact Fb.
Qed.

(** Away from a line start and on [tame] text, the generic dispatch
    queues one token that spans what it consumed. *)
Lemma dispatch_exact (t : Tokenizer) :
  pos t < length (str t) -> _lookahead t = [] ->
  tame (rest t) = true ->
  exists t1 tk, dispatch t = Ok t1 /\ exact_token t t1 tk.
Proof.
  intros H L O.
  destruct (chr_at t 0) as [chr|] eqn:Ec.
  2:{ apply chr_at_0_None in Ec. lia. }
  destruct (N.eqb_spec chr c_lt) as [->|Hlt];
    [exact (@dispatch_lt_exact t Ec L O)|].
  pose proof (slice_one _ Ec) as S1.
  assert (One : forall nm,
             exists t1 tk,
               Ok (enqueue (set_pos t (S (pos t))) (Tk nm [chr])
                     (getLocation t)) = Ok t1
               /\ exact_token t t1 tk).
  { intros nm.
    destruct (@enqueue_exact t (set_pos t (S (pos t))) nm [chr]
                (getLocation t) eq_refl eq_refl L eq_refl)
      as (tk & X & _); [symmetry; exact S1|].
    eauto. }
  unfold dispatch. rewrite Ec.
  destruct (N.eqb_spec chr c_star) as [_|N1]; [apply One|].
  destruct (N.eqb_spec chr c_underscore) as [_|N2]; [apply One|].
  destruct (N.eqb_spec chr c_tick) as [_|N3]; [apply One|].
  destruct (N.eqb_spec chr c_pipe) as [_|N4]; [apply One|].
  destruct (N.eqb_spec chr c_tilde) as [_|N5]; [apply One|].
  destruct (N.eqb_spec chr c_nl) as [->|Hnl].
  { cbv zeta. cbn [pos set_newline str].
    set (r := run_length (fun c => N.eqb c c_nl)
                (slice_from (str t) (S (pos t)))).
    destruct (Nat.eqb_spec (S (pos t) + r) (S (pos t))) as [Er|Er].
    - destruct (@enqueue_exact t
                  (set_pos (set_newline t true) (S (pos t) + r))
                  linebreak [c_nl] (getLocation t) eq_refl eq_refl L eq_refl)
        as (tk & X & _).
      { cbn [pos set_pos]. rewrite Er. symmetry. exact S1. }
      eauto.
    - destruct (@enqueue_exact t
                  (set_pos (set_newline t true) (S (pos t) + r))
                  parabreak
                  (slice (str t) (pos t) (S (pos t) + r))
                  (getLocation t) eq_refl eq_refl L eq_refl)
        as (tk & X & _); [reflexivity|].
      eauto. }
  destruct (isWhitespace chr) eqn:Ew.
  { rewrite scanWhitespace_eq.
    destruct (@enqueue_exact t
                (set_pos t (pos t + run_length isWhitespace (rest t)))
                whitespace
                (firstn (run_length isWhitespace (rest t)) (rest t))
                (getLocation t) eq_refl eq_refl L eq_refl)
      as (tk & X & _).
    { cbn [pos set_pos]. symmetry. apply slice_firstn_rest. }
    eauto. }
  assert (Hl : N.eqb chr c_lt = false) by (now apply N.eqb_neq).
  destruct (isChars chr) eqn:Ei.
  { assert (F : is_chr c_lt (chr_at t 0) = false) by (rewrite Ec; exact Hl).
    rewrite (@scanChars_tame_run t (Nat.lt_le_incl _ _ H) O F).
    destruct (@enqueue_exact t
                (set_pos t (pos t + run_length isChars (rest t)))
                text
                (firstn (run_length isChars (rest t)) (rest t))
                (getLocation t) eq_refl eq_refl L eq_refl)
      as (tk & X & _).
    { cbn [pos set_pos]. symmetry. apply slice_firstn_rest. }
    eauto. }
  rewrite Hl.
  destruct (dispatch_exhaustive chr)
    as [-> | [-> | [-> | [-> | [-> | [-> | [W | [I | ->]]]]]]]];
    try contradiction; try discriminate; try congruence.
Qed.

(** The newline flag is raised only behind a line feed. *)
Lemma dispatch_line_start (t t1 : Tokenizer) :
  pos t < length (str t) -> dispatch t = Ok t1 ->
  _newline t = false -> _newline t1 = true ->
  line_start_at (str t) (pos t1) = true.
Proof.
  intros H D N N1.
  pose proof (dispatch_newline t (Nat.lt_le_incl _ _ H) D) as Nl.
  rewrite N, N1 in Nl. cbn [orb] in Nl.
  destruct (chr_at t 0) as [chr|] eqn:Ec; [|discriminate].
  cbn [is_chr] in Nl. symmetry in Nl. apply N.eqb_eq in Nl. subst chr.
  unfold dispatch in D. rewrite Ec in D.
  change (N.eqb c_nl c_star) with false in D.
  change (N.eqb c_nl c_underscore) with false in D.
  change (N.eqb c_nl c_tick) with false in D.
  change (N.eqb c_nl c_pipe) with false in D.
  change (N.eqb c_nl c_tilde) with false in D.
  change (N.eqb c_nl c_nl) with true in D. cbv iota zeta in D.
  cbn [pos set_newline str] in D.
  set (r := run_length (fun c => N.eqb c c_nl)
              (slice_from (str t) (S (pos t)))) in *.
  assert (P1 : pos t1 = S (pos t) + r).
  { destruct (S (pos t) + r =? S (pos t)); inversion D;
      match goal with
      | |- pos (enqueue ?a ?b ?c) = _ =>
          destruct (enqueue_fields a b c) as (_ & _ & _ & _ & P & _);
          rewrite P; reflexivity
      end. }
  unfold line_start_at. rewrite P1.
  replace (S (pos t) + r - 1) with (pos t + r) by lia.
  apply orb_true_iff. right.
  destruct r as [|r'] eqn:Er.
  - rewrite Nat.add_0_r. unfold chr_at in Ec. rewrite Nat.add_0_r in Ec.
    rewrite Ec. reflexivity.
  - destruct (@run_length_nth (fun c => N.eqb c c_nl)
                (slice_from (str t) (S (pos t))) r') as (c & Hc & Hn).
    { fold r. lia. }
    unfold slice_from in Hc. rewrite nth_error_skipn in Hc.
    replace (pos t + S r') with (S (pos t) + r') by lia.
    rewrite Hc. exact Hn.
Qed.

Lemma marker_tail_true (rst : ustring) :
  marker_tail rst = true -> exists tl, rst = c_dot :: c_space :: tl.
Proof.
  unfold marker_tail. destruct rst as [|a [|b tl]]; simpl;
    try (rewrite ?andb_false_r; discriminate).
  intros H. apply andb_true_iff in H. destruct H as [A B].
  apply N.eqb_eq in A, B. subst. eauto.
Qed.

Lemma is_d_isChars (c : char) : is_d c = true -> isChars c = true.
Proof.
  unfold is_d, isChars, isFormat. intros H.
  apply andb_true_iff in H. destruct H as [A B].
  apply N.leb_le in A, B.
  repeat match goal with
         | |- context [N.eqb c ?d] =>
             destruct (N.eqb_spec c d) as [->|_];
             [unfold d in *; lia|]
         end.
  reflexivity.
Qed.

(** At a line start of a [start_ok] line of [tame] text, the line-start
    branch queues one token that spans what it consumed, or consumes
    nothing and falls through. *)
Lemma line_start_exact (t : Tokenizer) :
  pos t < length (str t) -> _lookahead t = [] ->
  tame (rest t) = true -> start_ok (rest t) = true ->
  match line_start t with
  | inl t1 => exists tk, exact_token t t1 tk
  | inr t1 => t1 = set_newline t false
  end.
Proof.
  intros H L O So.
  set (n := run_length isWhitespace (rest t)).
  set (ws := firstn n (rest t)).
  set (l' := skipn n (rest t)).
  assert (R : rest t = ws ++ l') by (symmetry; apply firstn_skipn).
  assert (Lw : length ws = n) by apply firstn_run_length_length.
  assert (Hw : forallb isWhitespace ws = true) by apply run_length_firstn.
  assert (Hn : pos t + n <= length (str t)).
  { apply run_pos_le. lia. }
  assert (Ll : length l' = length (str t) - pos t - n).
  { unfold l'. rewrite length_skipn, rest_length. reflexivity. }
  assert (Ol : tame l' = true) by (apply tame_skipn; exact O).
  assert (So' : (n =? 0)
                || match l' with
                   | c :: _ =>
                       if is_d c
                       then marker_tail (skipn (run_length is_d l') l')
                       else negb (N.eqb c c_lt)
                   | [] => true
                   end = true) by exact So.
  clear So.
  destruct l' as [|c tl] eqn:El'.
  { (* the line is white space to the end of the input *)
    unfold line_start. rewrite scanWhitespace_eq.
    change (rest (set_newline t false)) with (rest t). fold n ws.
    cbn [pos set_pos set_newline str]. simpl in Ll.
    destruct (Nat.leb_spec (length (str t)) (pos t + n)); [|lia].
    destruct (Nat.ltb_spec 0 (length ws)); [|lia].
    destruct (@enqueue_exact t (set_pos (set_newline t false) (pos t + n))
                whitespace ws (getLocation t) eq_refl eq_refl L eq_refl)
      as (tk & X & _).
    { cbn [pos set_pos]. symmetry. apply slice_firstn_rest. }
    exists tk. exact X. }
  destruct (is_d c) eqn:Ed.
  { (* digits *)
    set (d := run_length is_d (c :: tl)) in *.
    set (digits := firstn d (c :: tl)).
    set (rst := skipn d (c :: tl)) in *.
    assert (Rd : c :: tl = digits ++ rst) by (symmetry; apply firstn_skipn).
    assert (Ld : length digits = d) by apply firstn_run_length_length.
    assert (Hd : forallb is_d digits = true) by apply run_length_firstn.
    assert (Hne : digits <> []).
    { unfold digits, d. simpl. rewrite Ed. discriminate. }
    assert (Hs : stops is_d rst).
    { unfold stops, rst. destruct (skipn d (c :: tl)) as [|x r] eqn:Es;
        [exact I|].
      apply (@run_length_stop is_d (c :: tl)). fold d.
      rewrite <- (Nat.add_0_r d), <- nth_error_skipn, Es. reflexivity. }
    assert (R' : rest t = ws ++ digits ++ rst) by (rewrite R, Rd; reflexivity).
    destruct (@line_start_digits t ws digits rst R' Hw Hd Hne Hs)
      as (R2 & Els).
    cbv zeta in R2, Els. rewrite Lw, Ld in R2, Els. rewrite Els.
    set (t2 := set_pos (set_newline t false) (pos t + n + d)) in *.
    destruct (marker_tail rst) eqn:Em.
    - destruct (marker_tail_true _ Em) as (tl' & Er).
      destruct (@enqueue_exact t (set_pos t2 (pos t2 + 2)) ol
                  (ws ++ digits ++ [c_dot; c_space]) (getLocation t)
                  eq_refl eq_refl L eq_refl)
        as (tk & X & _).
      { cbn [pos set_pos t2].
        replace (pos t + n + d + 2) with (pos t + (n + (d + 2))) by lia.
        rewrite slice_firstn_rest, R', Er, <- Lw, firstn_app_2.
        rewrite <- Ld, firstn_app_2. reflexivity. }
      exists tk. exact X.
    - assert (N0 : n = 0).
      { rewrite orb_false_r in So'. now apply Nat.eqb_eq in So'. }
      destruct (Nat.ltb_spec 0 n); [lia|].
      assert (O2 : tame (rest t2) = true).
      { rewrite R2. unfold rst. apply tame_skipn. exact Ol. }
      assert (P2 : pos t2 <= length (str t2)).
      { pose proof (rest_length t2) as Lr. rewrite R2 in Lr.
        cbn [pos str set_pos set_newline t2] in *.
        pose proof (rest_length t) as Lt. rewrite R', !length_app in Lt.
        lia. }
      assert (F2 : is_chr c_lt (chr_at t2 0) = false).
      { rewrite chr_at_rest, R2.
        destruct (nth_error rst 0) as [x|] eqn:Ex; [|reflexivity].
        cbn [is_chr]. destruct (N.eqb_spec x c_lt) as [->|_]; [|reflexivity].
        exfalso.
        assert (D0 : 0 < d) by (rewrite <- Ld; destruct digits;
                                 [contradiction|simpl; lia]).
        destruct (@run_length_nth is_d (c :: tl) (d - 1)) as (q & Hq & Iq);
          [fold d; lia|].
        assert (Hx : nth_error (c :: tl) (S (d - 1)) = Some c_lt).
        { replace (S (d - 1)) with (d + 0) by lia.
          rewrite <- nth_error_skipn. exact Ex. }
        pose proof (@tame_pair _ _ _ Ol Hq Hx) as Sq.
        unfold separator in Sq. rewrite (is_d_isChars _ Iq) in Sq.
        discriminate. }
      rewrite (@scanChars_tame_run t2 P2 O2 F2). cbn [fst snd].
      set (k := run_length isChars (rest t2)).
      destruct (@enqueue_exact t (set_pos t2 (pos t2 + k)) text
                  (digits ++ firstn k (rest t2)) (getLocation t)
                  eq_refl eq_refl L eq_refl)
        as (tk & X & _).
      { cbn [pos set_pos t2].
        replace (pos t + n + d + k) with (pos t + (d + k)) by lia.
        assert (Wn : ws = []).
        { destruct ws; [reflexivity|simpl in Lw; lia]. }
        rewrite slice_firstn_rest, R', Wn, R2. cbn [app].
        rewrite <- Ld, firstn_app_2. reflexivity. }
      exists tk. exact X. }
  (* neither the end of the input nor a digit *)
  assert (E1 : chr_at (set_pos (set_newline t false) (pos t + n)) 0 = Some c).
  { rewrite chr_at_rest.
    change (set_pos (set_newline t false) (pos t + n))
      with (set_pos (set_newline t false) (pos (set_newline t false) + n)).
    rewrite rest_set_pos. change (rest (set_newline t false)) with (rest t).
    fold l'. rewrite El'. reflexivity. }
  assert (E2 : chr_at (set_pos (set_newline t false) (pos t + n)) 1
               = nth_error tl 0).
  { rewrite chr_at_rest.
    change (set_pos (set_newline t false) (pos t + n))
      with (set_pos (set_newline t false) (pos (set_newline t false) + n)).
    rewrite rest_set_pos. change (rest (set_newline t false)) with (rest t).
    fold l'. rewrite El'. reflexivity. }
  simpl in Ll.
  unfold line_start. rewrite scanWhitespace_eq.
  change (rest (set_newline t false)) with (rest t). fold n ws.
  change (pos (set_newline t false)) with (pos t).
  set (t1 := set_pos (set_newline t false) (pos t + n)) in *.
  change (str t1) with (str t). change (pos t1) with (pos t + n).
  destruct (Nat.leb_spec (length (str t)) (pos t + n)); [lia|].
  rewrite E1, Ed, E2.
  destruct (is_chr c_star (Some c) && is_chr c_space (nth_error tl 0)) eqn:Eu.
  { apply andb_true_iff in Eu. destruct Eu as [A B]. cbn [is_chr] in A.
    apply N.eqb_eq in A. subst c.
    destruct tl as [|b tl']; [discriminate|]. cbn [nth_error is_chr] in B.
    apply N.eqb_eq in B. subst b.
    destruct (@enqueue_exact t (set_pos t1 (pos t + n + 2)) ul
                (ws ++ [c_star; c_space]) (getLocation t)
                eq_refl eq_refl L eq_refl)
      as (tk & X & _).
    { cbn [pos set_pos].
      replace (pos t + n + 2) with (pos t + (n + 2)) by lia.
      rewrite slice_firstn_rest, R, <- Lw, firstn_app_2. reflexivity. }
    exists tk. exact X. }
  destruct (N.eqb_spec c c_lt) as [->|Hlt].
  { (* a tag, an opaque block or a comment at the very start of the line *)
    assert (N0 : n = 0).
    { change (N.eqb c_lt c_lt) with true in So'. cbn [negb] in So'.
      rewrite orb_false_r in So'. now apply Nat.eqb_eq in So'. }
    assert (Wn : ws = []).
    { destruct ws; [reflexivity|simpl in Lw; lia]. }
    assert (T1 : t1 = set_newline t false).
    { unfold t1. rewrite N0.
      change (pos t + 0) with (pos (set_newline t false) + 0).
      apply set_pos_add_0. }
    rewrite T1 in *. rewrite Wn. cbn [is_chr app length].
    change (N.eqb c_lt c_lt) with true. cbv iota.
    set (t0 := set_newline t false) in *.
    assert (P0 : pos t0 <= length (str t0)) by (cbn [pos str t0 set_newline]; lia).
    destruct (fst (tryScanTag t0)) as [m|] eqn:Ef.
    - destruct (@tryScanTag_slice t0 m P0 Ef) as (Et & Sm & Hle).
      rewrite Et.
      change (pos t0) with (pos t) in *. change (str t0) with (str t) in *.
      destruct (opaque_start m).
      + set (t2 := set_pos t0 (pos t + length (m0 m))).
        destruct (scanToEndTag_spec (group m 1) t2 Hle) as (p & Es & Hp).
        rewrite Es.
        change (pos t2) with (pos t + length (m0 m)) in *.
        change (str t2) with (str t) in *.
        destruct (@enqueue_exact t (set_pos t2 p) opaqueTag
                    (m0 m ++ slice (str t) (pos t + length (m0 m)) p)
                    (getLocation t) eq_refl eq_refl L eq_refl)
          as (tk & X & _).
        { cbn [pos set_pos].
          rewrite (@slice_split (str t) (pos t) (pos t + length (m0 m)) p);
            [|lia|lia].
          now rewrite Sm. }
        exists tk. exact X.
      + change (0 <? 0) with false. cbv iota.
        destruct (@enqueue_exact t (set_pos t0 (pos t + length (m0 m))) tag
                    (m0 m) (getLocation t) eq_refl eq_refl L eq_refl)
          as (tk & X & _).
        { cbn [pos set_pos]. symmetry. exact Sm. }
        exists tk. exact X.
    - assert (Et : tryScanTag t0 = (None, t0)).
      { destruct (tryScanTag_spec t0) as [E|(m & tl0 & E & _)]; [exact E|].
        rewrite E in Ef. discriminate. }
      rewrite Et.
      destruct (tryScanComment_spec t0) as [Em|(cm & tl0 & Em & _ & Hr)];
        rewrite Em; [reflexivity|].
      change (pos t0) with (pos t) in *.
      destruct (@enqueue_exact t (set_pos t0 (pos t + length cm)) comment cm
                  (getLocation t) eq_refl eq_refl L eq_refl)
        as (tk & X & _).
      { cbn [pos set_pos]. rewrite slice_firstn_rest.
        change (rest t) with (rest t0). rewrite Hr. symmetry.
        apply firstn_app_exact. }
      exists tk. exact X. }
  assert (Hl : is_chr c_lt (Some c) = false).
  { cbn [is_chr]. now apply N.eqb_neq. }
  rewrite Hl.
  destruct (Nat.ltb_spec 0 (length ws)) as [Hp|Hz].
  - destruct (@enqueue_exact t t1 whitespace ws (getLocation t)
                eq_refl eq_refl L eq_refl)
      as (tk & X & _).
    { cbn [pos set_pos t1]. symmetry. apply slice_firstn_rest. }
    exists tk. exact X.
  - unfold t1. replace n with 0 by lia.
    change (pos t + 0) with (pos (set_newline t false) + 0).
    apply set_pos_add_0.
Qed.

(** On a [clean] stretch of input a call of [matchToken] away from the
    end queues exactly one token, located from the position before the
    call to the position after it. *)
Lemma matchToken_exact (t : Tokenizer) :
  pos t < length (str t) -> _lookahead t = [] ->
  tame (rest t) = true ->
  (_newline t = true -> start_ok (rest t) = true) ->
  exists t1 tk,
    matchToken t = Ok t1 /\ exact_token t t1 tk
    /\ (_newline t1 = true -> line_start_at (str t) (pos t1) = true).
Proof.
  intros H L O So. unfold matchToken.
  destruct (Nat.eqb_spec (pos t) (length (str t))); [lia|].
  destruct (_newline t) eqn:N.
  - pose proof (@line_start_exact t H L O (So eq_refl)) as X.
    pose proof (line_start_newline t (Nat.lt_le_incl _ _ H)) as Nl.
    destruct (line_start t) as [t1|t1].
    + destruct X as (tk & X). exists t1, tk.
      split; [reflexivity|]. split; [exact X|].
      rewrite Nl. discriminate.
    + subst t1.
      destruct (@dispatch_exact (set_newline t false) H L O)
        as (t1 & tk & D & X).
      exists t1, tk. split; [exact D|]. split; [exact X|].
      intros N1.
      apply (@dispatch_line_start (set_newline t false) t1 H D eq_refl N1).
  - destruct (@dispatch_exact t H L O) as (t1 & tk & D & X).
    exists t1, tk. split; [exact D|]. split; [exact X|].
    intros N1. apply (@dispatch_line_start t t1 H D N N1).
Qed.

(** A property of the state that every call of [matchToken] keeps
    holds of the state when the whole input has been scanned. *)
Lemma drain_invariant (I : Tokenizer -> Prop) :
  (forall t t1, wf t -> I t -> _eof t = false -> matchToken t = Ok t1 ->
                I t1) ->
  forall fuel t, wf t -> I t -> I (drain fuel t).
Proof.
  intros Step. induction fuel as [|fuel IH]; intros t W H; simpl; [exact H|].
  destruct (_eof t) eqn:E; [exact H|].
  destruct (matchToken_wf W E) as (t1 & M & W1 & _). rewrite M.
  apply IH; [exact W1|]. apply (Step t t1 W H E M).
Qed.

Lemma matchToken_ordered (t t1 : Tokenizer) :
  wf t -> Forall ordered (queue t) -> _eof t = false ->
  matchToken t = Ok t1 -> Forall ordered (queue t1).
Proof.
  intros W F E M.
  destruct (matchToken_wf W E) as (t1' & M' & _ & C).
  rewrite M in M'. inversion M'; subst t1'.
  destruct C as [[_ (_ & _ & _ & _ & _ & e & Q & _ & Hs & He)]
                |[_ (_ & _ & _ & _ & _ & toks & Q & _ & Ft)]];
    rewrite Q; apply Forall_app; split; try exact F.
  - constructor; [|constructor]. unfold ordered, start_offset, end_offset.
    lia.
  - eapply Forall_impl; [|exact Ft].
    intros x (_ & _ & Hx & _). exact Hx.
Qed.

Lemma slice_length (s : ustring) (a b : nat) :
  a <= b -> b <= length s -> length (slice s a b) = b - a.
Proof.
  intros H1 H2. unfold slice. rewrite length_firstn, length_skipn. lia.
Qed.

Lemma contents_of_app (l1 l2 : list Token) :
  contents_of (l1 ++ l2) = contents_of l1 ++ contents_of l2.
Proof. unfold contents_of. now rewrite map_app, concat_app. Qed.

Lemma firstn_slice (s : ustring) (a b : nat) :
  a <= b -> firstn b s = firstn a s ++ slice s a b.
Proof.
  intros H. pose proof (@slice_split s 0 a b (Nat.le_0_l a) H) as X.
  unfold slice in X at 1 2. rewrite !Nat.sub_0_r in X. exact X.
Qed.

Lemma matchToken_tiled (t t1 : Tokenizer) :
  wf t -> tiled t -> _eof t = false -> matchToken t = Ok t1 -> tiled t1.
Proof.
  intros W (Cl & Nl & _ & Ch & Fs & Cv) E M.
  destruct (matchToken_wf W E) as (t1' & M' & _ & C).
  rewrite M in M'. inversion M'; subst t1'. clear M'.
  destruct W as (_ & L & _).
  destruct C as [[P (Hs & He & _ & Hp & _ & e & Q & U & Os & Oe)]
                |[P (Hs & He & _ & _ & Hp & _)]].
  - (* the end of the input *)
    destruct (matchToken_eof t P)
      as (t1' & e' & M' & _ & _ & _ & N1 & _).
    rewrite M in M'. inversion M'; subst t1'. clear M'.
    unfold tiled. rewrite Hs, Hp, N1, Q.
    split; [exact Cl|]. split; [exact Nl|]. split; [intros _; exact P|].
    split; [|split].
    + apply chain_app with (b := pos t); [exact Ch|].
      simpl. unfold start_offset, end_offset. auto.
    + apply Forall_app. split; [exact Fs|].
      constructor; [|constructor].
      unfold exact_span, start_offset, end_offset, contents_length,
        tok_contents. rewrite U, Os, Oe. simpl. lia.
    + rewrite contents_of_app, Cv. unfold contents_of, tok_contents.
      simpl. rewrite U. simpl. apply app_nil_r.
  - assert (O : tame (rest t) = true).
    { apply clean_tame. exact Cl. }
    assert (So : _newline t = true -> start_ok (rest t) = true).
    { intros N. apply clean_start_ok; [exact Cl|exact P|exact (Nl N)]. }
    destruct (@matchToken_exact t P L O So)
      as (t1' & tk & M' & (Q & Os & Oe & Ct) & N1).
    rewrite M in M'. inversion M'; subst t1'. clear M'.
    unfold tiled. rewrite Hs, He, E, Q.
    split; [exact Cl|]. split; [exact N1|]. split; [discriminate|].
    split; [|split].
    + apply chain_app with (b := pos t); [exact Ch|].
      simpl. auto.
    + apply Forall_app. split; [exact Fs|].
      constructor; [|constructor].
      unfold exact_span, contents_length. rewrite Ct, Os, Oe.
      rewrite slice_length; lia.
    + rewrite contents_of_app, Cv. unfold contents_of at 1.
      simpl. rewrite Ct, app_nil_r. symmetry. apply firstn_slice. lia.
Qed.

(** The state when a [clean] input has been scanned to its end. *)
Lemma stream_tiled (s : ustring) :
  clean s = true ->
  let d := drain (calls_bound (new_Tokenizer s)) (new_Tokenizer s) in
  str d = s /\ tiled d /\ _eof d = true.
Proof.
  intros Cl d.
  assert (T : str d = s /\ tiled d).
  { apply (@drain_invariant (fun t => str t = s /\ tiled t));
      [|apply wf_new|].
    - intros t t1 W (Es & T) E M.
      split; [|exact (matchToken_tiled W T E M)].
      destruct (matchToken_wf W E) as (t1' & M' & _ & C).
      rewrite M in M'. inversion M'; subst t1'.
      destruct C as [[_ (Hs & _)]|[_ (Hs & _)]]; congruence.
    - split; [reflexivity|]. unfold tiled. cbn [str new_Tokenizer].
      split; [exact Cl|]. split; [reflexivity|].
      split; [discriminate|]. split; [reflexivity|].
      split; [constructor|reflexivity]. }
  destruct T as (Es & T). split; [exact Es|]. split; [exact T|].
  apply (@drain_done (calls_bound (new_Tokenizer s)) (new_Tokenizer s)
           (wf_new s) (le_n _)).
Qed.

Lemma deliver_all (l : list Token) : deliver (length l) l = l.
Proof.
  induction l as [|x l IH]; [reflexivity|].
  destruct l as [|y l]; [reflexivity|].
  change (deliver (length (x :: y :: l)) (x :: y :: l))
    with (x :: deliver (length (y :: l)) (y :: l)).
  now rewrite IH.
Qed.

(** On a [clean] input the contents of the tokens that [next] returns,
    up to the EOF token, are the input. *)
Lemma coverage_clean (s : ustring) :
  clean s = true ->
  contents_concat (length (stream (new_Tokenizer s))) s = Some s.
Proof.
  intros Cl. destruct (stream_tiled s Cl) as (Es & T & E).
  destruct T as (_ & _ & Pe & _ & _ & Cv).
  unfold contents_concat. rewrite (nexts_spec _ (wf_new s)), deliver_all.
  fold (contents_of (stream (new_Tokenizer s))).
  unfold stream. rewrite Cv, (Pe E), Es. now rewrite firstn_all.
Qed.

(** What holds of the offsets.  The tokens that [next] returns are
    those of [stream], in order.  For every input, every one of them
    has a location with [start.offset <= end.offset].  For a [clean]
    input (no backslash;
    every [<] at the front of the input or directly behind white space,
    a line feed or a delimiter; no line whose leading white space is
    followed by [<] or by digits that are not those of a list marker)
    the tokens tile the input: the first starts at offset 0, each one
    starts at the end offset of the one before it, the last one, EOF,
    ends at the length of the input; and the span of every token is the
    length of its contents (the EOF token, which has no contents, spans
    nothing). *)
Theorem token_locations (s : ustring) :
  (forall n,
      nexts n (new_Tokenizer s) = Ok (deliver n (stream (new_Tokenizer s))))
  /\ Forall ordered (stream (new_Tokenizer s))
  /\ (clean s = true ->
      chain 0 (stream (new_Tokenizer s)) (length s)
      /\ Forall exact_span (stream (new_Tokenizer s))).
Proof.
  split; [intros n; apply nexts_spec, wf_new|]. split.
  - unfold stream.
    apply (@drain_invariant (fun t => Forall ordered (queue t)));
      [|apply wf_new|constructor].
    intros t t1 W F E M. exact (matchToken_ordered W F E M).
  - intros Cl. destruct (stream_tiled s Cl) as (Es & T & E).
    destruct T as (_ & _ & Pe & Ch & Fs & _).
    unfold stream. split; [|exact Fs].
    rewrite (Pe E), Es in Ch. exact Ch.
Qed.


Lemma token_locations_witness :
  clean (lit "  1. foo *<b> bar </b>*" ++ [c_nl; c_nl]
           ++ lit "<pre> *_ </pre> <!-- c --> 2 < 3") = true
  /\ chain 0
       (stream
          (new_Tokenizer
             (lit "  1. foo *<b> bar </b>*" ++ [c_nl; c_nl]
                ++ lit "<pre> *_ </pre> <!-- c --> 2 < 3")))
       (length (lit "  1. foo *<b> bar </b>*" ++ [c_nl; c_nl]
                  ++ lit "<pre> *_ </pre> <!-- c --> 2 < 3"))
  /\ Forall exact_span
       (stream
          (new_Tokenizer
             (lit "  1. foo *<b> bar </b>*" ++ [c_nl; c_nl]
                ++ lit "<pre> *_ </pre> <!-- c --> 2 < 3"))).
Proof.
  split; [reflexivity|].
  apply (proj2 (proj2 (token_locations
                         (lit "  1. foo *<b> bar </b>*" ++ [c_nl; c_nl]
                            ++ lit "<pre> *_ </pre> <!-- c --> 2 < 3")))).
  reflexivity.
Defined.

(** What [spans] and [tokens] show of the stream. *)
Lemma spans_stream (n : nat) (s : ustring) :
  spans n s
  = Some (map (fun tk => (start_offset tk, end_offset tk))
            (deliver n (stream (new_Tokenizer s)))).
Proof. unfold spans. now rewrite (nexts_spec n (wf_new s)). Qed.

Lemma tokens_stream (n : nat) (s : ustring) :
  tokens n s = Some (map token_view (deliver n (stream (new_Tokenizer s)))).
Proof. unfold tokens. now rewrite (nexts_spec n (wf_new s)). Qed.

(** Two tokens at the head of the stream that do not meet. *)
Lemma chain_broken (s : ustring) (a e1 s2 e2 : nat) (r : list (nat * nat)) :
  spans 3 s = Some ((a, e1) :: (s2, e2) :: r) ->
  (a, e1) <> (s2, e2) -> e1 <> s2 ->
  forall b, ~ chain 0 (stream (new_Tokenizer s)) b.
Proof.
  rewrite spans_stream. generalize (stream (new_Tokenizer s)) as l.
  intros l E0 Hd Hn b C.
  assert (E : map (fun tk => (start_offset tk, end_offset tk)) (deliver 3 l)
              = (a, e1) :: (s2, e2) :: r) by congruence.
  clear E0.
  destruct l as [|x [|y l']]; simpl in E; [discriminate| |].
  - inversion E. apply Hd. congruence.
  - simpl in C. destruct C as (_ & Hy & _).
    destruct l'; simpl in E; inversion E; congruence.
Qed.

(** A first token whose span is not the length of its contents. *)
Lemma span_broken (s : ustring) (a b : nat) (nm : TokenName)
    (c : ustring) (r : list (nat * nat))
    (r' : list (TokenName * option ustring)) :
  spans 2 s = Some ((a, b) :: r) ->
  tokens 2 s = Some ((nm, Some c) :: r') ->
  b - a <> length c ->
  ~ Forall exact_span (stream (new_Tokenizer s)).
Proof.
  rewrite spans_stream, tokens_stream.
  generalize (stream (new_Tokenizer s)) as l.
  intros l E0 T0 Hn F.
  assert (E : map (fun tk => (start_offset tk, end_offset tk)) (deliver 2 l)
              = (a, b) :: r) by congruence.
  assert (T : map token_view (deliver 2 l) = (nm, Some c) :: r')
    by congruence.
  clear E0 T0.
  destruct l as [|x l']; simpl in E; [discriminate|].
  apply Forall_inv in F. unfold exact_span, contents_length in F.
  assert (Ex : start_offset x = a /\ end_offset x = b).
  { destruct l'; simpl in E; inversion E; auto. }
  assert (Tx : tok_contents x = Some c).
  { destruct l'; simpl in T; inversion T; auto. }
  destruct Ex as [Ea Eb]. rewrite Ea, Eb, Tx in F. contradiction.
Qed.

(** By design an escape drops the backslash from the contents of the
    text token and keeps it in the span: a backslash, [*] and [a] give
    the text [*a], located from 0 to 3. *)
Lemma escaped_text_span :
  tokens 2 (c_bslash :: lit "*a") = Some [(text, Some (lit "*a")); (EOF, None)]
  /\ spans 2 (c_bslash :: lit "*a") = Some [(0, 3); (3, 3)].
Proof. split; reflexivity. Qed.

(** C2 fails on the input [foo<br>], which has no backslash.  Its
    tokens are the text [foo], the tag [<br>] and EOF.  [scanChars]
    meets the tag behind the text and holds it back, located from 3 to
    7; the text token is located only afterwards, when [pos] is behind
    the tag, so it spans 0 to 7: its span is not the length of its
    contents, and the tag starts inside it, not at its end.  The same
    two tokens in the other order, [<br>foo], where the tag is queued
    by [matchToken] itself, are located from 0 to 4 and from 4 to 7.
    Likewise white space that the line-start branch queues late is
    located up to the position behind the digits after it: for a
    space, [1], a space and [foo], the white-space token and the text
    [1] are both located from 0 to 2. *)
Theorem held_tokens_mislocated :
  existsb (N.eqb c_bslash) (lit "foo<br>") = false
  /\ tokens 3 (lit "foo<br>")
     = Some [(text, Some (lit "foo")); (tag, Some (lit "<br>")); (EOF, None)]
  /\ spans 3 (lit "foo<br>") = Some [(0, 7); (3, 7); (7, 7)]
  /\ (forall b, ~ chain 0 (stream (new_Tokenizer (lit "foo<br>"))) b)
  /\ ~ Forall exact_span (stream (new_Tokenizer (lit "foo<br>")))
  /\ tokens 3 (lit "<br>foo")
     = Some [(tag, Some (lit "<br>")); (text, Some (lit "foo")); (EOF, None)]
  /\ spans 3 (lit "<br>foo") = Some [(0, 4); (4, 7); (7, 7)]
  /\ existsb (N.eqb c_bslash) (lit " 1 foo") = false
  /\ tokens 3 (lit " 1 foo")
     = Some [(whitespace, Some (lit " ")); (text, Some (lit "1"));
             (whitespace, Some (lit " "))]
  /\ spans 3 (lit " 1 foo") = Some [(0, 2); (0, 2); (2, 3)]
  /\ ~ Forall exact_span (stream (new_Tokenizer (lit " 1 foo"))).
Proof.
  assert (T2 : tokens 2 (lit "foo<br>")
               = Some [(text, Some (lit "foo")); (tag, Some (lit "<br>"))])
    by reflexivity.
  assert (S2 : spans 3 (lit "foo<br>") = Some [(0, 7); (3, 7); (7, 7)])
    by reflexivity.
  assert (S2' : spans 2 (lit "foo<br>") = Some [(0, 7); (3, 7)])
    by reflexivity.
  assert (T3 : tokens 2 (lit " 1 foo")
               = Some [(whitespace, Some (lit " ")); (text, Some (lit "1"))])
    by reflexivity.
  assert (S3 : spans 2 (lit " 1 foo") = Some [(0, 2); (0, 2)]) by reflexivity.
  split; [reflexivity|]. split; [reflexivity|]. split; [exact S2|]. split.
  { apply (@chain_broken _ _ _ _ _ _ S2); discriminate. }
  split.
  { apply (@span_broken _ _ _ _ _ _ _ S2' T2). simpl. discriminate. }
  split; [reflexivity|]. split; [reflexivity|]. split; [reflexivity|].
  split; [reflexivity|]. split; [reflexivity|].
  apply (@span_broken _ _ _ _ _ _ _ S3 T3). simpl. discriminate.
Qed.

(** ** Backslash before a newline, whatever the line-start flag *)

(** At a line start, a first character that is not white space, a
    digit, a bullet or [<] goes to the generic dispatch. *)
Lemma line_start_passes (t : Tokenizer) (c : char) :
  chr_at t 0 = Some c -> isWhitespace c = false -> is_d c = false ->
  is_chr c_star (Some c) && is_chr c_space (chr_at t 1) = false ->
  N.eqb c c_lt = false ->
  line_start t = inr (set_newline t false).
Proof.
  intros E0 Hw Hd Hs Hl.
  destruct (chr_at_0_rest _ E0) as (s & R).
  pose proof (chr_at_0_lt _ E0) as Hlt.
  unfold line_start. rewrite scanWhitespace_eq.
  change (rest (set_newline t false)) with (rest t).
  assert (Rn : run_length isWhitespace (rest t) = 0).
  { rewrite R. simpl. now rewrite Hw. }
  rewrite Rn. rewrite set_pos_add_0. cbn [firstn length].
  change (str (set_newline t false)) with (str t).
  change (pos (set_newline t false)) with (pos t).
  change (chr_at (set_newline t false)) with (chr_at t).
  destruct (Nat.leb_spec (length (str t)) (pos t)); [lia|].
  rewrite E0, Hd, Hs. cbn [is_chr]. rewrite Hl. reflexivity.
Qed.

Lemma set_newline_same (t : Tokenizer) :
  _newline t = false -> set_newline t false = t.
Proof. destruct t; simpl. intros ->. reflexivity. Qed.







(** * Further properties *)

(** ** Scanning to the end of the line *)

Lemma firstn_succ_nth (A : Type) (l : list A) :
  forall k c, nth_error l k = Some c -> firstn (S k) l = firstn k l ++ [c].
Proof.
  induction l as [|x l IH]; intros k c H; [destruct k; discriminate|].
  destruct k as [|k]; simpl in *.
  - inversion H. reflexivity.
  - f_equal. apply IH. exact H.
Qed.

(** [scanToEOL] returns the text of the current line: everything before
    the first line feed, and the line feed itself when there is one;
    [pos] moves behind it.  Without a line feed it returns all that is
    left of the input. *)
Theorem scanToEOL_line (t : Tokenizer) :
  exists body : ustring,
    forallb (fun c => negb (N.eqb c c_nl)) body = true
    /\ ((exists tail,
            rest t = body ++ c_nl :: tail
            /\ scanToEOL t
               = (body ++ [c_nl], set_pos t (pos t + length body + 1))
            /\ rest (snd (scanToEOL t)) = tail)
        \/ (rest t = body
            /\ scanToEOL t = (body, set_pos t (pos t + length body))
            /\ rest (snd (scanToEOL t)) = [])).
Proof.
  set (p := fun c => negb (N.eqb c c_nl)).
  set (k := run_length p (rest t)).
  exists (firstn k (rest t)).
  split; [apply run_length_firstn|].
  assert (Lk : length (firstn k (rest t)) = k)
    by apply firstn_run_length_length.
  assert (E0 : chr_at (set_pos t (pos t + k)) 0 = nth_error (rest t) k).
  { rewrite chr_at_rest, rest_set_pos, nth_error_skipn.
    now rewrite Nat.add_0_r. }
  unfold scanToEOL. cbv zeta.
  change (run_length (fun c => negb (N.eqb c c_nl)) (rest t)) with k.
  rewrite E0.
  destruct (nth_error (rest t) k) as [c|] eqn:En.
  - pose proof (run_length_stop p (rest t) En) as Hc.
    unfold p in Hc. apply negb_false_iff, N.eqb_eq in Hc. subst c.
    left. cbn [is_chr]. change (N.eqb c_nl c_nl) with true. cbv iota.
    cbn [pos str set_pos].
    assert (Sk : skipn k (rest t) = c_nl :: skipn (S k) (rest t)).
    { rewrite <- (firstn_skipn k (rest t)) in En at 1.
      rewrite nth_error_app2 in En; [|rewrite Lk; lia].
      rewrite Lk, Nat.sub_diag in En.
      destruct (skipn k (rest t)) as [|x l] eqn:Es; [discriminate|].
      simpl in En. inversion En; subst x.
      replace (S k) with (1 + k) by lia.
      rewrite <- skipn_skipn, Es. reflexivity. }
    exists (skipn (S k) (rest t)). rewrite Lk. split; [|split].
    + rewrite <- Sk. symmetry. apply firstn_skipn.
    + f_equal;
        [|transitivity (set_pos t (S (pos t + k)));
          [reflexivity|f_equal; lia]].
      replace (S (pos t + k)) with (pos t + S k) by lia.
      rewrite slice_rest. fold (slice_from (str t) (pos t)). fold (rest t).
      apply firstn_succ_nth. exact En.
    + cbn [snd]. replace (S (pos t + k)) with (pos t + S k) by lia.
      exact (rest_set_pos t (S k)).
  - right. cbn [is_chr]. cbn [pos str set_pos].
    apply nth_error_None in En.
    assert (Fk : firstn k (rest t) = rest t) by (apply firstn_all2; exact En).
    rewrite Lk. split; [symmetry; exact Fk|]. split.
    + f_equal. rewrite slice_rest. reflexivity.
    + cbn [snd]. rewrite rest_set_pos. apply skipn_all2. exact En.
Qed.

(** ** [expect] *)

Lemma stream_head (t : Tokenizer) :
  wf t -> exists tk rst, stream t = tk :: rst.
Proof.
  intros W. destruct (stream_shape W) as (body & e & S0 & _).
  destruct (stream t) as [|x l]; [destruct body; discriminate|eauto].
Qed.

(** [expect] looks at the token that the following [next] returns and
    takes nothing from the input: when that token has the expected name
    it returns normally; otherwise it throws a [SyntaxError] whose
    message names both the token met and the one expected, and whose
    offset, line and column are those of the start of the token met. *)
Theorem expect_spec (nm : TokenName) (t : Tokenizer) :
  wf t ->
  exists tk t1 rst,
    stream t = tk :: rst
    /\ peek 1 t = Ok (Some tk, t1)
    /\ (tok_name tk = nm ->
        expect nm t = Ok t1 /\ wf t1 /\ stream t1 = stream t
        /\ exists t2, next t1 = Ok (tk, t2))
    /\ (tok_name tk <> nm ->
        expect nm t
        = Throw (SyntaxError
                   (lit "Unexpected token " ++ TokenName_str (tok_name tk)
                      ++ lit "; expected " ++ TokenName_str nm)
                   (offset (start (location tk)))
                   (p_line (start (location tk)))
                   (p_column (start (location tk))))).
Proof.
  intros W.
  destruct (@peek_spec 1 t W (le_n 1)) as (tk & t1 & P & W1 & S1 & _ & Hn).
  destruct (stream_head W) as (x & rst & Sx).
  assert (Hx : x = tk).
  { rewrite Sx in Hn. simpl in Hn.
    destruct Hn as [[Hn _]|[Hn _]]; [congruence|lia]. }
  subst x. exists tk, t1, rst.
  split; [exact Sx|]. split; [exact P|]. split.
  - intros E. unfold expect. rewrite P. cbn [bind].
    apply TokenName_eqb_eq in E. rewrite E.
    split; [reflexivity|]. split; [exact W1|]. split; [exact S1|].
    destruct (next_spec W1) as (tk' & t2 & rst' & Nx & _ & _ & S2 & _).
    rewrite S1, Sx in S2. inversion S2; subst tk'. eauto.
  - intros E. unfold expect. rewrite P. cbn [bind].
    destruct (TokenName_eqb (tok_name tk) nm) eqn:Eb.
    + apply TokenName_eqb_eq in Eb. contradiction.
    + reflexivity.
Qed.

Lemma expect_spec_witness :
  wf (new_Tokenizer (lit "*a"))
  /\ exists tk t1 rst,
       stream (new_Tokenizer (lit "*a")) = tk :: rst
       /\ peek 1 (new_Tokenizer (lit "*a")) = Ok (Some tk, t1)
       /\ (tok_name tk = star ->
           expect star (new_Tokenizer (lit "*a")) = Ok t1 /\ wf t1
           /\ stream t1 = stream (new_Tokenizer (lit "*a"))
           /\ exists t2, next t1 = Ok (tk, t2))
       /\ (tok_name tk <> star ->
           expect star (new_Tokenizer (lit "*a"))
           = Throw (SyntaxError
                      (lit "Unexpected token " ++ TokenName_str (tok_name tk)
                         ++ lit "; expected " ++ TokenName_str star)
                      (offset (start (location tk)))
                      (p_line (start (location tk)))
                      (p_column (start (location tk))))).
Proof.
  split; [apply wf_new|].
  apply (@expect_spec star (new_Tokenizer (lit "*a"))). apply wf_new.
Defined.

(** ** The end of the input *)

(** Once [next] has returned the EOF token it stays in the queue: every
    later [next], and every [peek] at whatever distance, returns that
    same token and leaves the tokenizer as it is. *)
Theorem eof_is_final (t t1 : Tokenizer) (tk : Token) :
  wf t -> next t = Ok (tk, t1) -> tok_name tk = EOF ->
  queue t1 = [tk] /\ previous t1 = Some tk /\ _eof t1 = true
  /\ next t1 = Ok (tk, t1)
  /\ (forall k, 1 <= k -> peek k t1 = Ok (Some tk, t1)).
Proof.
  intros W Nx E.
  destruct (@peek_spec 1 t W (le_n 1)) as (tk' & t' & P & W1 & S1 & _ & Hn).
  destruct (stream_head W) as (x & rst & Sx).
  assert (Hq : nth_error (queue t') 0 = Some tk').
  { destruct Hn as [[_ Hn]|[Hn _]]; [exact Hn|].
    rewrite Sx in Hn. simpl in Hn. lia. }
  unfold next in Nx. rewrite P in Nx. cbn [bind] in Nx.
  assert (E' : TokenName_eqb (tok_name tk') EOF = true).
  { destruct (TokenName_eqb (tok_name tk') EOF) eqn:Eb; [reflexivity|].
    simpl in Nx. inversion Nx; subst tk'.
    apply TokenName_eqb_eq in E. congruence. }
  rewrite E' in Nx. simpl in Nx. inversion Nx; subst tk' t1. clear Nx.
  destruct W1 as (Pp & L & Q0 & Q1).
  assert (Ef : _eof t' = true).
  { destruct (_eof t') eqn:Ee; [reflexivity|].
    specialize (Q0 eq_refl).
    destruct (queue t') as [|y q]; [discriminate|].
    simpl in Hq. inversion Hq; subst y.
    inversion Q0; subst. contradiction. }
  destruct (Q1 Ef) as (q & e & Hqe & He & Fq).
  assert (Qt : queue t' = [tk]).
  { rewrite Hqe in Hq. destruct q as [|y q].
    - simpl in Hq. inversion Hq. subst e. exact Hqe.
    - simpl in Hq. inversion Hq; subst y.
      inversion Fq; subst. contradiction. }
  set (t1 := set_previous t' (Some tk)).
  assert (Pk : forall k, 1 <= k -> peek k t1 = Ok (Some tk, t1)).
  { intros k Hk. unfold peek. cbn [peek_loop].
    change (_eof t1) with (_eof t'). rewrite Ef. cbn [negb andb bind].
    change (queue t1) with (queue t'). rewrite Qt. cbn [length].
    destruct k as [|[|k]]; [lia|reflexivity|reflexivity]. }
  split; [exact Qt|]. split; [reflexivity|]. split; [exact Ef|].
  split; [|exact Pk].
  unfold next. rewrite (Pk 1 (le_n 1)). cbn [bind].
  rewrite E'. simpl. unfold t1. destruct t'; reflexivity.
Qed.

Lemma eof_is_final_witness :
  exists tk t1,
    next (new_Tokenizer []) = Ok (tk, t1) /\ tok_name tk = EOF
    /\ next t1 = Ok (tk, t1).
Proof.
  eexists. eexists. split; [reflexivity|]. split; [reflexivity|].
  apply (@eof_is_final (new_Tokenizer []) _ _ (wf_new []) eq_refl eq_refl).
Defined.

(** ** Comments *)

Lemma rmatch_Lit_starts (A : Type) (l : ustring) :
  forall s c (k : ustring -> caps -> option A),
    rmatch (Lit l) s c k
    = if starts_with l s then k (skipn (length l) s) c else None.
Proof.
  induction l as [|a l IH]; intros s c k; [reflexivity|].
  cbn [Lit rmatch starts_with length skipn].
  destruct s as [|x s]; [reflexivity|].
  destruct (N.eqb x a); [apply IH|reflexivity].
Qed.

Lemma find_close_bound (s : ustring) :
  forall i, find_close s = Some i -> i + 3 <= length s.
Proof.
  induction s as [|x s IH]; intros i H; [discriminate|].
  cbn [find_close] in H.
  destruct (starts_with (lit "-->") (x :: s)) eqn:E.
  - inversion H; subst i.
    destruct s as [|y [|z s]]; simpl in *;
      rewrite ?andb_false_r in E; try discriminate; lia.
  - destruct (find_close s) as [j|]; [|discriminate].
    inversion H; subst i. specialize (IH j eq_refl). simpl. lia.
Qed.

(** The lazy loop of [commentRegexp] stops at the first closer, the
    rest of the regex being empty. *)
Lemma lazy_loop_find_close (A : Type) (f : ustring -> caps -> A) (c : caps) :
  forall n s, length s <= n ->
    lazy_loop (rmatch (Cls (fun x => is_w x || negb (is_w x))))
      (fun s1 c1 =>
         rmatch (Lit (lit "-->")) s1 c1 (fun s2 c2 => Some (f s2 c2))) n s c
    = match find_close s with
      | Some i => Some (f (skipn (i + 3) s) c)
      | None => None
      end.
Proof.
  induction n as [|n IH]; intros s H.
  - destruct s; [reflexivity|simpl in H; lia].
  - cbn [lazy_loop]. rewrite rmatch_Lit_starts.
    destruct s as [|x s]; [reflexivity|].
    cbn [find_close].
    destruct (starts_with (lit "-->") (x :: s)); [reflexivity|].
    cbn [rmatch]. rewrite orb_negb_r.
    destruct (Nat.ltb_spec (length s) (length (x :: s))) as [_|Hl];
      [|simpl in Hl; lia].
    rewrite IH; [|simpl in H; lia].
    destruct (find_close s) as [i|]; reflexivity.
Qed.

(** [tryScanComment] recognises a comment exactly when the rest of the
    input starts with the opener and a closer follows; the comment ends
    with the first closer (the opener's own hyphens do not count), and
    [pos] moves behind it.  Otherwise the tokenizer is as it was. *)
Theorem tryScanComment_first_close (t : Tokenizer) :
  tryScanComment t
  = if starts_with (lit "<!--") (rest t) then
      match find_close (skipn 4 (rest t)) with
      | Some i => (Some (firstn (4 + i + 3) (rest t)),
                   set_pos t (pos t + (4 + i + 3)))
      | None => (None, t)
      end
    else (None, t).
Proof.
  unfold tryScanComment, exec, commentRegexp.
  cbn [rmatch]. rewrite rmatch_Lit_starts.
  destruct (starts_with (lit "<!--") (rest t)) eqn:E; [|reflexivity].
  change (length (lit "<!--")) with 4.
  cbn [rmatch]. rewrite lazy_loop_find_close; [|lia].
  destruct (find_close (skipn 4 (rest t))) as [i|] eqn:F; [|reflexivity].
  pose proof (find_close_bound _ F) as B. rewrite length_skipn in B.
  cbn [m0]. rewrite skipn_skipn, length_skipn.
  replace (length (rest t) - (length (rest t) - (i + 3 + 4)))
    with (4 + i + 3) by lia.
  f_equal. f_equal. rewrite length_firstn. lia.
Qed.

(** ** Tags *)

(** The parts of a match of [tagRegexp]. *)
Lemma tag_match_shape (s : ustring) (m : Match) :
  exec tagRegexp s = Some m ->
  exists pre name mid s',
    s = m0 m ++ s'
    /\ m0 m = c_lt :: pre ++ name ++ mid ++ [c_gt]
    /\ (pre = [] \/ pre = [c_slash] \/ pre = [c_bang])
    /\ group m 1 = Some name /\ tag_name name = true.
Proof.
  intros E.
  destruct (exec_sound _ _ E) as (s' & Hs & M). clear E.
  revert Hs. unfold tagRegexp in M.
  inversion M as [| | |? ? ? ? ? ? ? ? Mlt M1| | | | | | | | |]; subst; clear M.
  inversion Mlt; subst; clear Mlt.
  inversion M1 as [| | |? ? ? ? ? ? ? ? Mo M2| | | | | | | | |]; subst; clear M1.
  inversion M2 as [| | |? ? ? ? ? ? ? ? Mg M3| | | | | | | | |]; subst; clear M2.
  inversion M3 as [| | |? ? ? ? ? ? ? ? Ms M4| | | | | | | | |]; subst; clear M3.
  inversion M4 as [| | |? ? ? ? ? ? ? ? Mp Mgt| | | | | | | | |]; subst;
    clear M4.
  intros Hs.
  apply Matches_star_Cls in Mp. destruct Mp as (sp & Hsp & _ & ->).
  inversion Mgt; subst; clear Mgt.
  destruct (Matches_prefix Ms) as (attrs & Ha).
  unfold Plus in Ms.
  apply Matches_star_group2 in Ms; [|reflexivity|reflexivity].
  destruct Ms as [K1 _].
  inversion Mg as [| | | | | | | | | | | |? ? ? ? ? ? Mn]; subst; clear Mg.
  inversion Mn as [| | |? ? ? ? ? ? ? ? Mw Mr| | | | | | | | |]; subst;
    clear Mn.
  inversion Mw; subst; clear Mw.
  apply Matches_star_Cls in Mr. destruct Mr as (w & Hw & Fw & ->).
  match goal with
  | H : is_w ?x = true |- _ => rename H into Hx; rename x into w0
  end.
  assert (Hp : exists pre,
             (pre = [] \/ pre = [c_slash] \/ pre = [c_bang])
             /\ s1 = pre ++ w0 :: w ++ attrs ++ sp ++ c_gt :: s').
  { inversion Mo as [| | | | | |? ? ? ? ? Mc|? ? ?| | | | |]; subst; clear Mo.
    - inversion Mc; subst; clear Mc.
      match goal with
      | H : (N.eqb ?x c_slash || N.eqb ?x c_bang) = true |- _ =>
          apply orb_true_iff in H; destruct H as [H|H];
          apply N.eqb_eq in H; subst x
      end.
      + exists [c_slash]. split; [tauto|]. reflexivity.
      + exists [c_bang]. split; [tauto|]. reflexivity.
    - exists []. split; [tauto|]. reflexivity. }
  destruct Hp as (pre & Hpre & H1).
  exists pre, (w0 :: w), (attrs ++ sp), s'.
  assert (Hm : m0 m = c_lt :: pre ++ (w0 :: w) ++ (attrs ++ sp) ++ [c_gt]).
  { apply (app_inv_tail s'). rewrite <- Hs, H1. simpl.
    rewrite <- !app_assoc. simpl. rewrite <- !app_assoc. reflexivity. }
  split; [exact Hs|]. split; [exact Hm|]. split; [exact Hpre|]. split.
  - rewrite K1. unfold set_cap. cbn [Nat.eqb]. f_equal.
    rewrite Hw. simpl length.
    replace (S (length (w ++ attrs ++ sp ++ c_gt :: s'))
             - length (attrs ++ sp ++ c_gt :: s'))
      with (length (w0 :: w)) by (rewrite !length_app; cbn [length]; lia).
    change (w0 :: w ++ attrs ++ sp ++ c_gt :: s')
      with ((w0 :: w) ++ attrs ++ sp ++ c_gt :: s').
    apply firstn_app_exact.
  - unfold tag_name. rewrite Hx. exact Fw.
Qed.

(** [tryScanTag] recognises a tag exactly when [tagRegexp] matches the
    rest of the input: the test on the second character before it never
    turns a tag down.  The text of a tag is [<], at most one of [/] and
    [!], the name (a word character followed by word characters and
    hyphens, which is group 1), attributes and white space, and [>];
    [pos] moves behind it, and without a match the tokenizer is as it
    was. *)
Theorem tryScanTag_regexp (t : Tokenizer) :
  tryScanTag t
  = match exec tagRegexp (rest t) with
    | Some m => (Some m, set_pos t (pos t + length (m0 m)))
    | None => (None, t)
    end
  /\ (forall m, exec tagRegexp (rest t) = Some m ->
        exists pre name mid,
          m0 m = c_lt :: pre ++ name ++ mid ++ [c_gt]
          /\ (pre = [] \/ pre = [c_slash] \/ pre = [c_bang])
          /\ group m 1 = Some name /\ tag_name name = true
          /\ rest t = m0 m ++ rest (set_pos t (pos t + length (m0 m)))).
Proof.
  split.
  - unfold tryScanTag.
    destruct (exec tagRegexp (rest t)) as [m|] eqn:E.
    + destruct (tag_match_shape _ E)
        as (pre & name & mid & s' & Hs & Hm & Hpre & _ & Hn).
      rewrite !chr_at_rest, Hs, Hm.
      cbn [app nth_error is_chr]. change (N.eqb c_lt c_lt) with true.
      cbn [negb].
      destruct name as [|w0 w]; [discriminate|].
      unfold tag_name in Hn. apply andb_true_iff in Hn. destruct Hn as [Hw _].
      destruct Hpre as [-> | [-> | ->]]; cbn [app nth_error is_chr].
      * rewrite Hw. cbn [negb]. rewrite !andb_false_r. reflexivity.
      * change (N.eqb c_slash c_slash) with true. cbn [negb].
        rewrite andb_false_r. reflexivity.
      * change (N.eqb c_bang c_bang) with true. cbn [negb].
        rewrite andb_false_r. reflexivity.
    + destruct (negb (is_chr c_lt (chr_at t 0))); [reflexivity|].
      match goal with |- context [if ?b then _ else _] => destruct b end;
        reflexivity.
  - intros m E.
    destruct (tag_match_shape _ E)
      as (pre & name & mid & s' & Hs & Hm & Hpre & Hg & Hn).
    exists pre, name, mid.
    split; [exact Hm|]. split; [exact Hpre|]. split; [exact Hg|].
    split; [exact Hn|].
    rewrite rest_set_pos, Hs. now rewrite skipn_app_exact.
Qed.

(** ** Line feeds, bullets and delimiters *)

(** A run of line feeds becomes one token: a [linebreak] for a single
    line feed, a [parabreak] holding all of them for more.  The token
    is located from the position before the run to the first position
    of the new line: [line] grows by the number of line feeds and
    [column] is back at 1; the line-start flag is raised. *)
Theorem newline_run (t : Tokenizer) (k : nat) (tail : ustring) :
  rest t = repeat c_nl (S k) ++ tail ->
  is_chr c_nl (nth_error tail 0) = false ->
  _lookahead t = [] ->
  exists t1 tk,
    matchToken t = Ok t1
    /\ queue t1 = queue t ++ [tk]
    /\ tok tk = Tk (if k =? 0 then linebreak else parabreak)
                   (repeat c_nl (S k))
    /\ start (location tk) = getLocation t
    /\ end_ (location tk) = mkPosition (pos t + S k) (line t + S k) 1
    /\ getLocation t1 = mkPosition (pos t + S k) (line t + S k) 1
    /\ rest t1 = tail
    /\ _newline t1 = true.
Proof.
  intros R Ht L.
  assert (E0 : chr_at t 0 = Some c_nl) by (rewrite chr_at_rest, R; reflexivity).
  pose proof (chr_at_0_lt _ E0) as Hlt.
  assert (D : forall t0, t0 = t \/ t0 = set_newline t false ->
            exists t1 tk,
              dispatch t0 = Ok t1
              /\ queue t1 = queue t ++ [tk]
              /\ tok tk = Tk (if k =? 0 then linebreak else parabreak)
                             (repeat c_nl (S k))
              /\ start (location tk) = getLocation t
              /\ end_ (location tk)
                 = mkPosition (pos t + S k) (line t + S k) 1
              /\ getLocation t1 = mkPosition (pos t + S k) (line t + S k) 1
              /\ rest t1 = tail
              /\ _newline t1 = true).
  { intros t0 Ht0.
    assert (F : str t0 = str t /\ pos t0 = pos t /\ queue t0 = queue t
                /\ _lookahead t0 = [] /\ line t0 = line t
                /\ getLocation t0 = getLocation t).
    { destruct Ht0 as [-> | ->]; repeat split; exact L. }
    destruct F as (Fs & Fp & Fq & Fl & Fn & Fg).
    assert (E0' : chr_at t0 0 = Some c_nl)
      by (unfold chr_at; rewrite Fs, Fp; exact E0).
    unfold dispatch. rewrite E0'.
    change (N.eqb c_nl c_star) with false.
    change (N.eqb c_nl c_underscore) with false.
    change (N.eqb c_nl c_tick) with false.
    change (N.eqb c_nl c_pipe) with false.
    change (N.eqb c_nl c_tilde) with false.
    change (N.eqb c_nl c_nl) with true. cbv iota zeta.
    cbn [pos set_newline str]. rewrite Fs, Fp, Fg.
    assert (Rs : slice_from (str t) (S (pos t)) = repeat c_nl k ++ tail).
    { pose proof (rest_S_pos t) as X. unfold rest in X at 1.
      cbn [pos str set_pos] in X. rewrite X, R. reflexivity. }
    assert (Rn : run_length (fun c => N.eqb c c_nl)
                   (slice_from (str t) (S (pos t))) = k).
    { rewrite Rs. rewrite <- (repeat_length c_nl k) at 2.
      apply run_length_app.
      - apply forallb_forall. intros x Hx. apply repeat_spec in Hx.
        subst x. reflexivity.
      - destruct tail as [|x tl]; [exact I|]. exact Ht. }
    rewrite Rn. clear Rn Rs.
    replace (S (pos t) + k) with (pos t + S k) by lia.
    assert (Sl : slice (str t) (pos t) (pos t + S k) = repeat c_nl (S k)).
    { rewrite slice_firstn_rest, R.
      rewrite <- (repeat_length c_nl (S k)) at 1. apply firstn_app_exact. }
    set (t2 := set_pos (set_newline t0 true) (pos t + S k)).
    assert (R2 : rest t2 = tail).
    { unfold rest, t2. cbn [str pos set_pos set_newline]. rewrite Fs.
      pose proof (rest_set_pos t (S k)) as X. unfold rest in X at 1.
      cbn [str pos set_pos] in X. rewrite X, R.
      rewrite <- (repeat_length c_nl (S k)) at 1. apply skipn_app_exact. }
    destruct (Nat.eqb_spec (pos t + S k) (S (pos t))) as [Ek|Ek].
    - assert (K0 : k = 0) by lia. subst k.
      eexists. eexists. split; [reflexivity|].
      unfold enqueue, locate. cbn [name Tk fst snd].
      cbn [_lookahead queue set_queue set_line_column pos set_pos
             set_newline t2]. rewrite Fl, Fq.
      split; [reflexivity|]. split; [reflexivity|]. split; [reflexivity|].
      unfold getLocation, t2.
      cbn [end_ location pos line column set_queue
             set_line_column set_pos set_newline].
      rewrite Fn.
      replace (S (line t)) with (line t + 1) by lia.
      split; [reflexivity|]. split; [reflexivity|].
      split; [exact R2|reflexivity].
    - assert (K0 : k <> 0) by lia.
      destruct (Nat.eqb_spec k 0) as [|_]; [contradiction|].
      change (str t2) with (str t0). rewrite Fs, Sl.
      eexists. eexists. split; [reflexivity|].
      unfold enqueue, locate. cbn [name Tk fst snd contents].
      cbn [_lookahead queue set_queue set_line_column pos set_pos
             set_newline t2]. rewrite Fl, Fq.
      split; [reflexivity|]. split; [reflexivity|]. split; [reflexivity|].
      unfold getLocation, t2.
      cbn [end_ location pos line column set_queue
             set_line_column set_pos set_newline].
      rewrite Fn, repeat_length.
      split; [reflexivity|]. split; [reflexivity|].
      split; [exact R2|reflexivity]. }
  unfold matchToken.
  destruct (Nat.eqb_spec (pos t) (length (str t))); [lia|].
  destruct (_newline t) eqn:N.
  - rewrite (@line_start_passes t c_nl E0 eq_refl eq_refl eq_refl eq_refl).
    apply D. now right.
  - apply D. now left.
Qed.

Lemma newline_run_witness :
  rest (set_pos (new_Tokenizer (lit "a" ++ [c_nl; c_nl; c_nl] ++ lit "b")) 1)
  = repeat c_nl 3 ++ lit "b"
  /\ exists t1 tk,
       matchToken
         (set_pos (new_Tokenizer (lit "a" ++ [c_nl; c_nl; c_nl] ++ lit "b")) 1)
       = Ok t1
       /\ tok tk = Tk parabreak (repeat c_nl 3)
       /\ end_ (location tk) = mkPosition 4 4 1
       /\ rest t1 = lit "b".
Proof.
  split; [reflexivity|].
  destruct (@newline_run
              (set_pos (new_Tokenizer (lit "a" ++ [c_nl; c_nl; c_nl]
                                         ++ lit "b")) 1)
              2 (lit "b") eq_refl eq_refl eq_refl)
    as (t1 & tk & M & _ & U & _ & E & _ & R & _).
  exists t1, tk. auto.
Defined.

Lemma delimiter_name_cases (c : char) (nm : TokenName) :
  delimiter_name c = Some nm ->
  isWhitespace c = false /\ is_d c = false /\ N.eqb c c_lt = false
  /\ N.eqb c c_nl = false.
Proof.
  unfold delimiter_name. intros H.
  repeat match type of H with
         | (if N.eqb c ?d then _ else _) = _ =>
             destruct (N.eqb_spec c d) as [->|_];
             [repeat split; reflexivity|]
         end.
  discriminate.
Qed.

Lemma dispatch_delimiter (t : Tokenizer) (c : char) (nm : TokenName) :
  chr_at t 0 = Some c -> delimiter_name c = Some nm ->
  dispatch t
  = Ok (enqueue (set_pos t (S (pos t))) (delimiter_token c) (getLocation t)).
Proof.
  intros E H. unfold dispatch, delimiter_token. rewrite E.
  unfold delimiter_name in *.
  repeat match type of H with
         | (if N.eqb c ?d then _ else _) = _ =>
             destruct (N.eqb c d); [reflexivity|]
         end.
  discriminate.
Qed.

(** A delimiter is a token of its own, at a line start too unless it
    is a bullet. *)
Lemma matchToken_delimiter (t : Tokenizer) (c : char) (nm : TokenName) :
  chr_at t 0 = Some c -> delimiter_name c = Some nm ->
  (_newline t = true ->
   is_chr c_star (Some c) && is_chr c_space (chr_at t 1) = false) ->
  matchToken t
  = Ok (enqueue (set_pos (set_newline t false) (S (pos t)))
          (delimiter_token c) (getLocation t)).
Proof.
  intros E H Hb. pose proof (chr_at_0_lt _ E) as Hlt.
  destruct (delimiter_name_cases _ H) as (Hw & Hd & Hl & _).
  unfold matchToken.
  destruct (Nat.eqb_spec (pos t) (length (str t))); [lia|].
  destruct (_newline t) eqn:N.
  - rewrite (@line_start_passes t c E Hw Hd (Hb eq_refl) Hl).
    exact (@dispatch_delimiter (set_newline t false) c nm E H).
  - rewrite (set_newline_same t N).
    exact (@dispatch_delimiter t c nm E H).
Qed.

(** Delimiters never merge: away from a line start, a run of delimiter
    characters gives one one-character token for each of them, in
    order, each located on its character. *)
Theorem delimiter_run (ds : ustring) :
  forall (t : Tokenizer) (tail : ustring),
    rest t = ds ++ tail ->
    forallb (fun c => match delimiter_name c with
                      | Some _ => true
                      | None => false
                      end) ds = true ->
    _lookahead t = [] -> _newline t = false ->
    exists t1 toks,
      matchTokens (length ds) t = Ok t1
      /\ queue t1 = queue t ++ toks
      /\ map tok toks = map delimiter_token ds
      /\ chain (pos t) toks (pos t + length ds)
      /\ Forall (fun tk => end_offset tk = S (start_offset tk)) toks
      /\ rest t1 = tail /\ pos t1 = pos t + length ds
      /\ _lookahead t1 = [] /\ _newline t1 = false.
Proof.
  induction ds as [|c ds IH]; intros t tail R F L N.
  - exists t, []. simpl. rewrite app_nil_r, Nat.add_0_r.
    repeat split; auto.
  - cbn [forallb] in F. apply andb_true_iff in F. destruct F as [Fc F].
    destruct (delimiter_name c) as [nm|] eqn:Dn; [clear Fc|discriminate].
    simpl in R. destruct (rest_cons _ R) as (E0 & R1 & Hlt).
    assert (Hb : _newline t = true ->
                 is_chr c_star (Some c) && is_chr c_space (chr_at t 1) = false)
      by (rewrite N; discriminate).
    pose proof (@matchToken_delimiter t c nm E0 Dn Hb) as M.
    rewrite (set_newline_same t N) in M.
    set (t1 := enqueue (set_pos t (S (pos t))) (delimiter_token c)
                 (getLocation t)) in *.
    destruct (enqueue_fields (set_pos t (S (pos t))) (delimiter_token c)
                (getLocation t))
      as (Hs & _ & _ & Hn & Hp & Hl & tk & Q & U & S0 & E).
    fold t1 in Hs, Hn, Hp, Hl, Q.
    cbn [str pos queue _lookahead _newline set_pos] in Hs, Hn, Hp, Q, E.
    rewrite L in Q.
    assert (R1' : rest t1 = ds ++ tail).
    { unfold rest. rewrite Hs, Hp. exact R1. }
    destruct (IH t1 tail R1' F Hl (eq_trans Hn N))
      as (t2 & toks & M2 & Q2 & U2 & C2 & F2 & R2 & P2 & L2 & N2).
    exists t2, (tk :: toks).
    cbn [matchTokens length]. rewrite M. cbn [bind].
    split; [exact M2|]. split.
    { rewrite Q2, Q, <- app_assoc. reflexivity. }
    split; [cbn [map]; now rewrite U, U2|].
    assert (Os : start_offset tk = pos t).
    { unfold start_offset. now rewrite S0. }
    assert (Oe : end_offset tk = S (pos t)) by exact E.
    split.
    { cbn [chain]. split; [exact Os|]. rewrite Oe.
      rewrite Hp in C2.
      replace (pos t + S (length ds)) with (S (pos t) + length ds) by lia.
      exact C2. }
    split; [constructor; [now rewrite Oe, Os|exact F2]|].
    split; [exact R2|]. split; [rewrite P2, Hp; lia|].
    split; [exact L2|exact N2].
Qed.

Lemma delimiter_run_witness :
  rest (set_newline (new_Tokenizer (lit "**_~a")) false) = lit "**_~" ++ lit "a"
  /\ exists t1 toks,
       matchTokens 4 (set_newline (new_Tokenizer (lit "**_~a")) false) = Ok t1
       /\ queue t1 = toks
       /\ map tok toks
          = [Tk star (lit "*"); Tk star (lit "*"); Tk underscore (lit "_");
             Tk tilde (lit "~")]
       /\ rest t1 = lit "a".
Proof.
  split; [reflexivity|].
  destruct (@delimiter_run (lit "**_~")
              (set_newline (new_Tokenizer (lit "**_~a")) false) (lit "a")
              eq_refl eq_refl eq_refl eq_refl)
    as (t1 & toks & M & Q & U & _ & _ & R & _).
  exists t1, toks. auto.
Defined.

(** The line-start branch at a [*] behind white space. *)
Lemma line_start_star (t : Tokenizer) (ws tail : ustring) :
  rest t = ws ++ c_star :: tail -> forallb isWhitespace ws = true ->
  let t1 := set_pos (set_newline t false) (pos t + length ws) in
  rest t1 = c_star :: tail
  /\ line_start t
     = if is_chr c_space (nth_error tail 0)
       then inl (enqueue (set_pos t1 (pos t1 + 2))
                   (Tk ul (ws ++ [c_star; c_space])) (getLocation t))
       else if 0 <? length ws
            then inl (enqueue t1 (Tk whitespace ws) (getLocation t))
            else inr t1.
Proof.
  intros R Hw t1.
  assert (Rn : run_length isWhitespace (rest t) = length ws).
  { rewrite R. apply run_length_app; [exact Hw|reflexivity]. }
  assert (R1 : rest t1 = c_star :: tail).
  { unfold t1.
    change (pos t + length ws) with (pos (set_newline t false) + length ws).
    rewrite rest_set_pos. change (rest (set_newline t false)) with (rest t).
    rewrite R. apply skipn_app_exact. }
  split; [exact R1|].
  destruct (rest_cons _ R1) as (E0 & _ & Hlt).
  assert (E1 : chr_at t1 1 = nth_error tail 0)
    by (rewrite chr_at_rest, R1; reflexivity).
  unfold line_start. rewrite scanWhitespace_eq.
  change (rest (set_newline t false)) with (rest t).
  change (getLocation (set_newline t false)) with (getLocation t).
  change (pos (set_newline t false)) with (pos t).
  rewrite Rn. fold t1.
  assert (W : firstn (length ws) (rest t) = ws)
    by (rewrite R; apply firstn_app_exact).
  rewrite W.
  destruct (Nat.leb_spec (length (str t1)) (pos t1)); [lia|].
  rewrite E0, E1.
  change (is_d c_star) with false.
  change (is_chr c_star (Some c_star)) with true. cbn [andb]. cbv iota.
  destruct (is_chr c_space (nth_error tail 0)); [reflexivity|].
  change (is_chr c_lt (Some c_star)) with false. cbv iota. reflexivity.
Qed.

(** At a line start, [*] and a space behind optional white space are
    one bullet token; a [*] that no space follows is no bullet: the
    white space before it, if there is any, is a token of its own and
    the [*] is a [star] token. *)
Theorem bullet_marker (t : Tokenizer) (ws tail : ustring) :
  rest t = ws ++ c_star :: tail -> forallb isWhitespace ws = true ->
  _lookahead t = [] -> _newline t = true ->
  (is_chr c_space (nth_error tail 0) = true ->
   exists t1 tk,
     matchToken t = Ok t1 /\ queue t1 = queue t ++ [tk]
     /\ tok tk = Tk ul (ws ++ [c_star; c_space])
     /\ start (location tk) = getLocation t
     /\ offset (end_ (location tk)) = pos t + length ws + 2
     /\ rest t1 = skipn 1 tail /\ _newline t1 = false)
  /\ (is_chr c_space (nth_error tail 0) = false -> ws = [] ->
      exists t2 tk,
        matchToken t = Ok t2 /\ queue t2 = queue t ++ [tk]
        /\ tok tk = Tk star [c_star]
        /\ offset (start (location tk)) = pos t
        /\ rest t2 = tail)
  /\ (is_chr c_space (nth_error tail 0) = false -> ws <> [] ->
      exists t1 w,
        matchToken t = Ok t1 /\ queue t1 = queue t ++ [w]
        /\ tok w = Tk whitespace ws
        /\ exists t2 tk,
             matchToken t1 = Ok t2 /\ queue t2 = queue t1 ++ [tk]
             /\ tok tk = Tk star [c_star]
             /\ offset (start (location tk)) = pos t + length ws
             /\ rest t2 = tail).
Proof.
  intros R Hw L N.
  destruct (@line_start_star t ws tail R Hw) as (R1 & Ls).
  set (t1 := set_pos (set_newline t false) (pos t + length ws)) in *.
  pose proof (rest_length t) as Lr. rewrite R, length_app in Lr.
  simpl in Lr.
  assert (Hne : pos t <> length (str t)) by lia.
  split; [|split].
  - intros Sp. rewrite Sp in Ls.
    set (tu := enqueue (set_pos t1 (pos t1 + 2))
                 (Tk ul (ws ++ [c_star; c_space])) (getLocation t)) in *.
    destruct (enqueue_fields (set_pos t1 (pos t1 + 2))
                (Tk ul (ws ++ [c_star; c_space])) (getLocation t))
      as (Hs & _ & _ & Hn & Hp & _ & tk & Q & U & S0 & E).
    fold tu in Hs, Hn, Hp, Q.
    cbn [str pos queue _lookahead _newline set_pos set_newline t1]
      in Hs, Hn, Hp, Q, E. rewrite L in Q.
    exists tu, tk. unfold matchToken.
    destruct (Nat.eqb_spec (pos t) (length (str t))); [contradiction|].
    rewrite N, Ls. split; [reflexivity|].
    split; [exact Q|]. split; [exact U|]. split; [exact S0|].
    split; [exact E|]. split; [|exact Hn].
    unfold rest. rewrite Hs, Hp.
    pose proof (rest_set_pos t1 2) as X. unfold rest in X at 1.
    cbn [str pos set_pos set_newline t1] in X. rewrite X, R1.
    destruct tail as [|x tl]; [discriminate|reflexivity].
  - intros Sp Wn. rewrite Sp in Ls.
    assert (Et : chr_at t 0 = Some c_star)
      by (rewrite chr_at_rest, R, Wn; reflexivity).
    assert (Hbt : _newline t = true ->
                  is_chr c_star (Some c_star)
                  && is_chr c_space (chr_at t 1) = false).
    { intros _. rewrite chr_at_rest, R, Wn.
      change (nth_error ([] ++ c_star :: tail) 1) with (nth_error tail 0).
      rewrite Sp. reflexivity. }
    pose proof (@matchToken_delimiter t c_star star Et eq_refl Hbt) as M.
    destruct (enqueue_fields (set_pos (set_newline t false) (S (pos t)))
                (delimiter_token c_star) (getLocation t))
      as (Hs2 & _ & _ & _ & Hp2 & _ & tk & Q2 & U2 & S2 & _).
    cbn [str pos queue _lookahead set_pos set_newline] in Hs2, Hp2, Q2.
    rewrite L in Q2.
    eexists. exists tk. split; [exact M|].
    split; [exact Q2|]. split; [exact U2|].
    split; [rewrite S2; reflexivity|].
    unfold rest. rewrite Hs2, Hp2.
    pose proof (rest_S_pos t) as X. unfold rest in X at 1.
    cbn [str pos set_pos] in X. rewrite X, R, Wn. reflexivity.
  - intros Sp Wn. rewrite Sp in Ls.
    assert (Hp : 0 < length ws)
      by (destruct ws; [contradiction|simpl; lia]).
    destruct (Nat.ltb_spec 0 (length ws)) as [_|Hz]; [|lia].
    set (tw := enqueue t1 (Tk whitespace ws) (getLocation t)) in *.
    destruct (enqueue_fields t1 (Tk whitespace ws) (getLocation t))
      as (Hs & _ & _ & Hn & Hpw & Hl & w & Q & U & _).
    fold tw in Hs, Hn, Hpw, Hl, Q.
    cbn [str pos queue _lookahead _newline set_pos set_newline t1]
      in Hs, Hn, Hpw, Q. rewrite L in Q.
    assert (Rw : rest tw = c_star :: tail).
    { unfold rest. rewrite Hs, Hpw. exact R1. }
    assert (Ew : chr_at tw 0 = Some c_star)
      by (rewrite chr_at_rest, Rw; reflexivity).
    assert (Mw : matchToken t = Ok tw).
    { unfold matchToken.
      destruct (Nat.eqb_spec (pos t) (length (str t))); [contradiction|].
      now rewrite N, Ls. }
    exists tw, w. split; [exact Mw|]. split; [exact Q|]. split; [exact U|].
    assert (Hbw : _newline tw = true ->
                  is_chr c_star (Some c_star)
                  && is_chr c_space (chr_at tw 1) = false)
      by (rewrite Hn; discriminate).
    pose proof (@matchToken_delimiter tw c_star star Ew eq_refl Hbw) as M.
    rewrite (set_newline_same tw Hn) in M.
    destruct (enqueue_fields (set_pos tw (S (pos tw)))
                (delimiter_token c_star) (getLocation tw))
      as (Hs2 & _ & _ & _ & Hp2 & _ & tk & Q2 & U2 & S2 & _).
    cbn [str pos queue _lookahead set_pos] in Hs2, Hp2, Q2.
    rewrite Hl in Q2.
    eexists. exists tk. split; [exact M|].
    split; [exact Q2|].
    split; [exact U2|]. split; [rewrite S2; exact Hpw|].
    unfold rest. rewrite Hs2, Hp2.
    pose proof (rest_S_pos tw) as X. unfold rest in X at 1.
    cbn [str pos set_pos] in X. rewrite X, Rw. reflexivity.
Qed.

Lemma bullet_marker_witness :
  rest (new_Tokenizer (lit " * a")) = lit " " ++ c_star :: lit " a"
  /\ exists t1 tk,
       matchToken (new_Tokenizer (lit " * a")) = Ok t1
       /\ queue t1 = [tk]
       /\ tok tk = Tk ul (lit " * ")
       /\ rest t1 = lit "a".
Proof.
  split; [reflexivity|].
  destruct (proj1 (@bullet_marker (new_Tokenizer (lit " * a")) (lit " ")
                     (lit " a") eq_refl eq_refl eq_refl eq_refl) eq_refl)
    as (t1 & tk & M & Q & U & _ & _ & R & _).
  exists t1, tk. auto.
Defined.

(** ** Escaping is undone by scanning *)









(** ** The shape of the token stream *)

(** For every input the tokens end with exactly one EOF token, which
    is located at the end of the input with an empty span; every token
    before it has another name and a location inside the input. *)
Theorem stream_ends (s : ustring) :
  exists body e,
    stream (new_Tokenizer s) = body ++ [e]
    /\ tok e = TkEOF
    /\ start_offset e = length s /\ end_offset e = length s
    /\ Forall (fun x => tok_name x <> EOF
                        /\ start_offset x <= end_offset x
                        /\ end_offset x <= length s) body.
Proof.
  set (P := fun x : Token =>
              (tok_name x = EOF ->
               tok x = TkEOF /\ start_offset x = length s
               /\ end_offset x = length s)
              /\ start_offset x <= end_offset x
              /\ end_offset x <= length s).
  assert (I : let d := drain (calls_bound (new_Tokenizer s))
                         (new_Tokenizer s) in
              str d = s /\ Forall P (queue d)).
  { apply (@drain_invariant (fun t => str t = s /\ Forall P (queue t)));
      [|apply wf_new|split; [reflexivity|constructor]].
    intros t t1 W (Es & Fq) E M.
    destruct (matchToken_wf W E) as (t1' & M' & _ & C).
    rewrite M in M'. inversion M'; subst t1'. clear M'.
    destruct C as [[Pe (Hs & _ & _ & _ & _ & e & Q & U & Os & Oe)]
                  |[_ (Hs & _ & _ & _ & Hp & toks & Q & _ & Ft)]].
    - split; [congruence|]. rewrite Q. apply Forall_app. split; [exact Fq|].
      constructor; [|constructor]. unfold P, start_offset, end_offset.
      rewrite Os, Oe, Pe, Es. auto.
    - split; [congruence|]. rewrite Q. apply Forall_app. split; [exact Fq|].
      eapply Forall_impl; [|exact Ft].
      intros x (Nx & _ & Hx & Hy). unfold P, start_offset, end_offset.
      rewrite Es in Hp. split; [intros Ex; contradiction|]. lia. }
  destruct I as (_ & Fq).
  destruct (stream_shape (wf_new s)) as (body & e & St & Ne & Fb).
  exists body, e.
  change (Forall P (stream (new_Tokenizer s))) in Fq. rewrite St in Fq.
  apply Forall_app in Fq. destruct Fq as [Fq Fe].
  apply Forall_inv in Fe. destruct Fe as (He & _).
  destruct (He Ne) as (A & B & C).
  split; [exact St|]. split; [exact A|]. split; [exact B|].
  split; [exact C|].
  apply Forall_forall. intros x Hx.
  rewrite Forall_forall in Fq, Fb.
  destruct (Fq x Hx) as (_ & H1 & H2). split; [exact (Fb x Hx)|]. lia.
Qed.

(** ** Lines and columns *)

Lemma enqueue_line_feeds (t : Tokenizer) (u : Unlocated) (p : Position) :
  exists tk,
    queue (enqueue t u p) = queue t ++ tk :: _lookahead t
    /\ tok tk = u /\ start (location tk) = p
    /\ end_ (location tk) = getLocation (enqueue t u p)
    /\ line (enqueue t u p) = line t + feeds tk
    /\ column (enqueue t u p)
       = match name u with
         | linebreak | parabreak => 1
         | _ => column t + (pos t - offset p)
         end
    /\ pos (enqueue t u p) = pos t.
Proof.
  unfold enqueue, locate, feeds, contents_length, tok_name, tok_contents.
  destruct (name u) eqn:E; cbn [fst snd];
    cbn [_lookahead queue set_queue set_line_column];
    (destruct (_lookahead t) as [|x l];
     [eexists; repeat split; cbn; rewrite ?E; lia
     |eexists; rewrite <- app_assoc; repeat split; cbn; rewrite ?E; lia]).
Qed.

Lemma enqueueLookahead_on_line (t : Tokenizer) (u : Unlocated)
    (p : Position) :
  name u <> linebreak -> name u <> parabreak -> p_line p = line t ->
  exists tk,
    _lookahead (enqueueLookahead t u p) = _lookahead t ++ [tk]
    /\ on_line (line t) tk
    /\ line (enqueueLookahead t u p) = line t
    /\ tok tk = u.
Proof.
  intros A B Hp.
  unfold enqueueLookahead, locate, on_line, feeds, tok_name.
  destruct (name u) eqn:E; try contradiction; cbn;
    (eexists; repeat split; cbn; rewrite ?E; auto).
Qed.

(** [scanChars] locates no line break: the line stays, what it holds
    back is on that line, and the column moves only when it holds a
    token back. *)
Lemma scanChars_loop_quiet (fuel : nat) :
  forall t out,
    pos t <= length (str t) ->
    held t (snd (scanChars_loop fuel t out)).
Proof.
  induction fuel as [|fuel IH]; intros t out H.
  { simpl. split; [reflexivity|]. exists []. rewrite app_nil_r. auto. }
  cbn [scanChars_loop].
  assert (stop : forall o : ustring, held t (snd (o, t))).
  { intros o. simpl. split; [reflexivity|]. exists []. rewrite app_nil_r.
    auto. }
  destruct (chr_at t 0) as [chr|] eqn:Ec; [|apply stop].
  pose proof (chr_at_0_lt _ Ec) as Hlt.
  assert (step : forall p o,
             pos t < p <= length (str t) ->
             held t (snd (scanChars_loop fuel (set_pos t p) o))).
  { intros p o Hp. apply (IH (set_pos t p) o). simpl. lia. }
  assert (la : forall (q : nat) nm cs (o : ustring),
             nm = tag \/ nm = opaqueTag \/ nm = comment ->
             shaped_u (Tk nm cs) ->
             held t (snd (o, enqueueLookahead (set_pos t q) (Tk nm cs)
                               (getLocation t)))).
  { intros q nm cs o N Sh. cbn [snd].
    destruct (@enqueueLookahead_on_line (set_pos t q) (Tk nm cs)
                (getLocation t)) as (tk & A & B & C & U);
      try (destruct N as [-> | [-> | ->]]; discriminate);
      [reflexivity|].
    split; [exact C|]. exists [tk]. split; [exact A|].
    split; [constructor; [exact B|constructor]|].
    split; [|discriminate].
    constructor; [|constructor]. unfold shaped. rewrite U. exact Sh. }
  destruct (N.eqb chr c_bslash).
  { destruct (scanEscape_spec t Hlt) as (e & p & E & P & _). rewrite E.
    apply step. lia. }
  destruct (isChars chr); [apply step; lia|].
  destruct (N.eqb chr c_lt); [|apply stop].
  destruct (tryScanTag_spec t) as [E|(m & tl & E & _ & Hm & Hr & _)];
    rewrite E.
  - destruct (tryScanComment_spec t) as [E2|(cm & tl & E2 & Hm & Hr)];
      rewrite E2.
    + apply step. lia.
    + apply la; auto. exists [], tl. rewrite Hm. auto.
  - destruct (opaqueTags_has (group m 1) && group2_not_slash m).
    + destruct (scanToEndTag_spec (group m 1)
                  (set_pos t (pos t + length (m0 m)))) as (p & Es & Hp).
      { pose proof (rest_app_pos _ _ _ H Hr). simpl. lia. }
      rewrite Es. apply la; auto.
      eexists [], _. rewrite Hm. cbn [contents Tk app]. auto.
    + apply la; auto. exists tl. rewrite Hm. reflexivity.
Qed.

Lemma quiet_start (t t2 : Tokenizer) :
  _lookahead t2 = [] -> str t2 = str t -> queue t2 = queue t ->
  line t2 = line t -> column t2 = column t -> quiet t t2 [].
Proof.
  intros L S Q Ln C. unfold quiet. rewrite L, Q, app_nil_r.
  repeat split; auto.
Qed.

Lemma quiet_scanChars (t t2 : Tokenizer) (pre : list Token) :
  pos t2 <= length (str t2) -> _lookahead t2 = [] ->
  quiet t t2 pre -> quiet t (snd (scanChars t2)) pre.
Proof.
  intros H L (S & Q & Ln & F & Fm & Fs & C).
  destruct (scanChars_spec t2 H)
    as (la' & (S2 & _ & _ & _ & Q2) & _ & La' & _ & Fn & _).
  destruct (@scanChars_loop_quiet (length (str t2) - pos t2) t2 [] H)
    as (Ln2 & la & La & Fl & Sl & Cl).
  fold (scanChars t2) in Ln2, La, Cl.
  rewrite La in La'. apply app_inv_head in La'. subst la'.
  rewrite L in La, F, Fm, Fs. simpl in La. rewrite app_nil_r in F, Fm, Fs.
  unfold quiet. rewrite S2, Q2, Ln2, La.
  split; [exact S|]. split; [exact Q|]. split; [exact Ln|].
  split; [|split; [|split]].
  - apply Forall_app. split; [exact F|]. rewrite <- Ln. exact Fl.
  - apply Forall_app. split; [exact Fm|].
    eapply Forall_impl; [|exact Fn].
    intros x ([N|[N|N]] & _); unfold not_marker; rewrite N;
      split; discriminate.
  - apply Forall_app. split; [exact Fs|exact Sl].
  - intros -> ->. rewrite (Cl eq_refl). apply C; [reflexivity|exact L].
Qed.

Lemma quiet_ws_flush (t t2 : Tokenizer) (ws : ustring) (p : Position) :
  quiet t t2 [] -> _lookahead t2 = [] -> p_line p = line t ->
  forallb isWhitespace ws = true ->
  let t3 := if 0 <? length ws
            then enqueue t2 (Tk whitespace ws) p else t2 in
  exists pre, quiet t t3 pre /\ _lookahead t3 = [] /\ pos t3 = pos t2
              /\ str t3 = str t2.
Proof.
  intros Q L Hp Hw. cbv zeta. destruct (Nat.ltb_spec 0 (length ws)) as [W|W].
  2:{ exists []. auto. }
  destruct Q as (S & Q & Ln & _ & _).
  destruct (enqueue_line_feeds t2 (Tk whitespace ws) p)
    as (tk & Q3 & U & St & En & Ln3 & _ & P3).
  destruct (enqueue_fields t2 (Tk whitespace ws) p)
    as (S3 & _ & _ & _ & _ & L3 & _).
  assert (F : feeds tk = 0).
  { unfold feeds, tok_name. rewrite U. reflexivity. }
  exists [tk]. split; [|auto].
  unfold quiet. rewrite S3, Q3, L, Q, L3, Ln3, F, Ln, <- app_assoc.
  split; [exact S|]. split; [reflexivity|]. split; [lia|].
  split; [|split; [|split]].
  - rewrite app_nil_r. constructor; [|constructor].
    unfold on_line. rewrite St, En. cbn [getLocation p_line].
    rewrite Ln3, F, Ln. repeat split; auto; lia.
  - rewrite app_nil_r. constructor; [|constructor].
    unfold not_marker, tok_name. rewrite U. split; discriminate.
  - rewrite app_nil_r. constructor; [|constructor].
    unfold shaped. rewrite U. exists ws.
    split; [reflexivity|]. split; [|exact Hw].
    intros ->. simpl in W. lia.
  - discriminate.
Qed.

Lemma scanEscape_nonempty (t : Tokenizer) : fst (scanEscape t) <> [].
Proof.
  unfold scanEscape.
  destruct (pos (set_pos t (S (pos t))) =? length (str (set_pos t (S (pos t)))));
    [discriminate|].
  destruct (chr_at (set_pos t (S (pos t))) 0) as [chr|]; [|discriminate].
  destruct (isFormat chr || N.eqb chr c_bslash); discriminate.
Qed.

(** Where the first iteration of [scanChars] consumes a character, it
    yields at least one. *)
Lemma scanChars_nonempty (t : Tokenizer) :
  pos t < length (str t) -> consumes_first t -> fst (scanChars t) <> [].
Proof.
  intros H C. unfold scanChars.
  destruct (length (str t) - pos t) as [|f] eqn:Ef; [lia|].
  cbn [scanChars_loop]. unfold consumes_first in C.
  destruct (chr_at t 0) as [chr|]; [|contradiction].
  assert (grow : forall (t' : Tokenizer) (e : ustring),
             e <> [] -> fst (scanChars_loop f t' ([] ++ e)) <> []).
  { intros t' e Ne. rewrite scanChars_loop_out. cbn [fst app].
    intros X. apply app_eq_nil in X. destruct X. contradiction. }
  destruct (N.eqb chr c_bslash).
  { pose proof (scanEscape_nonempty t) as Ne.
    destruct (scanEscape t) as [e t1]. apply grow. exact Ne. }
  destruct C as [Ci|(-> & Et & Em)].
  - rewrite Ci. apply grow. discriminate.
  - change (isChars c_lt) with false. change (N.eqb c_lt c_lt) with true.
    cbv iota.
    destruct (tryScanTag_spec t) as [E|(m & tl & E & _)]; rewrite E in *;
      [|discriminate].
    destruct (tryScanComment_spec t) as [E2|(cm & tl & E2 & _)];
      rewrite E2 in *; [|discriminate].
    apply grow. discriminate.
Qed.

Lemma firstn_run_nl (l : ustring) :
  firstn (run_length (fun c => N.eqb c c_nl) l) l
  = repeat c_nl (run_length (fun c => N.eqb c c_nl) l).
Proof.
  induction l as [|a l IH]; [reflexivity|]. cbn [run_length].
  destruct (N.eqb_spec a c_nl) as [->|]; [|reflexivity].
  cbn [firstn repeat]. now rewrite IH.
Qed.

(** The generic dispatch ends by queueing a token located from the
    position of the call; before that no token was queued and no line
    break located. *)
Lemma dispatch_last (t : Tokenizer) :
  pos t < length (str t) -> _lookahead t = [] ->
  exists t2 u,
    dispatch t = Ok (enqueue t2 u (getLocation t))
    /\ quiet t t2 []
    /\ (name u = linebreak \/ name u = parabreak -> _lookahead t2 = [])
    /\ name u <> ol /\ name u <> ul /\ shaped_u u.
Proof.
  intros H L. unfold dispatch.
  destruct (chr_at t 0) as [chr|] eqn:Ec.
  2:{ apply chr_at_0_None in Ec. lia. }
  assert (Q0 : quiet t t []) by (apply quiet_start; auto).
  assert (close : forall (t2 : Tokenizer) nm c,
             quiet t t2 [] -> _lookahead t2 = [] -> nm <> ol -> nm <> ul ->
             shaped_u (Tk nm c) ->
             exists t2' u',
               Ok (enqueue t2 (Tk nm c) (getLocation t))
               = Ok (enqueue t2' u' (getLocation t))
               /\ quiet t t2' []
               /\ (name u' = linebreak \/ name u' = parabreak ->
                   _lookahead t2' = [])
               /\ name u' <> ol /\ name u' <> ul /\ shaped_u u').
  { intros t2 nm c Q2 L2 A B Sh. exists t2, (Tk nm c). auto 6. }
  assert (textcase : forall (t' : Tokenizer),
             t' = t -> consumes_first t ->
             exists t2 u,
               (let (cs, t1) := scanChars t' in
                Ok (enqueue t1 (Tk text cs) (getLocation t)))
               = Ok (enqueue t2 u (getLocation t))
               /\ quiet t t2 []
               /\ (name u = linebreak \/ name u = parabreak ->
                   _lookahead t2 = [])
               /\ name u <> ol /\ name u <> ul /\ shaped_u u).
  { intros t' -> Cf.
    pose proof (@quiet_scanChars t t [] (Nat.lt_le_incl _ _ H) L Q0) as Q2.
    pose proof (@scanChars_nonempty t H Cf) as Ne.
    destruct (scanChars t) as [cs t1]. cbn [fst snd] in Q2, Ne.
    eexists _, _. split; [reflexivity|]. split; [exact Q2|].
    cbn [name Tk]. split; [intros [X|X]; discriminate|].
    split; [discriminate|]. split; [discriminate|].
    exists cs. auto. }
  destruct (N.eqb_spec chr c_star) as [->|];
    [apply close; auto; try discriminate; reflexivity|].
  destruct (N.eqb_spec chr c_underscore) as [->|];
    [apply close; auto; try discriminate; reflexivity|].
  destruct (N.eqb_spec chr c_tick) as [->|];
    [apply close; auto; try discriminate; reflexivity|].
  destruct (N.eqb_spec chr c_pipe) as [->|];
    [apply close; auto; try discriminate; reflexivity|].
  destruct (N.eqb_spec chr c_tilde) as [->|];
    [apply close; auto; try discriminate; reflexivity|].
  destruct (N.eqb_spec chr c_nl) as [->|].
  { cbn [pos str set_newline set_pos].
    set (r := run_length (fun c => N.eqb c c_nl)
                (slice_from (str t) (S (pos t)))).
    destruct (Nat.eqb_spec (S (pos t) + r) (S (pos t))) as [E0|E0].
    - apply close; auto; try discriminate;
        try solve [apply quiet_start; auto]; reflexivity.
    - apply close; auto; try discriminate;
        try solve [apply quiet_start; auto].
      destruct r as [|k] eqn:Er; [lia|]. exists k.
      cbn [contents Tk]. f_equal.
      rewrite (@slice_split (str t) (pos t) (S (pos t))
                 (S (pos t) + S k)) by lia.
      rewrite (slice_one _ Ec). unfold slice.
      replace (S (pos t) + S k - S (pos t)) with (S k) by lia.
      change (skipn (S (pos t)) (str t))
        with (slice_from (str t) (S (pos t))).
      rewrite <- Er. unfold r. rewrite firstn_run_nl. fold r.
      rewrite Er. reflexivity. }
  destruct (isWhitespace chr) eqn:Ew.
  { rewrite scanWhitespace_eq.
    assert (0 < run_length isWhitespace (rest t)) as R0.
    { eapply run_length_pos; [rewrite <- chr_at_rest; exact Ec|exact Ew]. }
    apply close; auto; try discriminate.
    eexists. split; [reflexivity|]. split; [|apply run_length_firstn].
    intros X. apply (f_equal (@length char)) in X.
    rewrite firstn_run_length_length in X. simpl in X. lia. }
  destruct (isChars chr) eqn:Ei.
  { apply (textcase t eq_refl). unfold consumes_first. rewrite Ec. auto. }
  destruct (N.eqb_spec chr c_lt) as [->|Hl].
  2:{ exfalso.
      destruct (dispatch_exhaustive chr) as [E|[E|[E|[E|[E|[E|[E|[E|E]]]]]]]];
        congruence. }
  destruct (is_chr c_bang (chr_at t 1) && is_chr c_minus (chr_at t 2)
            && is_chr c_minus (chr_at t 3)) eqn:Eb.
  - pose proof (comment_start_tryScanTag t Ec Eb) as Et.
    destruct (tryScanComment_spec t) as [E2|(cm & tl & E2 & Hm & Hr)];
      rewrite E2.
    + apply (textcase t eq_refl). unfold consumes_first.
      rewrite Ec, Et, E2. simpl. auto.
    + apply close; auto; try discriminate.
      exists [], tl. rewrite Hm. auto.
  - pose proof (no_comment_start_tryScanComment t Eb) as E2.
    destruct (tryScanTag_spec t) as [E|(m & tl & E & _ & Hm & Hr & _)];
      rewrite E.
    + apply (textcase t eq_refl). unfold consumes_first.
      rewrite Ec, E, E2. simpl. auto.
    + destruct (opaque_start m).
      * destruct (scanToEndTag_spec (group m 1)
                    (set_pos t (pos t + length (m0 m)))) as (p & Es & Hp).
        { exact (rest_app_pos _ _ _ (Nat.lt_le_incl _ _ H) Hr). }
        rewrite Es. apply close; auto; try discriminate.
        eexists [], _. rewrite Hm. cbn [contents Tk app]. auto.
      * apply close; auto; try discriminate.
        exists tl. rewrite Hm. reflexivity.
Qed.

(** The line-start branch, when it returns, ends by queueing a token
    other than a line break, located from the position of the call;
    when it falls through it has moved neither line nor column. *)
Lemma line_start_last (t : Tokenizer) :
  pos t < length (str t) -> _lookahead t = [] ->
  match line_start t with
  | inl t1 =>
      exists t2 u pre,
        t1 = enqueue t2 u (getLocation t) /\ quiet t t2 pre
        /\ name u <> linebreak /\ name u <> parabreak
        /\ (name u = ol \/ name u = ul -> pre = [] /\ _lookahead t2 = [])
        /\ shaped_u u
  | inr t1 =>
      str t1 = str t /\ queue t1 = queue t /\ line t1 = line t
      /\ column t1 = column t
  end.
Proof.
  intros H L. unfold line_start. rewrite scanWhitespace_eq.
  change (rest (set_newline t false)) with (rest t).
  change (getLocation (set_newline t false)) with (getLocation t).
  set (n := run_length isWhitespace (rest t)).
  set (ws := firstn n (rest t)).
  assert (Hw : forallb isWhitespace ws = true) by apply run_length_firstn.
  pose proof (run_pos_le isWhitespace t (Nat.lt_le_incl _ _ H)) as Hn.
  fold n in Hn.
  set (t1 := set_pos (set_newline t false) (pos (set_newline t false) + n)).
  assert (Q1 : quiet t t1 []) by (apply quiet_start; auto).
  assert (L1 : _lookahead t1 = []) by exact L.
  assert (P1 : pos t1 = pos t + n) by reflexivity.
  assert (S1 : str t1 = str t) by reflexivity.
  assert (close : forall (t2 : Tokenizer) nm c pre,
             quiet t t2 pre -> nm <> linebreak -> nm <> parabreak ->
             (nm = ol \/ nm = ul -> pre = [] /\ _lookahead t2 = []) ->
             shaped_u (Tk nm c) ->
             exists t2' u pre',
               enqueue t2 (Tk nm c) (getLocation t)
               = enqueue t2' u (getLocation t)
               /\ quiet t t2' pre'
               /\ name u <> linebreak /\ name u <> parabreak
               /\ (name u = ol \/ name u = ul ->
                   pre' = [] /\ _lookahead t2' = [])
               /\ shaped_u u).
  { intros t2 nm c pre Q2 A B C Sh. exists t2, (Tk nm c), pre. auto 6. }
  assert (fall : str t1 = str t /\ queue t1 = queue t /\ line t1 = line t
                 /\ column t1 = column t) by (repeat split).
  assert (wsonly : (0 <? length ws) = true ->
                   shaped_u (Tk whitespace ws)).
  { intros W. apply Nat.ltb_lt in W. exists ws.
    split; [reflexivity|]. split; [|exact Hw].
    intros X. rewrite X in W. simpl in W. lia. }
  destruct (length (str t1) <=? pos t1).
  { destruct (0 <? length ws) eqn:W; [|exact fall].
    apply (close t1 whitespace ws [] Q1); try discriminate; auto;
      intros [X|X]; discriminate. }
  destruct (match chr_at t1 0 with Some c => is_d c | None => false end)
    eqn:Ed.
  { rewrite scanDigits_eq.
    set (d := run_length is_d (rest t1)).
    set (digits := firstn d (rest t1)).
    assert (Hd : digits <> []).
    { destruct (chr_at t1 0) as [c|] eqn:Ec; [|discriminate].
      assert (0 < d).
      { eapply run_length_pos; [rewrite <- chr_at_rest; exact Ec|exact Ed]. }
      intros X. apply (f_equal (@length char)) in X. unfold digits, d in X.
      rewrite firstn_run_length_length in X. fold d in X. simpl in X. lia. }
    pose proof (run_pos_le is_d t1) as Hd2. fold d in Hd2.
    rewrite S1, P1 in Hd2. specialize (Hd2 ltac:(lia)).
    set (t2 := set_pos t1 (pos t1 + d)).
    destruct (is_chr c_dot (chr_at t2 0) && is_chr c_space (chr_at t2 1)).
    - apply (close (set_pos t2 (pos t2 + 2)) ol
               (ws ++ digits ++ [c_dot; c_space]) [] Q1);
        try discriminate; auto.
      exists ws, digits. split; [reflexivity|]. split; [exact Hw|].
      split; [exact Hd|apply run_length_firstn].
    - destruct (@quiet_ws_flush t t2 ws (getLocation t) Q1 L eq_refl Hw)
        as (pre & Q3 & L3 & P3 & S3).
      cbv zeta in Q3, L3, P3, S3.
      set (t3 := if 0 <? length ws
                 then enqueue t2 (Tk whitespace ws) (getLocation t) else t2)
        in *.
      assert (H3 : pos t3 <= length (str t3)).
      { rewrite P3, S3. unfold t2. fields. rewrite P1. exact Hd2. }
      pose proof (@quiet_scanChars t t3 pre H3 L3 Q3) as Q4.
      destruct (scanChars t3) as [cs t4]. cbn [snd] in Q4.
      apply (close t4 text (digits ++ cs) pre Q4); try discriminate;
        [intros [X|X]; discriminate|].
      exists (digits ++ cs). split; [reflexivity|].
      intros X. apply app_eq_nil in X. destruct X. contradiction. }
  destruct (is_chr c_star (chr_at t1 0) && is_chr c_space (chr_at t1 1)).
  { apply (close (set_pos t1 (pos t1 + 2)) ul (ws ++ [c_star; c_space])
             [] Q1); try discriminate; auto.
    exists ws. auto. }
  destruct (is_chr c_lt (chr_at t1 0)).
  { destruct (tryScanTag_spec t1) as [E|(m & tl & E & _ & Hm & Hr & _)];
      rewrite E.
    - destruct (tryScanComment_spec t1) as [E2|(cm & tl & E2 & Hm & Hr)];
        rewrite E2.
      + exact fall.
      + apply (close (set_pos t1 (pos t1 + length cm)) comment (ws ++ cm)
                 [] Q1); try discriminate; [intros [X|X]; discriminate|].
        exists ws, tl. rewrite Hm. auto.
    - assert (Hle : pos t1 + length (m0 m) <= length (str t1)).
      { apply (rest_app_pos _ _ _ ltac:(rewrite P1, S1; lia) Hr). }
      set (t2 := set_pos t1 (pos t1 + length (m0 m))).
      destruct (opaque_start m).
      + destruct (scanToEndTag_spec (group m 1) t2) as (p & Es & Hp).
        { exact Hle. }
        rewrite Es.
        apply (close (set_pos t2 p) opaqueTag
                 (ws ++ m0 m ++ slice (str t2) (pos t2) p) [] Q1);
          try discriminate; [intros [X|X]; discriminate|].
        eexists ws, _. rewrite Hm. cbn [contents Tk app]. auto.
      + destruct (@quiet_ws_flush t t2 ws (getLocation t) Q1 L eq_refl Hw)
          as (pre & Q3 & _).
        cbv zeta in Q3.
        apply (close _ tag (m0 m) pre Q3); try discriminate;
          [intros [X|X]; discriminate|].
        exists tl. rewrite Hm. reflexivity. }
  destruct (0 <? length ws) eqn:W; [|exact fall].
  apply (close t1 whitespace ws [] Q1); try discriminate; auto;
    intros [X|X]; discriminate.
Qed.

(** A call of [matchToken] away from the end of the input ends by
    queueing a token [u] located from line and column of the call;
    what was queued or held back before is on the line of the call and
    no list marker, and nothing was when [u] is a line break or a list
    marker; a list marker comes from a call at a line start. *)
Lemma matchToken_last (t : Tokenizer) :
  pos t < length (str t) -> _lookahead t = [] ->
  exists t2 u p pre,
    matchToken t = Ok (enqueue t2 u p)
    /\ quiet t t2 pre
    /\ p_line p = line t /\ p_column p = column t
    /\ (name u = linebreak \/ name u = parabreak ->
        pre = [] /\ _lookahead t2 = [])
    /\ (name u = ol \/ name u = ul ->
        pre = [] /\ _lookahead t2 = [] /\ _newline t = true)
    /\ shaped_u u.
Proof.
  intros H L. unfold matchToken.
  destruct (Nat.eqb_spec (pos t) (length (str t))); [lia|].
  assert (D : forall t',
             pos t' < length (str t') -> _lookahead t' = [] ->
             str t' = str t -> queue t' = queue t -> line t' = line t ->
             column t' = column t ->
             exists t2 u p pre,
               dispatch t' = Ok (enqueue t2 u p)
               /\ quiet t t2 pre
               /\ p_line p = line t /\ p_column p = column t
               /\ (name u = linebreak \/ name u = parabreak ->
                   pre = [] /\ _lookahead t2 = [])
               /\ (name u = ol \/ name u = ul ->
                   pre = [] /\ _lookahead t2 = [] /\ _newline t = true)
               /\ shaped_u u).
  { intros t' H' L' S' Q' Ln' C'.
    destruct (@dispatch_last t' H' L') as (t2 & u & E & Q & B & No & Nu & Sh).
    exists t2, u, (getLocation t'), []. split; [exact E|].
    split.
    - unfold quiet in *. rewrite <- S', <- Q', <- Ln', <- C'. exact Q.
    - cbn [getLocation p_line p_column].
      split; [exact Ln'|]. split; [exact C'|]. split; [auto|].
      split; [|exact Sh]. intros [X|X]; contradiction. }
  destruct (_newline t) eqn:N.
  - pose proof (@line_start_last t H L) as X.
    pose proof (@line_start_step t H L) as Y.
    destruct (line_start t) as [t1|t1].
    + destruct X as (t2 & u & pre & E & Q & A & B & C & Sh).
      exists t2, u, (getLocation t), pre. rewrite E.
      split; [reflexivity|]. split; [exact Q|].
      split; [reflexivity|]. split; [reflexivity|]. split; [|split].
      * intros [Z|Z]; contradiction.
      * intros Z. destruct (C Z). auto.
      * exact Sh.
    + destruct X as (S' & Q' & Ln' & C').
      destruct Y as (_ & _ & _ & _ & L' & P' & _).
      apply D; auto. rewrite S'. lia.
  - apply D; auto.
Qed.

Lemma lines_on_line (L : nat) (l : list Token) :
  Forall (on_line L) l -> lines L l /\ line_feeds l = 0.
Proof.
  induction 1 as [|x l (A & B & C) _ [IH1 IH2]];
    [split; [exact I|reflexivity]|].
  unfold line_feeds in *. cbn [lines map list_sum].
  rewrite C, Nat.add_0_r. repeat split; auto.
Qed.

Lemma line_feeds_app (l1 l2 : list Token) :
  line_feeds (l1 ++ l2) = line_feeds l1 + line_feeds l2.
Proof. unfold line_feeds. now rewrite map_app, list_sum_app. Qed.

Lemma lines_app (a : nat) (l1 l2 : list Token) :
  lines a l1 -> lines (a + line_feeds l1) l2 -> lines a (l1 ++ l2).
Proof.
  revert a. induction l1 as [|x l1 IH]; intros a H1 H2.
  - unfold line_feeds in H2. simpl in H2. rewrite Nat.add_0_r in H2.
    exact H2.
  - destruct H1 as (A & B & C). cbn [app lines].
    split; [exact A|]. split; [exact B|].
    apply IH; [exact C|].
    replace (a + line_feeds (x :: l1)) with (a + feeds x + line_feeds l1)
      in H2 by (unfold line_feeds; simpl; lia).
    exact H2.
Qed.

(** The tokens that a call of [matchToken] queues start on the line of
    the call, and the line moves on by what they feed. *)
Lemma matchToken_lines (t t1 : Tokenizer) :
  pos t <= length (str t) -> _lookahead t = [] -> matchToken t = Ok t1 ->
  exists toks,
    queue t1 = queue t ++ toks /\ lines (line t) toks
    /\ line t1 = line t + line_feeds toks.
Proof.
  intros H L M.
  destruct (Nat.eq_dec (pos t) (length (str t))) as [He|Hne].
  - unfold matchToken in M. rewrite (proj2 (Nat.eqb_eq _ _) He) in M.
    inversion M; subst t1. clear M.
    destruct (enqueue_line_feeds (set_eof t true) TkEOF
                (getLocation (set_eof t true)))
      as (tk & Q & U & St & En & Ln & _).
    change (_lookahead (set_eof t true)) with (_lookahead t) in Q.
    rewrite L in Q.
    assert (F : feeds tk = 0).
    { unfold feeds, tok_name. rewrite U. reflexivity. }
    exists [tk]. split; [exact Q|]. rewrite F in Ln. split.
    + cbn [lines]. rewrite St, En, F. cbn [getLocation p_line].
      rewrite Ln. cbn [line set_eof]. auto.
    + unfold line_feeds. simpl. rewrite Ln, F. reflexivity.
  - destruct (@matchToken_last t ltac:(lia) L)
      as (t2 & u & p & pre & M' & Q & Pl & Pc & B & _).
    rewrite M in M'. inversion M'; subst t1. clear M'.
    destruct Q as (S & Q & Ln & F & _).
    destruct (enqueue_line_feeds t2 u p) as (tk & Q3 & U & St & En & Ln3 & _).
    exists (pre ++ tk :: _lookahead t2).
    split; [rewrite Q3, Q, <- app_assoc; reflexivity|].
    assert (cases : (name u = linebreak \/ name u = parabreak)
                    \/ feeds tk = 0).
    { unfold feeds, tok_name. rewrite U. destruct (name u); auto. }
    destruct cases as [Br|F0].
    + destruct (B Br) as (-> & ->). cbn [app]. split.
      * cbn [lines]. rewrite St, En. cbn [getLocation p_line].
        rewrite Ln3, Ln. auto.
      * unfold line_feeds. simpl. rewrite Ln3, Ln. lia.
    + assert (Fa : Forall (on_line (line t)) (pre ++ tk :: _lookahead t2)).
      { apply Forall_app in F. destruct F as [F1 F2].
        apply Forall_app. split; [exact F1|]. constructor; [|exact F2].
        unfold on_line. rewrite St, En. cbn [getLocation p_line].
        rewrite Ln3, F0, Ln, Nat.add_0_r. auto. }
      destruct (lines_on_line Fa) as [A Z]. split; [exact A|].
      rewrite Z, Ln3, F0, Ln. reflexivity.
Qed.

(** For every input, line numbers follow the line-break tokens alone.
    The first token starts on line 1; every token starts on the line
    on which the token before it ends; a [linebreak] token ends one
    line further down, a [parabreak] token as many lines further down
    as it has characters, and every other token ends on the line on
    which it starts, whatever its contents. *)
Theorem stream_lines (s : ustring) : lines 1 (stream (new_Tokenizer s)).
Proof.
  unfold stream.
  apply (@drain_invariant
           (fun t => lines 1 (queue t)
                     /\ line t = 1 + line_feeds (queue t)));
    [|apply wf_new|split; [exact I|reflexivity]].
  intros t t1 (P & L & _) (A & B) _ M.
  destruct (@matchToken_lines t t1 P L M) as (toks & Q & X & Y).
  rewrite Q. split.
  - apply lines_app; [exact A|]. rewrite <- B. exact X.
  - rewrite line_feeds_app, Y, B. lia.
Qed.

Lemma last_end_app (p : Position) (l1 l2 : list Token) :
  last_end p (l1 ++ l2) = last_end (last_end p l1) l2.
Proof.
  revert p. induction l1 as [|x l1 IH]; intros p; [reflexivity|].
  cbn [app last_end]. apply IH.
Qed.

Lemma joined_app (p : Position) (l1 l2 : list Token) :
  joined p l1 -> joined (last_end p l1) l2 -> joined p (l1 ++ l2).
Proof.
  revert p. induction l1 as [|x l1 IH]; intros p H1 H2; [exact H2|].
  destruct H1 as (A & B). cbn [app joined]. split; [exact A|].
  apply IH; [exact B|exact H2].
Qed.

(** A call of [matchToken] that queues one token which starts at the
    offset of the call locates it from the position before the call to
    the position after it. *)
Lemma matchToken_position (t t1 : Tokenizer) (tk : Token) :
  pos t <= length (str t) -> _lookahead t = [] -> matchToken t = Ok t1 ->
  queue t1 = queue t ++ [tk] -> start_offset tk = pos t ->
  start (location tk) = getLocation t
  /\ end_ (location tk) = getLocation t1
  /\ column_rule tk.
Proof.
  intros H L M Q Os.
  assert (X : exists t2 u p,
             t1 = enqueue t2 u p /\ queue t2 = queue t
             /\ _lookahead t2 = [] /\ column t2 = column t
             /\ p_line p = line t /\ p_column p = column t).
  { destruct (Nat.eq_dec (pos t) (length (str t))) as [He|Hne].
    - unfold matchToken in M. rewrite (proj2 (Nat.eqb_eq _ _) He) in M.
      inversion M. exists (set_eof t true), TkEOF, (getLocation (set_eof t true)).
      repeat split; auto.
    - destruct (@matchToken_last t ltac:(lia) L)
        as (t2 & u & p & pre & M' & (_ & Q2 & _ & _ & _ & _ & C) & Pl & Pc & _).
      rewrite M in M'. inversion M'. subst t1. clear M'.
      destruct (enqueue_line_feeds t2 u p) as (tk' & Q3 & _).
      rewrite Q3, Q2, <- app_assoc in Q. apply app_inv_head in Q.
      destruct pre as [|x pre].
      + cbn [app] in Q. injection Q as _ La.
        exists t2, u, p. rewrite app_nil_r in Q2.
        pose proof (C eq_refl La) as C2. repeat split; assumption.
      + destruct pre; discriminate. }
  destruct X as (t2 & u & p & -> & Q2 & L2 & C2 & Pl & Pc).
  destruct (enqueue_line_feeds t2 u p) as (tk' & Q3 & U & St & En & _ & C3 & P3).
  rewrite Q3, Q2, L2 in Q. apply app_inv_head in Q.
  injection Q as ->.
  unfold start_offset in Os. rewrite St in Os.
  split; [|split; [exact En|]].
  - rewrite St. destruct p as [o l c]. cbn in *. subst. reflexivity.
  - unfold column_rule, tok_name, end_offset, start_offset.
    rewrite U, En, St. cbn [getLocation p_column offset].
    rewrite C3, P3, Pc, C2. destruct (name u); reflexivity.
Qed.

(** For a [clean] input the locations of the tokens join up in full:
    the first token starts at offset 0, line 1, column 1, and every
    other token starts at the position, offset, line and column, at
    which the token before it ends.  A line break ends in column 1;
    every other token ends in the column of its start moved on by the
    number of characters it spans. *)
Theorem positions_clean (s : ustring) :
  clean s = true ->
  joined (mkPosition 0 1 1) (stream (new_Tokenizer s))
  /\ Forall column_rule (stream (new_Tokenizer s)).
Proof.
  intros Cl. unfold stream.
  set (p0 := mkPosition 0 1 1).
  enough (J : let d := drain (calls_bound (new_Tokenizer s))
                         (new_Tokenizer s) in
              tiled d /\ joined p0 (queue d)
              /\ last_end p0 (queue d) = getLocation d
              /\ Forall column_rule (queue d)) by (cbv zeta in J; tauto).
  apply (@drain_invariant
           (fun t => tiled t /\ joined p0 (queue t)
                     /\ last_end p0 (queue t) = getLocation t
                     /\ Forall column_rule (queue t)));
    [|apply wf_new|].
  - intros t t1 W (T & Jn & Le & Fc) E M.
    split; [exact (matchToken_tiled W T E M)|].
    assert (X : exists tk, queue t1 = queue t ++ [tk]
                           /\ start_offset tk = pos t).
    { destruct (matchToken_wf W E) as (t1' & M' & _ & C).
      rewrite M in M'. inversion M'; subst t1'. clear M'.
      destruct W as (_ & L & _). destruct T as (Cl' & Nl & _).
      destruct C as [[P (_ & _ & _ & _ & _ & e & Q & _ & Os & _)]|[P _]].
      - exists e. auto.
      - assert (O : tame (rest t) = true) by (apply clean_tame; exact Cl').
        assert (So : _newline t = true -> start_ok (rest t) = true).
        { intros N. apply clean_start_ok; [exact Cl'|exact P|exact (Nl N)]. }
        destruct (@matchToken_exact t P L O So)
          as (t1' & tk & M' & (Q & Os & _) & _).
        rewrite M in M'. inversion M'; subst t1'. exists tk. auto. }
    destruct X as (tk & Q & Os).
    destruct W as (P & L & _).
    destruct (@matchToken_position t t1 tk P L M Q Os) as (St & En & Cr).
    rewrite Q. split; [|split].
    + apply joined_app; [exact Jn|]. rewrite Le. cbn [joined]. auto.
    + rewrite last_end_app. cbn [last_end]. exact En.
    + apply Forall_app. split; [exact Fc|]. constructor; [exact Cr|constructor].
  - split.
    + unfold tiled. cbn [str new_Tokenizer].
      split; [exact Cl|]. split; [reflexivity|].
      split; [discriminate|]. split; [reflexivity|].
      split; [constructor|reflexivity].
    + cbn. auto.
Qed.

Lemma positions_clean_witness :
  clean (lit "  1. foo *<b> bar </b>*" ++ [c_nl; c_nl]
           ++ lit "<pre> *_ </pre> <!-- c --> 2 < 3") = true
  /\ joined (mkPosition 0 1 1)
       (stream
          (new_Tokenizer
             (lit "  1. foo *<b> bar </b>*" ++ [c_nl; c_nl]
                ++ lit "<pre> *_ </pre> <!-- c --> 2 < 3")))
  /\ Forall column_rule
       (stream
          (new_Tokenizer
             (lit "  1. foo *<b> bar </b>*" ++ [c_nl; c_nl]
                ++ lit "<pre> *_ </pre> <!-- c --> 2 < 3"))).
Proof.
  split; [reflexivity|].
  apply (positions_clean
           (lit "  1. foo *<b> bar </b>*" ++ [c_nl; c_nl]
              ++ lit "<pre> *_ </pre> <!-- c --> 2 < 3")).
  reflexivity.
Defined.

(** ** List markers in the stream *)

Lemma ends_line_app (b : bool) (l1 l2 : list Token) :
  ends_line b (l1 ++ l2) = ends_line (ends_line b l1) l2.
Proof.
  revert b. induction l1 as [|x l1 IH]; intros b; [reflexivity|].
  cbn [app ends_line]. apply IH.
Qed.

Lemma markers_lead_app (b : bool) (l1 l2 : list Token) :
  markers_lead b l1 -> markers_lead (ends_line b l1) l2 ->
  markers_lead b (l1 ++ l2).
Proof.
  revert b. induction l1 as [|x l1 IH]; intros b H1 H2; [exact H2|].
  destruct H1 as (A & B). cbn [app markers_lead]. split; [exact A|].
  apply IH; [exact B|exact H2].
Qed.

Lemma markers_lead_none (b : bool) (l : list Token) :
  Forall not_marker l -> markers_lead b l.
Proof.
  intros F. revert b. induction F as [|x l (A & B) _ IH]; intros b;
    [exact I|].
  cbn [markers_lead]. split; [|apply IH].
  unfold is_marker. destruct (tok_name x); try discriminate; contradiction.
Qed.

(** A call of [matchToken] queues a list marker only at a line start,
    and then nothing else. *)
Lemma matchToken_markers (t t1 : Tokenizer) :
  pos t <= length (str t) -> _lookahead t = [] -> matchToken t = Ok t1 ->
  exists toks,
    queue t1 = queue t ++ toks
    /\ ((exists x, toks = [x] /\ _newline t = true)
        \/ Forall not_marker toks).
Proof.
  intros H L M.
  destruct (Nat.eq_dec (pos t) (length (str t))) as [He|Hne].
  - destruct (matchToken_eof t He)
      as (t1' & e & M' & _ & _ & _ & _ & _ & _ & Q & U & _).
    rewrite M in M'. inversion M'; subst t1'. rewrite L in Q.
    exists [e]. split; [exact Q|]. right.
    constructor; [|constructor].
    unfold not_marker, tok_name. rewrite U. split; discriminate.
  - destruct (@matchToken_last t ltac:(lia) L)
      as (t2 & u & p & pre & M' & Q & _ & _ & _ & B & _).
    rewrite M in M'. inversion M'; subst t1. clear M'.
    destruct Q as (_ & Q & _ & _ & Fm & _).
    destruct (enqueue_token t2 u p) as (tk & Q3 & U & _).
    exists (pre ++ tk :: _lookahead t2).
    split; [rewrite Q3, Q, <- app_assoc; reflexivity|].
    assert (cases : (name u = ol \/ name u = ul) \/ not_marker tk).
    { unfold not_marker, tok_name. rewrite U.
      destruct (name u); auto; right; split; discriminate. }
    destruct cases as [Mk|Nm].
    + destruct (B Mk) as (-> & -> & N). left. exists tk. auto.
    + right. apply Forall_app in Fm. destruct Fm as [F1 F2].
      apply Forall_app. split; [exact F1|]. constructor; assumption.
Qed.

(** For every input, a list marker, an [ol] or [ul] token, is the
    first token of the stream or stands directly behind a [linebreak]
    or [parabreak] token. *)
Theorem markers_at_line_starts (s : ustring) :
  markers_lead true (stream (new_Tokenizer s)).
Proof.
  unfold stream.
  apply (@drain_invariant
           (fun t => markers_lead true (queue t)
                     /\ (_eof t = false -> _newline t = true ->
                         ends_line true (queue t) = true)));
    [|apply wf_new|split; [exact I|reflexivity]].
  intros t t1 W (A & B) E M.
  destruct (matchToken_wf W E) as (t1' & M' & _ & C).
  rewrite M in M'. inversion M'; subst t1'. clear M'.
  destruct W as (P & L & _).
  destruct (@matchToken_markers t t1 P L M) as (toks & Q & X).
  rewrite Q. split.
  - apply markers_lead_app; [exact A|].
    destruct X as [(x & -> & N)|F]; [|apply markers_lead_none; exact F].
    rewrite (B E N). cbn [markers_lead]. auto.
  - intros E1 N1.
    destruct C as [[_ (_ & E1' & _)]|[Hlt _]]; [congruence|].
    destruct (@matchToken_breaks t Hlt L) as (t1' & toks' & M' & Q' & Br & _).
    rewrite M in M'. inversion M'; subst t1'. clear M'.
    rewrite Q in Q'. apply app_inv_head in Q'. subst toks'.
    destruct (Br N1) as (x & -> & Ib).
    rewrite ends_line_app. cbn [ends_line].
    unfold breaks_line. destruct Ib as [-> | ->]; reflexivity.
Qed.

(** ** The contents of the tokens *)

Lemma matchToken_shaped (t t1 : Tokenizer) :
  pos t <= length (str t) -> _lookahead t = [] -> matchToken t = Ok t1 ->
  exists toks, queue t1 = queue t ++ toks /\ Forall shaped toks.
Proof.
  intros H L M.
  destruct (Nat.eq_dec (pos t) (length (str t))) as [He|Hne].
  - destruct (matchToken_eof t He)
      as (t1' & e & M' & _ & _ & _ & _ & _ & _ & Q & U & _).
    rewrite M in M'. inversion M'; subst t1'. rewrite L in Q.
    exists [e]. split; [exact Q|].
    constructor; [|constructor]. unfold shaped. rewrite U. reflexivity.
  - destruct (@matchToken_last t ltac:(lia) L)
      as (t2 & u & p & pre & M' & Q & _ & _ & _ & _ & Sh).
    rewrite M in M'. inversion M'; subst t1. clear M'.
    destruct Q as (_ & Q & _ & _ & _ & Fs & _).
    destruct (enqueue_token t2 u p) as (tk & Q3 & U & _).
    exists (pre ++ tk :: _lookahead t2).
    split; [rewrite Q3, Q, <- app_assoc; reflexivity|].
    apply Forall_app in Fs. destruct Fs as [F1 F2].
    apply Forall_app. split; [exact F1|]. constructor; [|exact F2].
    unfold shaped. rewrite U. exact Sh.
Qed.

(** For every input, the name of a token tells what its contents are.
    A delimiter token holds its one character, a [linebreak] one line
    feed, a [parabreak] two line feeds or more.  A [whitespace] token
    holds white space and a [text] token is not empty.  An [ol] token
    holds white space, then digits, a dot and a space; a [ul] token
    white space, then a star and a space.  A [tag] token starts with
    [<]; a [comment] and an [opaqueTag] token start with white space,
    which may be empty, followed by [<].  The EOF token has no
    contents, and no token is named [id]. *)
Theorem stream_shaped (s : ustring) :
  Forall shaped (stream (new_Tokenizer s)).
Proof.
  unfold stream.
  apply (@drain_invariant (fun t => Forall shaped (queue t)));
    [|apply wf_new|constructor].
  intros t t1 (P & L & _) F _ M.
  destruct (@matchToken_shaped t t1 P L M) as (toks & Q & Ft).
  rewrite Q. apply Forall_app. split; assumption.
Qed.
